(** * A generic LIFO stack over a growable buffer of element pointers

    Shallow embedding of [stack.c] / [stack.h].

    The C program works on three kinds of memory:
    - [struct Stack] objects, reached through [Stack *] handles;
    - [void **] buffers (the [data] array of a stack, the array returned
      by [to_array]);
    - the elements themselves, which live in memory that only the
      caller-supplied copy / free / compare functions touch.

    The first two are modelled by two typed stores (finite maps from
    addresses to contents); the third is an abstract world [W] threaded
    through the calls of the three function pointers.  Every function of
    [stack.c] becomes a computation in a small state-and-failure monad. *)

From stdpp Require Import gmap list.

Open Scope Z_scope.

(** ** Machine-level constants (LP64) *)

(** The null pointer, for every pointer type. *)
Definition NULL : Z := 0.

(** [size_t] is an unsigned 64-bit integer: arithmetic wraps. *)
Definition wrap (z : Z) : Z := z mod 2 ^ 64.

(** No object is larger than [PTRDIFF_MAX] bytes. *)
Definition PTRDIFF_MAX : Z := 2 ^ 63 - 1.

Definition sizeof_ptr : Z := 8.

(** [sizeof(Stack)]: a pointer, two [size_t] and three function pointers. *)
Definition sizeof_Stack : Z := 48.

(** [#define STACK_INITIAL_CAPACITY 8] *)
Definition STACK_INITIAL_CAPACITY : Z := 8.

(** The largest number of [void *] slots an object can hold. *)
Definition MAX_SLOTS : Z := PTRDIFF_MAX / sizeof_ptr.

(** A cell of a [void **] array: either never written since the array was
    obtained from [malloc] / [realloc], or holding a pointer. *)
Inductive slot : Type :=
  | Indet
  | Ptr (p : Z).

#[global] Instance slot_eq_dec : EqDecision slot.
Proof. solve_decision. Defined.

(** An address that is neither [NULL] nor used in the store [m]. *)
Definition fresh_addr {A : Type} (m : gmap Z A) : Z := fresh ({[NULL]} ∪ dom m).

(** ** Outcomes of a call *)

Inductive outcome (S A : Type) : Type :=
  | Ret (a : A) (st : S)   (* the call returns [a] in state [st] *)
  | Exit                   (* [exit(EXIT_FAILURE)] was called *)
  | Undefined              (* undefined behaviour *)
  | OutOfFuel.             (* a loop of the model ran out of fuel *)

Arguments Ret {S A} a st.
Arguments Exit {S A}.
Arguments Undefined {S A}.
Arguments OutOfFuel {S A}.

(** The value a call returns, if it returns. *)
Definition returned {S A : Type} (o : outcome S A) : option A :=
  match o with
  | Ret a _ => Some a
  | _ => None
  end.

(** The allocator: [alloc_ok n] tells whether a request of [n] bytes is
    granted.  A refused request makes [malloc] / [realloc] return [NULL]. *)
Class Allocator : Type := alloc_ok : Z → bool.

Section Model.

(** The caller's memory, where the elements live. *)
Context {W : Type}.

Context {allocator : Allocator}.

(** The type [StackCopyFunc]: from a [const void *element] to a [void *],
    the newly allocated copy. *)
Definition StackCopyFunc : Type := Z → W → Z * W.

(** The type [StackFreeFunc]: takes a [void *element], returns nothing. *)
Definition StackFreeFunc : Type := Z → W → W.

(** The type [StackCompareFunc]: from [const void *a] and [const void *b]
    to an [int], 0 when they are equal.  The arguments are [const]: the
    caller's memory is only read. *)
Definition StackCompareFunc : Type := Z → Z → W → Z.

(** [struct Stack].  [copy] and [free_func] must not be [NULL]; [cmp] is
    optional, [None] standing for a [NULL] function pointer. *)
Record Stack : Type := mkStack {
  Stack_data : Z;                          (* void **data *)
  Stack_size : Z;                          (* size_t size *)
  Stack_capacity : Z;                      (* size_t capacity *)
  Stack_copy : StackCopyFunc;              (* StackCopyFunc copy *)
  Stack_free_func : StackFreeFunc;         (* StackFreeFunc free_func *)
  Stack_cmp : option StackCompareFunc      (* StackCompareFunc cmp *)
}.

Record state : Type := mkState {
  structs : gmap Z Stack;          (* the allocated [struct Stack] objects *)
  arrays : gmap Z (list slot);     (* the allocated [void **] arrays *)
  world : W                        (* the caller's memory *)
}.

Definition set_structs (st : state) (m : gmap Z Stack) : state :=
  mkState m (arrays st) (world st).

Definition set_arrays (st : state) (m : gmap Z (list slot)) : state :=
  mkState (structs st) m (world st).

Definition set_world (st : state) (w : W) : state :=
  mkState (structs st) (arrays st) w.

Definition set_size (s : Stack) (n : Z) : Stack :=
  mkStack (Stack_data s) n (Stack_capacity s)
          (Stack_copy s) (Stack_free_func s) (Stack_cmp s).

Definition set_data_capacity (s : Stack) (d c : Z) : Stack :=
  mkStack d (Stack_size s) c (Stack_copy s) (Stack_free_func s) (Stack_cmp s).

(** ** The monad *)

Definition M (A : Type) : Type := state → outcome state A.

Definition ret {A : Type} (a : A) : M A := fun st => Ret a st.

Definition bind {A B : Type} (c : M A) (k : A → M B) : M B := fun st =>
  match c st with
  | Ret a st' => k a st'
  | Exit => Exit
  | Undefined => Undefined
  | OutOfFuel => OutOfFuel
  end.

Notation "x <- c1 ;; c2" := (bind c1 (fun x => c2))
  (at level 100, c1 at next level, right associativity).
Notation "c1 ;; c2" := (bind c1 (fun _ => c2))
  (at level 100, right associativity).

(** [exit(EXIT_FAILURE)] *)
Definition exit {A : Type} : M A := fun _ => Exit.

(** ** Memory primitives *)

(** What the allocator grants: the request must be accepted by [alloc_ok]
    and fit an object. *)
Definition granted (nbytes : Z) : bool :=
  alloc_ok nbytes && (nbytes <=? PTRDIFF_MAX).

(** Reading [*stack]. *)
Definition load_Stack (stack : Z) : M Stack := fun st =>
  if stack =? NULL then Undefined
  else match structs st !! stack with
       | Some s => Ret s st
       | None => Undefined
       end.

(** Writing the fields of [*stack]. *)
Definition store_Stack (stack : Z) (s : Stack) : M unit := fun st =>
  if stack =? NULL then Undefined
  else match structs st !! stack with
       | Some _ => Ret tt (set_structs st (<[stack := s]> (structs st)))
       | None => Undefined
       end.

(** A new [struct Stack] object with its fields written; the request for
    its storage has been granted. *)
Definition alloc_Stack (s : Stack) : M Z := fun st =>
  let stack := fresh_addr (structs st) in
  Ret stack (set_structs st (<[stack := s]> (structs st))).

(** [free(stack)] *)
Definition free_Stack (stack : Z) : M unit := fun st =>
  if stack =? NULL then Ret tt st
  else match structs st !! stack with
       | Some _ => Ret tt (set_structs st (delete stack (structs st)))
       | None => Undefined
       end.

(** [malloc(nbytes)] for a [void **]: the cells are indeterminate. *)
Definition malloc_array (nbytes : Z) : M Z := fun st =>
  if granted nbytes then
    let a := fresh_addr (arrays st) in
    Ret a (set_arrays st
             (<[a := replicate (Z.to_nat (nbytes / sizeof_ptr)) Indet]> (arrays st)))
  else Ret NULL st.

(** [realloc(a, nbytes)] for a [void **]: on success the old block is gone,
    the new one starts with the old contents (cut to the new length) and
    the cells beyond are indeterminate.  On failure the old block stays. *)
Definition realloc_array (a : Z) (nbytes : Z) : M Z := fun st =>
  match arrays st !! a with
  | None => Undefined
  | Some buf =>
      if granted nbytes then
        let rest := delete a (arrays st) in
        let a' := fresh_addr rest in
        Ret a' (set_arrays st
                  (<[a' := resize (Z.to_nat (nbytes / sizeof_ptr)) Indet buf]> rest))
      else Ret NULL st
  end.

(** [free(a)] for a [void **]. *)
Definition free_array (a : Z) : M unit := fun st =>
  if a =? NULL then Ret tt st
  else match arrays st !! a with
       | Some _ => Ret tt (set_arrays st (delete a (arrays st)))
       | None => Undefined
       end.

(** Reading [a[i]]: out of bounds and uninitialised reads are undefined. *)
Definition load_slot (a i : Z) : M Z := fun st =>
  match arrays st !! a with
  | Some buf =>
      if (0 <=? i) && (i <? Z.of_nat (length buf)) then
        match buf !! Z.to_nat i with
        | Some (Ptr p) => Ret p st
        | _ => Undefined
        end
      else Undefined
  | None => Undefined
  end.

(** Writing [a[i] = p]: out of bounds writes are undefined. *)
Definition store_slot (a i p : Z) : M unit := fun st =>
  match arrays st !! a with
  | Some buf =>
      if (0 <=? i) && (i <? Z.of_nat (length buf)) then
        Ret tt (set_arrays st (<[a := <[Z.to_nat i := Ptr p]> buf]> (arrays st)))
      else Undefined
  | None => Undefined
  end.

(** ** Calls through the function pointers *)

Definition call_copy (f : StackCopyFunc) (element : Z) : M Z := fun st =>
  let '(p, w) := f element (world st) in Ret p (set_world st w).

Definition call_free (f : StackFreeFunc) (element : Z) : M unit := fun st =>
  Ret tt (set_world st (f element (world st))).

(** Calling a [NULL] function pointer is undefined. *)
Definition call_cmp (f : option StackCompareFunc) (a b : Z) : M Z := fun st =>
  match f with
  | Some g => Ret (g a b (world st)) st
  | None => Undefined
  end.

(** [for (size_t i = i0; i < i0 + n; ++i) body(i)], for a bound that the
    body does not change. *)
Fixpoint for_loop (n : nat) (i : Z) (body : Z → M unit) : M unit :=
  match n with
  | O => ret tt
  | S n' => body i ;; for_loop n' (i + 1) body
  end.

(** ** The functions of [stack.c] *)

(** [grow]: the capacity doubles, from 0 it goes to the initial
    capacity; the process exits when [realloc] fails. *)
Definition grow (stack : Z) : M unit :=
  s <- load_Stack stack ;;
  let new_capacity :=
    if Stack_capacity s =? 0 then STACK_INITIAL_CAPACITY
    else wrap (Stack_capacity s * 2) in
  new_data <- realloc_array (Stack_data s) (wrap (new_capacity * sizeof_ptr)) ;;
  if new_data =? NULL then exit
  else store_Stack stack (set_data_capacity s new_data new_capacity).

(** [new_stack]: the struct is requested first, then the buffer; the
    process exits when either request fails.  The struct enters the store
    once its fields are written. *)
Definition new_stack (copy_func : StackCopyFunc) (free_func : StackFreeFunc)
    (cmp_func : option StackCompareFunc) : M Z :=
  if negb (granted sizeof_Stack) then exit
  else
    let capacity := STACK_INITIAL_CAPACITY in
    d <- malloc_array (wrap (capacity * sizeof_ptr)) ;;
    if d =? NULL then exit
    else alloc_Stack (mkStack d 0 capacity copy_func free_func cmp_func).

(** [push]: the last statement stores the copy at index [size] and then
    increments [size]. *)
Definition push (stack : Z) (element : Z) : M unit :=
  if stack =? NULL then ret tt
  else
    s <- load_Stack stack ;;
    (if Stack_size s =? Stack_capacity s then grow stack else ret tt) ;;
    s <- load_Stack stack ;;
    p <- call_copy (Stack_copy s) element ;;
    store_slot (Stack_data s) (Stack_size s) p ;;
    store_Stack stack (set_size s (wrap (Stack_size s + 1))).

(** [pop]: [size] is decremented first; the slot at the new [size] is
    read and then set to [NULL]. *)
Definition pop (stack : Z) : M Z :=
  if stack =? NULL then ret NULL
  else
    s <- load_Stack stack ;;
    if Stack_size s =? 0 then ret NULL
    else
      let n := wrap (Stack_size s - 1) in
      store_Stack stack (set_size s n) ;;
      element <- load_slot (Stack_data s) n ;;
      store_slot (Stack_data s) n NULL ;;
      ret element.

Definition peek (stack : Z) : M Z :=
  if stack =? NULL then ret NULL
  else
    s <- load_Stack stack ;;
    if Stack_size s =? 0 then ret NULL
    else load_slot (Stack_data s) (wrap (Stack_size s - 1)).

(** [clear]: the free function is called on the slots [0 .. size), then
    [size] is set to 0.  The slots are not written. *)
Definition clear (stack : Z) : M unit :=
  if stack =? NULL then ret tt
  else
    s <- load_Stack stack ;;
    for_loop (Z.to_nat (Stack_size s)) 0
      (fun i => e <- load_slot (Stack_data s) i ;;
                call_free (Stack_free_func s) e) ;;
    s <- load_Stack stack ;;
    store_Stack stack (set_size s 0).

Definition free_stack (stack : Z) : M unit :=
  if stack =? NULL then ret tt
  else
    clear stack ;;
    s <- load_Stack stack ;;
    free_array (Stack_data s) ;;
    free_Stack stack.

Definition is_empty (stack : Z) : M bool :=
  if stack =? NULL then ret true
  else s <- load_Stack stack ;; ret (Stack_size s =? 0).

Definition size (stack : Z) : M Z :=
  if stack =? NULL then ret 0
  else s <- load_Stack stack ;; ret (Stack_size s).

Definition capacity (stack : Z) : M Z :=
  if stack =? NULL then ret 0
  else s <- load_Stack stack ;; ret (Stack_capacity s).

(** The loop of [contains], from index [i], with [n] indices left. *)
Fixpoint contains_loop (n : nat) (s : Stack) (i : Z) (element : Z) : M bool :=
  match n with
  | O => ret false
  | S n' =>
      e <- load_slot (Stack_data s) i ;;
      c <- call_cmp (Stack_cmp s) e element ;;
      if c =? 0 then ret true else contains_loop n' s (i + 1) element
  end.

Definition contains (stack : Z) (element : Z) : M bool :=
  if stack =? NULL then ret false
  else
    s <- load_Stack stack ;;
    contains_loop (Z.to_nat (Stack_size s)) s 0 element.

Definition clone (stack : Z) : M Z :=
  if stack =? NULL then ret NULL
  else
    s <- load_Stack stack ;;
    clone <- new_stack (Stack_copy s) (Stack_free_func s) (Stack_cmp s) ;;
    for_loop (Z.to_nat (Stack_size s)) 0
      (fun i => s <- load_Stack stack ;;
                e <- load_slot (Stack_data s) i ;;
                push clone e) ;;
    ret clone.

(** The [while (left < right)] loop of [reverse]. *)
Fixpoint reverse_loop (fuel : nat) (stack : Z) (left right : Z) : M unit :=
  match fuel with
  | O => fun _ => OutOfFuel
  | S fuel' =>
      if left <? right then
        s <- load_Stack stack ;;
        tmp <- load_slot (Stack_data s) left ;;
        r <- load_slot (Stack_data s) right ;;
        store_slot (Stack_data s) left r ;;
        store_slot (Stack_data s) right tmp ;;
        reverse_loop fuel' stack (wrap (left + 1)) (wrap (right - 1))
      else ret tt
  end.

(** [reverse] reads [stack->size] without a null check. *)
Definition reverse (stack : Z) : M unit :=
  s <- load_Stack stack ;;
  if Stack_size s =? 0 then ret tt
  else reverse_loop (Z.to_nat (Stack_size s)) stack 0 (wrap (Stack_size s - 1)).

(** [to_array].  The parameter [out_size] tells whether the pointer of that
    name is non-null; the second component of the result is the value
    written to [*out_size], if any.  [stack->size] is read without a null
    check. *)
Definition to_array (stack : Z) (out_size : bool) : M (Z * option Z) :=
  s <- load_Stack stack ;;
  if Stack_size s =? 0 then
    ret (NULL, if out_size then Some 0 else None)
  else
    array <- malloc_array (wrap (Stack_size s * sizeof_ptr)) ;;
    if array =? NULL then exit
    else
      for_loop (Z.to_nat (Stack_size s)) 0
        (fun i => e <- load_slot (Stack_data s) i ;;
                  p <- call_copy (Stack_copy s) e ;;
                  store_slot array i p) ;;
      ret (array, if out_size then Some (Stack_size s) else None).

(** ** Client programs used to state the properties *)

(** Pushing [e1 .. en] in that order. *)
Fixpoint push_all (stack : Z) (es : list Z) : M unit :=
  match es with
  | [] => ret tt
  | e :: es' => push stack e ;; push_all stack es'
  end.

(** [n] successive calls to [pop], with the list of their results. *)
Fixpoint pop_n (stack : Z) (n : nat) : M (list Z) :=
  match n with
  | O => ret []
  | S n' => p <- pop stack ;; ps <- pop_n stack n' ;; ret (p :: ps)
  end.

(** The pointers returned by successive calls of a copy function on
    [es], and the caller's memory after them. *)
Fixpoint copy_all (f : StackCopyFunc) (es : list Z) (w : W) : list Z * W :=
  match es with
  | [] => ([], w)
  | e :: es' =>
      let '(p, w1) := f e w in
      let '(ps, w2) := copy_all f es' w1 in
      (p :: ps, w2)
  end.

(** The caller's memory after successive calls of a free function. *)
Definition free_all (f : StackFreeFunc) (ps : list Z) (w : W) : W :=
  fold_left (fun w p => f p w) ps w.

(** The capacity [grow] moves to. *)
Definition grown (c : Z) : Z := if c =? 0 then STACK_INITIAL_CAPACITY else c * 2.

(** The capacity after [n] pushes, from capacity [c] and size [sz]. *)
Fixpoint capacity_after (c sz : Z) (n : nat) : Z :=
  match n with
  | O => c
  | S n' => capacity_after (if sz =? c then grown c else c) (sz + 1) n'
  end.

(** A call of the interface on one handle. *)
Inductive call : Type :=
  | Push (element : Z)
  | Pop
  | Peek
  | Clear
  | IsEmpty
  | Size
  | Capacity
  | Contains (element : Z)
  | Clone
  | Reverse
  | ToArray (out_size : bool).

Definition run_call (stack : Z) (c : call) : M unit :=
  match c with
  | Push e => push stack e
  | Pop => _ <- pop stack ;; ret tt
  | Peek => _ <- peek stack ;; ret tt
  | Clear => clear stack
  | IsEmpty => _ <- is_empty stack ;; ret tt
  | Size => _ <- size stack ;; ret tt
  | Capacity => _ <- capacity stack ;; ret tt
  | Contains e => _ <- contains stack e ;; ret tt
  | Clone => _ <- clone stack ;; ret tt
  | Reverse => reverse stack
  | ToArray out_size => _ <- to_array stack out_size ;; ret tt
  end.

(** A call that changes the contents of a stack: [push] or [pop]. *)
Inductive mutation : Type :=
  | MPush (element : Z)
  | MPop.

Fixpoint run_mutations (stack : Z) (ms : list mutation) : M unit :=
  match ms with
  | [] => ret tt
  | MPush e :: ms' => push stack e ;; run_mutations stack ms'
  | MPop :: ms' => _ <- pop stack ;; run_mutations stack ms'
  end.

(** A sequence of calls of the interface on one handle. *)
Fixpoint run_calls (stack : Z) (cs : list call) : M unit :=
  match cs with
  | [] => ret tt
  | c :: cs' => run_call stack c ;; run_calls stack cs'
  end.

(** The sequence an array pointer returned by [to_array] stands for:
    the empty sequence for [NULL]. *)
Definition array_contents (st : state) (a : Z) : list slot :=
  if a =? NULL then [] else default [] (arrays st !! a).

(** [post o Q]: the call neither runs into undefined behaviour nor out of
    fuel; it returns a result and a state that satisfy [Q], unless a
    refused allocation made it exit. *)
Definition post {A : Type} (o : outcome state A) (Q : A → state → Prop) : Prop :=
  match o with
  | Ret a st => Q a st
  | Exit => True
  | Undefined => False
  | OutOfFuel => False
  end.

(** The contract of a copy function (stack.h: "pointer to a newly
    allocated copy of the element"), for a caller's memory in which
    [allocated w p] tells that [p] points to an element and [val w p] is
    that element's value: the result is a pointer that was not allocated,
    it holds the value of the argument, and no element that existed
    changes. *)
Definition copy_contract {V : Type} (allocated : W → Z → Prop) (val : W → Z → V)
    (f : StackCopyFunc) : Prop :=
  ∀ e w p w', f e w = (p, w') →
    ¬ allocated w p ∧ allocated w' p ∧ val w' p = val w e ∧
    (∀ q, allocated w q → allocated w' q ∧ val w' q = val w q).

(** The value a slot stands for. *)
Definition slot_val {V : Type} (val : W → Z → V) (w : W) (x : slot) : option V :=
  match x with
  | Ptr p => Some (val w p)
  | Indet => None
  end.

(** The slot at index [i] of the buffer of [s]. *)
Definition slot_at (st : state) (s : Stack) (i : nat) : option slot :=
  match arrays st !! Stack_data s with
  | Some buf => buf !! i
  | None => None
  end.

(** ** The representation predicate

    [is_stack st stack s live junk]: in state [st] the handle [stack]
    points to the struct [s], whose buffer holds the pointers [live] in
    its slots [0 .. size) followed by the cells [junk] in the slots
    [size .. capacity).  The buffer is one object, so it has at most
    [MAX_SLOTS] slots; within that bound none of the [size_t]
    computations of [stack.c] wraps. *)
Definition is_stack (st : state) (stack : Z) (s : Stack)
    (live : list Z) (junk : list slot) : Prop :=
  stack ≠ NULL ∧
  structs st !! stack = Some s ∧
  arrays st !! Stack_data s = Some ((Ptr <$> live) ++ junk) ∧
  Stack_size s = Z.of_nat (length live) ∧
  Stack_capacity s = Z.of_nat (length live) + Z.of_nat (length junk) ∧
  Stack_capacity s <= MAX_SLOTS.

(** Two structs with the same three operations. *)
Definition same_funcs (s s' : Stack) : Prop :=
  Stack_copy s' = Stack_copy s ∧
  Stack_free_func s' = Stack_free_func s ∧
  Stack_cmp s' = Stack_cmp s.

(** What a call on [stack] leaves alone: every struct other than [*stack]
    and every array other than its buffer, which is at [d] before the
    call and at [d'] after it. *)
Definition frame (stack d d' : Z) (st st' : state) : Prop :=
  (∀ h s, h ≠ stack → structs st !! h = Some s → structs st' !! h = Some s) ∧
  (∀ a buf, a ≠ d → arrays st !! a = Some buf →
            a ≠ d' ∧ arrays st' !! a = Some buf).

(** ** States the calls leave, and other notions used in the proofs *)

(** The last statement of [push]:
    [stack->data[stack->size++] = stack->copy(element)]. *)
Definition push_store (stack element : Z) : M unit :=
  s <- load_Stack stack ;;
  p <- call_copy (Stack_copy s) element ;;
  store_slot (Stack_data s) (Stack_size s) p ;;
  store_Stack stack (set_size s (wrap (Stack_size s + 1))).

(** The state [pop] leaves: the size is decremented and the vacated slot
    holds [NULL]. *)
Definition popped (st : state) (stack : Z) (s : Stack) (live : list Z)
    (junk : list slot) : state :=
  mkState (<[stack := set_size s (Z.of_nat (length live))]> (structs st))
          (<[Stack_data s := (Ptr <$> live) ++ Ptr NULL :: junk]> (arrays st))
          (world st).

(** The state [grow] leaves when the allocator grants the request. *)
Definition grown_state (st : state) (stack : Z) (s : Stack) (buf : list slot) : state :=
  let rest := delete (Stack_data s) (arrays st) in
  let d := fresh_addr rest in
  let c := grown (Stack_capacity s) in
  mkState (<[stack := set_data_capacity s d c]> (structs st))
          (<[d := buf ++ replicate (Z.to_nat (c - Stack_capacity s)) Indet]> rest)
          (world st).

(** The state [new_stack] leaves when both requests are granted. *)
Definition new_state (st : state) (cf : StackCopyFunc) (ff : StackFreeFunc)
    (cmpf : option StackCompareFunc) : state :=
  mkState (<[fresh_addr (structs st) :=
             mkStack (fresh_addr (arrays st)) 0 STACK_INITIAL_CAPACITY cf ff cmpf]>
             (structs st))
          (<[fresh_addr (arrays st) := replicate 8 Indet]> (arrays st))
          (world st).

(** The state [clear] leaves: every live element has been passed to the
    free function, in index order, and the size is 0.  The buffer is not
    touched. *)
Definition cleared (st : state) (stack : Z) (s : Stack) (live : list Z) : state :=
  mkState (<[stack := set_size s 0]> (structs st))
          (arrays st)
          (free_all (Stack_free_func s) live (world st)).

(** Every object of [st] is still there, unchanged, in [st'], and the
    array address [d'] is none of them. *)
Definition keeps (st st' : state) (d' : Z) : Prop :=
  (∀ h s, structs st !! h = Some s → structs st' !! h = Some s) ∧
  (∀ a buf, arrays st !! a = Some buf → a ≠ d' ∧ arrays st' !! a = Some buf).

(** The glossary of the specification calls an element live when it is
    "currently counted within size, as opposed to unused backing
    capacity".  The slot at index [i] is unused when it is a slot of the
    buffer that the size does not count, whatever it holds. *)
Definition unused (s : Stack) (i : nat) : Prop :=
  Stack_size s <= Z.of_nat i < Stack_capacity s.

(** A slot that is unused or null. *)
Definition unused_or_null (s : Stack) (i : nat) (x : slot) : Prop :=
  unused s i ∨ x = Ptr NULL.

(** Live, non-null owned elements, for a caller's memory in which
    [allocated w p] tells that [p] points to an element that has not been
    released: every pointer of [live] points to such an element, none is
    [NULL], and no two slots hold the same element. *)
Definition live_owned (allocated : W → Z → Prop) (w : W) (live : list Z) : Prop :=
  Forall (fun p => p ≠ NULL ∧ allocated w p) live ∧ NoDup live.

(** The buffer invariant in the words of the specification: the slots
    [0 .. size) hold live, non-null owned elements and the slots
    [size .. capacity) are unused or null. *)
Definition spec_buffer_invariant (allocated : W → Z → Prop) (st : state)
    (stack : Z) : Prop :=
  ∃ s live junk,
    is_stack st stack s live junk ∧
    live_owned allocated (world st) live ∧
    (∀ i x, junk !! i = Some x → unused_or_null s (length live + i) x).

(** [contains] may only be called on a stack that has a comparison
    function, unless the stack is empty. *)
Definition call_ok (s : Stack) (live : list Z) (c : call) : Prop :=
  match c with
  | Contains _ => live = [] ∨ Stack_cmp s ≠ None
  | _ => True
  end.

(** The size a call leaves when it returns, on a stack of [n] elements:
    [push] increments it, [pop] decrements it unless it is 0, [clear]
    sets it to 0 and no other call changes it (lemma [run_call_shape]). *)
Definition size_after (n : nat) (c : call) : nat :=
  match c with
  | Push _ => S n
  | Pop => pred n
  | Clear => 0
  | _ => n
  end.

(** A sequence of calls on a stack of [n] elements with the comparison
    function [cmp] that calls [contains] only while the stack is empty or
    when there is a comparison function. *)
Fixpoint calls_ok (cmp : option StackCompareFunc) (n : nat) (cs : list call) : Prop :=
  match cs with
  | [] => True
  | c :: cs' =>
      match c with
      | Contains _ => n = 0%nat ∨ cmp ≠ None
      | _ => True
      end ∧
      calls_ok cmp (size_after n c) cs'
  end.

End Model.

Notation "x <- c1 ;; c2" := (bind c1 (fun x => c2))
  (at level 100, c1 at next level, right associativity).
Notation "c1 ;; c2" := (bind c1 (fun _ => c2))
  (at level 100, right associativity).

(** * Two clients *)

(** A stack of [int]: the caller's memory maps the address of each
    allocated [int] to its value. *)
Module IntClient.

(** Allocates an [int], stores the value of the argument in it and
    returns its address. *)
Definition int_copy (element : Z) (w : gmap Z Z) : Z * gmap Z Z :=
  let p := fresh_addr w in (p, <[p := default 0 (w !! element)]> w).

(** Releases the [int] at the given address. *)
Definition int_free (element : Z) (w : gmap Z Z) : gmap Z Z := delete element w.

(** Three-way comparison of the two [int] values. *)
Definition int_cmp (a b : Z) (w : gmap Z Z) : Z :=
  let x := default 0 (w !! a) in
  let y := default 0 (w !! b) in
  if x <? y then -1 else if x =? y then 0 else 1.

Definition allocated (w : gmap Z Z) (p : Z) : Prop := is_Some (w !! p).

Definition val (w : gmap Z Z) (p : Z) : Z := default 0 (w !! p).

(** An allocator that grants up to 4096 bytes per request. *)
Definition small_requests : Allocator := fun n => n <=? 4096.

(** The caller holds the values 7, 8 and 9 at the addresses 1, 2 and 3. *)
Definition w0 : gmap Z Z := <[1 := 7]> (<[2 := 8]> (<[3 := 9]> ∅)).

(** No stack yet. *)
Definition st_init : @state (gmap Z Z) := mkState ∅ ∅ w0.

(** The caller's memory once 7, 8 and 9 have been copied to the addresses
    4, 5 and 6. *)
Definition w3 : gmap Z Z := <[6 := 9]> (<[5 := 8]> (<[4 := 7]> w0)).

Definition s3 : @Stack (gmap Z Z) := mkStack 1 3 8 int_copy int_free (Some int_cmp).

Definition junk5 : list slot := replicate 5 Indet.

(** One stack, at handle 1, holding the copies of 7, 8 and 9. *)
Definition st3 : @state (gmap Z Z) :=
  mkState {[1 := s3]} {[1 := [Ptr 4; Ptr 5; Ptr 6] ++ junk5]} w3.

Definition s0 : @Stack (gmap Z Z) := mkStack 1 0 8 int_copy int_free (Some int_cmp).

(** One empty stack, at handle 1. *)
Definition st0 : @state (gmap Z Z) :=
  mkState {[1 := s0]} {[1 := replicate 8 Indet]} w0.

Definition s8 : @Stack (gmap Z Z) := mkStack 1 8 8 int_copy int_free (Some int_cmp).

(** One full stack, at handle 1: eight copies of 7. *)
Definition st8 : @state (gmap Z Z) :=
  mkState {[1 := s8]} {[1 := Ptr <$> [4; 5; 6; 7; 8; 9; 10; 11]]}
          (foldr (fun p w => <[p := 7]> w) w0 [11; 10; 9; 8; 7; 6; 5; 4]).

(** The stack of [st3] once cleared: the three copies are released,
    their addresses are still in the slots 0, 1 and 2. *)
Definition st3_cleared : @state (gmap Z Z) :=
  mkState {[1 := s0]} {[1 := [Ptr 4; Ptr 5; Ptr 6] ++ junk5]} w0.

Definition s3_wide : @Stack (gmap Z Z) :=
  mkStack 1 3 16 int_copy int_free (Some int_cmp).

(** The stack of [st3] in a buffer of 16 slots, as it is after it has
    held more than 8 elements. *)
Definition st3_wide : @state (gmap Z Z) :=
  mkState {[1 := s3_wide]} {[1 := [Ptr 4; Ptr 5; Ptr 6] ++ replicate 13 Indet]} w3.

(** An allocator that refuses every request. *)
Definition no_memory : Allocator := fun _ => false.

End IntClient.

(** A client that records the calls of its free function: the caller's
    memory is the list of the pointers released so far. *)
Module LogClient.

Definition log_copy (element : Z) (w : list Z) : Z * list Z := (element, w).

Definition log_free (element : Z) (w : list Z) : list Z := w ++ [element].

Definition s3 : @Stack (list Z) := mkStack 1 3 8 log_copy log_free None.

Definition st3 : @state (list Z) :=
  mkState {[1 := s3]} {[1 := [Ptr 4; Ptr 5; Ptr 6] ++ replicate 5 Indet]} [].

End LogClient.

(** * Facts about the model *)

Section Facts.

Context {W : Type} {allocator : Allocator}.

Local Abbreviation state := (@state W).
Local Abbreviation Stack := (@Stack W).
Local Abbreviation M := (@M W).
Local Abbreviation StackCopyFunc := (@StackCopyFunc W).
Local Abbreviation StackFreeFunc := (@StackFreeFunc W).
Local Abbreviation StackCompareFunc := (@StackCompareFunc W).

Implicit Types (st : state) (s sc sh so : Stack) (w : W).

(** ** Basic facts *)

Lemma wrap_small z : 0 <= z < 2 ^ 64 → wrap z = z.
Proof. intros. unfold wrap. by apply Z.mod_small. Qed.

Lemma MAX_SLOTS_val : MAX_SLOTS = 2 ^ 60 - 1.
Proof. reflexivity. Qed.

Lemma fresh_addr_not_null {A} (m : gmap Z A) : fresh_addr m ≠ NULL.
Proof.
  unfold fresh_addr. intros E.
  pose proof (is_fresh ({[NULL]} ∪ dom m)) as F. rewrite E in F. set_solver.
Qed.

Lemma fresh_addr_None {A} (m : gmap Z A) : m !! fresh_addr m = None.
Proof.
  unfold fresh_addr. apply not_elem_of_dom.
  pose proof (is_fresh ({[NULL]} ∪ dom m)) as F. set_solver.
Qed.

Lemma fresh_addr_ne {A} (m : gmap Z A) a x : m !! a = Some x → a ≠ fresh_addr m.
Proof. intros H E. rewrite E, fresh_addr_None in H. discriminate. Qed.

Lemma bind_Ret {A B} (c : M A) (k : A → M B) st a st' :
  c st = Ret a st' → bind c k st = k a st'.
Proof. unfold bind. by intros ->. Qed.

Lemma load_Stack_eq st stack s :
  stack ≠ NULL → structs st !! stack = Some s → load_Stack stack st = Ret s st.
Proof.
  intros Hn Hs. unfold load_Stack.
  destruct (Z.eqb_spec stack NULL); [done|]. by rewrite Hs.
Qed.

Lemma store_Stack_eq st stack s s' :
  stack ≠ NULL → structs st !! stack = Some s →
  store_Stack stack s' st = Ret tt (set_structs st (<[stack := s']> (structs st))).
Proof.
  intros Hn Hs. unfold store_Stack.
  destruct (Z.eqb_spec stack NULL); [done|]. by rewrite Hs.
Qed.

Lemma load_slot_eq st a buf i p :
  arrays st !! a = Some buf → buf !! i = Some (Ptr p) →
  load_slot a (Z.of_nat i) st = Ret p st.
Proof.
  intros Ha Hi. unfold load_slot. rewrite Ha.
  pose proof (lookup_lt_Some _ _ _ Hi).
  rewrite Nat2Z.id, Hi.
  destruct (Z.leb_spec 0 (Z.of_nat i)); [|lia].
  destruct (Z.ltb_spec (Z.of_nat i) (Z.of_nat (length buf))); [done|lia].
Qed.

Lemma store_slot_eq st a buf i p :
  arrays st !! a = Some buf → (i < length buf)%nat →
  store_slot a (Z.of_nat i) p st
  = Ret tt (set_arrays st (<[a := <[i := Ptr p]> buf]> (arrays st))).
Proof.
  intros Ha Hi. unfold store_slot. rewrite Ha, Nat2Z.id.
  destruct (Z.leb_spec 0 (Z.of_nat i)); [|lia].
  destruct (Z.ltb_spec (Z.of_nat i) (Z.of_nat (length buf))); [done|lia].
Qed.

Lemma is_stack_bounds st stack s live junk :
  is_stack st stack s live junk →
  0 <= Stack_size s <= Stack_capacity s ∧ Stack_capacity s < 2 ^ 60.
Proof.
  intros (_ & _ & _ & Hs & Hc & Hm). rewrite MAX_SLOTS_val in Hm. lia.
Qed.

Lemma frame_refl stack d st : frame stack d d st st.
Proof. by split. Qed.

Lemma frame_trans stack d1 d2 d3 st1 st2 st3 :
  frame stack d1 d2 st1 st2 → frame stack d2 d3 st2 st3 →
  frame stack d1 d3 st1 st3.
Proof.
  intros [S1 A1] [S2 A2]. split.
  - intros h s Hne Hh. by apply S2, S1.
  - intros a buf Hne Hh. destruct (A1 a buf Hne Hh) as [Hne' Hh'].
    by apply A2.
Qed.

Lemma same_funcs_refl s : same_funcs s s.
Proof. by repeat split. Qed.

Lemma same_funcs_trans s1 s2 s3 :
  same_funcs s1 s2 → same_funcs s2 s3 → same_funcs s1 s3.
Proof. intros (?&?&?) (?&?&?). repeat split; congruence. Qed.

Lemma list_insert_middle {A} (l1 l2 : list A) (x y : A) :
  <[length l1 := y]> (l1 ++ x :: l2) = l1 ++ y :: l2.
Proof.
  rewrite insert_app_r_alt by lia. by rewrite Nat.sub_diag.
Qed.

Lemma lookup_live_middle (live : list Z) (p : Z) (junk : list slot) :
  ((Ptr <$> live ++ [p]) ++ junk) !! length live = Some (Ptr p).
Proof.
  rewrite fmap_app, <- app_assoc. simpl.
  rewrite lookup_app_r by (rewrite length_fmap; lia).
  by rewrite length_fmap, Nat.sub_diag.
Qed.

(** ** The observers *)

Lemma size_spec st stack s live junk :
  is_stack st stack s live junk →
  size stack st = Ret (Z.of_nat (length live)) st.
Proof.
  intros (Hn & Hs & _ & Hsz & _). unfold size.
  destruct (Z.eqb_spec stack NULL); [done|].
  rewrite (bind_Ret _ _ _ _ _ (load_Stack_eq _ _ _ Hn Hs)). by rewrite Hsz.
Qed.

Lemma capacity_spec st stack s live junk :
  is_stack st stack s live junk →
  capacity stack st = Ret (Stack_capacity s) st.
Proof.
  intros (Hn & Hs & _). unfold capacity.
  destruct (Z.eqb_spec stack NULL); [done|].
  by rewrite (bind_Ret _ _ _ _ _ (load_Stack_eq _ _ _ Hn Hs)).
Qed.

Lemma is_empty_spec st stack s live junk :
  is_stack st stack s live junk →
  is_empty stack st = Ret (bool_decide (live = [])) st.
Proof.
  intros (Hn & Hs & _ & Hsz & _). unfold is_empty.
  destruct (Z.eqb_spec stack NULL); [done|].
  rewrite (bind_Ret _ _ _ _ _ (load_Stack_eq _ _ _ Hn Hs)). unfold ret.
  f_equal. rewrite Hsz. destruct live as [|x live]; [done|].
  rewrite (bool_decide_eq_false_2 (x :: live = [])) by done.
  apply Z.eqb_neq. simpl. lia.
Qed.

(** ** [pop] and [peek] *)

Lemma pop_empty st stack s junk :
  is_stack st stack s [] junk → pop stack st = Ret NULL st.
Proof.
  intros (Hn & Hs & _ & Hsz & _). unfold pop.
  destruct (Z.eqb_spec stack NULL); [done|].
  rewrite (bind_Ret _ _ _ _ _ (load_Stack_eq _ _ _ Hn Hs)).
  by rewrite Hsz.
Qed.

Lemma peek_empty st stack s junk :
  is_stack st stack s [] junk → peek stack st = Ret NULL st.
Proof.
  intros (Hn & Hs & _ & Hsz & _). unfold peek.
  destruct (Z.eqb_spec stack NULL); [done|].
  rewrite (bind_Ret _ _ _ _ _ (load_Stack_eq _ _ _ Hn Hs)).
  by rewrite Hsz.
Qed.

Lemma pop_spec st stack s live p junk :
  is_stack st stack s (live ++ [p]) junk →
  pop stack st = Ret p (popped st stack s live junk).
Proof.
  intros (Hn & Hs & Ha & Hsz & Hc & Hm). unfold pop.
  rewrite length_app in Hsz, Hc. simpl in Hsz, Hc. rewrite MAX_SLOTS_val in Hm.
  destruct (Z.eqb_spec stack NULL); [done|].
  rewrite (bind_Ret _ _ _ _ _ (load_Stack_eq _ _ _ Hn Hs)).
  destruct (Z.eqb_spec (Stack_size s) 0); [lia|].
  replace (wrap (Stack_size s - 1)) with (Z.of_nat (length live))
    by (rewrite wrap_small; lia).
  rewrite (bind_Ret _ _ _ _ _ (store_Stack_eq _ _ _ _ Hn Hs)).
  erewrite bind_Ret; [|eapply load_slot_eq; [exact Ha|apply lookup_live_middle]].
  erewrite bind_Ret; [|eapply store_slot_eq; [exact Ha|]].
  - unfold ret, popped, set_arrays, set_structs. simpl. do 3 f_equal.
    rewrite fmap_app, <- app_assoc. simpl.
    rewrite <- (length_fmap Ptr live) at 1. apply list_insert_middle.
  - rewrite length_app, length_fmap, length_app. simpl. lia.
Qed.

Lemma popped_is_stack st stack s live p junk :
  is_stack st stack s (live ++ [p]) junk →
  is_stack (popped st stack s live junk) stack
    (set_size s (Z.of_nat (length live))) live (Ptr NULL :: junk).
Proof.
  intros (Hn & Hs & Ha & Hsz & Hc & Hm).
  rewrite length_app in Hsz, Hc. simpl in Hsz, Hc.
  unfold is_stack, popped. simpl.
  rewrite !lookup_insert_eq. repeat split; try done; lia.
Qed.

Lemma popped_frame st stack s live junk :
  frame stack (Stack_data s) (Stack_data s) st (popped st stack s live junk).
Proof.
  split; intros x y Hne Hx; unfold popped; simpl; by rewrite lookup_insert_ne.
Qed.

Lemma peek_spec st stack s live p junk :
  is_stack st stack s (live ++ [p]) junk → peek stack st = Ret p st.
Proof.
  intros (Hn & Hs & Ha & Hsz & Hc & Hm). unfold peek.
  rewrite length_app in Hsz, Hc. simpl in Hsz, Hc. rewrite MAX_SLOTS_val in Hm.
  destruct (Z.eqb_spec stack NULL); [done|].
  rewrite (bind_Ret _ _ _ _ _ (load_Stack_eq _ _ _ Hn Hs)).
  destruct (Z.eqb_spec (Stack_size s) 0); [lia|].
  replace (wrap (Stack_size s - 1)) with (Z.of_nat (length live))
    by (rewrite wrap_small; lia).
  eapply load_slot_eq; [exact Ha|apply lookup_live_middle].
Qed.

(** ** [grow] and [push] *)

Lemma grown_ge c : 0 <= c → c <= grown c.
Proof. unfold grown, STACK_INITIAL_CAPACITY. destruct (Z.eqb_spec c 0); lia. Qed.

Lemma granted_bound n : granted n = true → n <= PTRDIFF_MAX.
Proof. unfold granted. intros [_ H]%andb_true_iff. by apply Z.leb_le. Qed.

Lemma grow_spec st stack s live junk :
  is_stack st stack s live junk →
  granted (grown (Stack_capacity s) * sizeof_ptr) = true →
  grow stack st = Ret tt (grown_state st stack s ((Ptr <$> live) ++ junk)).
Proof.
  intros (Hn & Hs & Ha & Hsz & Hc & Hm) Hg. unfold grow.
  rewrite MAX_SLOTS_val in Hm.
  rewrite (bind_Ret _ _ _ _ _ (load_Stack_eq _ _ _ Hn Hs)).
  assert (Hnew : (if Stack_capacity s =? 0 then STACK_INITIAL_CAPACITY
                  else wrap (Stack_capacity s * 2)) = grown (Stack_capacity s)).
  { unfold grown. destruct (Z.eqb_spec (Stack_capacity s) 0); [done|].
    apply wrap_small. lia. }
  rewrite Hnew.
  pose proof (granted_bound _ Hg) as Hb.
  pose proof (grown_ge (Stack_capacity s)) as Hge.
  unfold PTRDIFF_MAX, sizeof_ptr in *.
  rewrite (wrap_small (grown (Stack_capacity s) * 8)) by lia.
  unfold bind at 1. unfold realloc_array. rewrite Ha, Hg. simpl.
  destruct (Z.eqb_spec (fresh_addr (delete (Stack_data s) (arrays st))) NULL) as [E|_].
  { by apply fresh_addr_not_null in E. }
  unfold store_Stack. destruct (Z.eqb_spec stack NULL); [done|]. simpl. rewrite Hs.
  unfold grown_state, set_structs, set_arrays. simpl. do 3 f_equal.
  rewrite Z.div_mul by done.
  rewrite resize_ge by (rewrite length_app, length_fmap; lia).
  do 2 f_equal. rewrite length_app, length_fmap. lia.
Qed.

Lemma grown_state_is_stack st stack s live junk :
  is_stack st stack s live junk →
  granted (grown (Stack_capacity s) * sizeof_ptr) = true →
  is_stack (grown_state st stack s ((Ptr <$> live) ++ junk)) stack
    (set_data_capacity s (fresh_addr (delete (Stack_data s) (arrays st)))
                       (grown (Stack_capacity s)))
    live
    (junk ++ replicate (Z.to_nat (grown (Stack_capacity s) - Stack_capacity s)) Indet).
Proof.
  intros (Hn & Hs & Ha & Hsz & Hc & Hm) Hg.
  pose proof (granted_bound _ Hg) as Hb.
  pose proof (grown_ge (Stack_capacity s)) as Hge.
  unfold is_stack, grown_state. simpl. rewrite !lookup_insert_eq.
  unfold PTRDIFF_MAX, sizeof_ptr in *. rewrite MAX_SLOTS_val in *.
  rewrite length_app, length_replicate, app_assoc.
  repeat split; try done; lia.
Qed.

Lemma grown_state_frame st stack s buf :
  frame stack (Stack_data s) (fresh_addr (delete (Stack_data s) (arrays st)))
        st (grown_state st stack s buf).
Proof.
  split; intros x y Hne Hx; unfold grown_state; simpl.
  - by rewrite lookup_insert_ne.
  - assert (x ≠ fresh_addr (delete (Stack_data s) (arrays st))).
    { apply (fresh_addr_ne _ _ y). by rewrite lookup_delete_ne. }
    by rewrite lookup_insert_ne, lookup_delete_ne.
Qed.

Lemma push_skip_grow st stack s e :
  stack ≠ NULL → structs st !! stack = Some s →
  Stack_size s ≠ Stack_capacity s →
  push stack e st = push_store stack e st.
Proof.
  intros Hn Hs Hne. unfold push.
  destruct (Z.eqb_spec stack NULL); [done|].
  rewrite (bind_Ret _ _ _ _ _ (load_Stack_eq _ _ _ Hn Hs)).
  destruct (Z.eqb_spec (Stack_size s) (Stack_capacity s)); [done|].
  unfold bind at 1. by unfold ret at 1.
Qed.

Lemma push_do_grow st st1 stack s e :
  stack ≠ NULL → structs st !! stack = Some s →
  Stack_size s = Stack_capacity s →
  grow stack st = Ret tt st1 →
  push stack e st = push_store stack e st1.
Proof.
  intros Hn Hs Heq Hg. unfold push.
  destruct (Z.eqb_spec stack NULL); [done|].
  rewrite (bind_Ret _ _ _ _ _ (load_Stack_eq _ _ _ Hn Hs)).
  destruct (Z.eqb_spec (Stack_size s) (Stack_capacity s)); [|done].
  by rewrite (bind_Ret _ _ _ _ _ Hg).
Qed.

(** [push] when there is a free slot: the buffer stays where it is, the
    copy goes to the first free slot. *)
Lemma push_no_grow st stack s live x junk e p w' :
  is_stack st stack s live (x :: junk) →
  Stack_copy s e (world st) = (p, w') →
  push stack e st
  = Ret tt (mkState (<[stack := set_size s (Stack_size s + 1)]> (structs st))
                    (<[Stack_data s := (Ptr <$> live ++ [p]) ++ junk]> (arrays st))
                    w').
Proof.
  intros (Hn & Hs & Ha & Hsz & Hc & Hm) Hcopy.
  simpl in Hc. rewrite MAX_SLOTS_val in Hm.
  rewrite (push_skip_grow st stack s e Hn Hs) by lia. unfold push_store.
  rewrite (bind_Ret _ _ _ _ _ (load_Stack_eq _ _ _ Hn Hs)).
  unfold bind at 1. unfold call_copy. rewrite Hcopy.
  rewrite Hsz at 1.
  erewrite bind_Ret; [|eapply store_slot_eq; [exact Ha|]].
  2:{ rewrite length_app, length_fmap. simpl. lia. }
  unfold store_Stack. destruct (Z.eqb_spec stack NULL); [done|]. simpl. rewrite Hs.
  unfold set_structs, set_arrays. simpl.
  rewrite wrap_small by lia. do 2 f_equal.
  f_equal.
  rewrite fmap_app, <- app_assoc. simpl.
  rewrite <- (length_fmap Ptr live) at 1. apply list_insert_middle.
Qed.

Lemma push_spec st stack s live junk e p w' :
  is_stack st stack s live junk →
  Stack_copy s e (world st) = (p, w') →
  (junk = [] → granted (grown (Stack_capacity s) * sizeof_ptr) = true) →
  ∃ st' s' junk',
    push stack e st = Ret tt st' ∧
    is_stack st' stack s' (live ++ [p]) junk' ∧
    world st' = w' ∧
    same_funcs s s' ∧
    Stack_capacity s'
    = (if Stack_size s =? Stack_capacity s then grown (Stack_capacity s)
       else Stack_capacity s) ∧
    junk' = match junk with
            | [] => replicate (Z.to_nat (grown (Stack_capacity s) - Stack_capacity s - 1)) Indet
            | _ :: j => j
            end ∧
    (junk ≠ [] → Stack_data s' = Stack_data s) ∧
    frame stack (Stack_data s) (Stack_data s') st st'.
Proof.
  intros Hst Hcopy Hg. destruct junk as [|x junk].
  - (* the buffer is full: grow, then store in the first new slot *)
    specialize (Hg eq_refl).
    pose proof (grow_spec _ _ _ _ _ Hst Hg) as Hgrow.
    pose proof (grown_state_is_stack _ _ _ _ _ Hst Hg) as Hst'.
    pose proof (grown_state_frame st stack s ((Ptr <$> live) ++ [])) as Hfr.
    destruct Hst as (Hn & Hs & Ha & Hsz & Hc & Hm).
    simpl in Hc. rewrite MAX_SLOTS_val in Hm.
    set (st1 := grown_state st stack s ((Ptr <$> live) ++ [])) in *.
    set (s1 := set_data_capacity s _ _) in *.
    assert (Hlt : 0 < grown (Stack_capacity s) - Stack_capacity s).
    { unfold grown, STACK_INITIAL_CAPACITY.
      destruct (Z.eqb_spec (Stack_capacity s) 0); lia. }
    destruct (Z.to_nat (grown (Stack_capacity s) - Stack_capacity s)) as [|k] eqn:Ek; [lia|].
    simpl in Hst'.
    pose proof (push_no_grow st1 stack s1 live Indet (replicate k Indet) e p w' Hst') as Hp.
    assert (Hw : world st1 = world st) by done.
    rewrite Hw in Hp. specialize (Hp Hcopy).
    assert (Hpush : push stack e st = push stack e st1).
    { destruct Hst' as (_ & Hs1 & _ & Hsz1 & Hc1 & _).
      rewrite (push_do_grow st st1 stack s e Hn Hs) by (done || lia).
      rewrite (push_skip_grow st1 stack s1 e Hn Hs1); [done|].
      simpl in *. lia. }
    rewrite Hpush, Hp.
    eexists _, (set_size s1 (Stack_size s1 + 1)), (replicate k Indet).
    split; [done|].
    destruct Hst' as (_ & Hs1 & Ha1 & Hsz1 & Hc1 & Hm1).
    repeat split; simpl; try done.
    + by rewrite lookup_insert_eq.
    + by rewrite lookup_insert_eq.
    + rewrite length_app. simpl. lia.
    + rewrite length_app. simpl in *. lia.
    + destruct (Z.eqb_spec (Stack_size s) (Stack_capacity s)); [done|lia].
    + f_equal. lia.
    + intros h s0 Hne Hh. rewrite lookup_insert_ne by done.
      by apply (proj1 Hfr).
    + by destruct (proj2 Hfr a buf) as [Hne' _].
    + destruct (proj2 Hfr a buf) as [Hne' Hh']; [done..|].
      by rewrite lookup_insert_ne.
  - pose proof (push_no_grow _ _ _ _ _ _ _ _ _ Hst Hcopy) as Hp.
    destruct Hst as (Hn & Hs & Ha & Hsz & Hc & Hm). simpl in Hc.
    eexists _, (set_size s (Stack_size s + 1)), junk.
    split; [exact Hp|].
    repeat split; simpl; try done.
    + by rewrite lookup_insert_eq.
    + by rewrite lookup_insert_eq.
    + rewrite length_app. simpl. lia.
    + rewrite length_app. simpl. lia.
    + destruct (Z.eqb_spec (Stack_size s) (Stack_capacity s)); [lia|done].
    + intros h s0 Hne Hh. by rewrite lookup_insert_ne.
    + by rewrite lookup_insert_ne.
Qed.

(** When the buffer is full and the allocator refuses, [push] exits. *)
Lemma push_exit st stack s live e :
  is_stack st stack s live [] →
  granted (grown (Stack_capacity s) * sizeof_ptr) = false →
  push stack e st = Exit.
Proof.
  intros (Hn & Hs & Ha & Hsz & Hc & Hm) Hg. unfold push.
  simpl in Hc. rewrite MAX_SLOTS_val in Hm.
  destruct (Z.eqb_spec stack NULL); [done|].
  rewrite (bind_Ret _ _ _ _ _ (load_Stack_eq _ _ _ Hn Hs)).
  destruct (Z.eqb_spec (Stack_size s) (Stack_capacity s)); [|lia].
  unfold bind at 1. unfold grow.
  rewrite (bind_Ret _ _ _ _ _ (load_Stack_eq _ _ _ Hn Hs)).
  assert (Hnew : (if Stack_capacity s =? 0 then STACK_INITIAL_CAPACITY
                  else wrap (Stack_capacity s * 2)) = grown (Stack_capacity s)).
  { unfold grown. destruct (Z.eqb_spec (Stack_capacity s) 0); [done|].
    apply wrap_small. lia. }
  rewrite Hnew.
  assert (Hw : wrap (grown (Stack_capacity s) * sizeof_ptr)
               = grown (Stack_capacity s) * sizeof_ptr).
  { apply wrap_small. unfold grown, STACK_INITIAL_CAPACITY, sizeof_ptr.
    destruct (Z.eqb_spec (Stack_capacity s) 0); lia. }
  rewrite Hw. unfold bind at 1. unfold realloc_array. by rewrite Ha, Hg.
Qed.

(** ** Construction *)

Lemma new_stack_spec st cf ff cmpf :
  granted sizeof_Stack = true →
  granted (STACK_INITIAL_CAPACITY * sizeof_ptr) = true →
  new_stack cf ff cmpf st = Ret (fresh_addr (structs st)) (new_state st cf ff cmpf).
Proof.
  intros H1 H2. unfold new_stack. rewrite H1. simpl.
  unfold bind, malloc_array.
  replace (wrap (STACK_INITIAL_CAPACITY * sizeof_ptr))
    with (STACK_INITIAL_CAPACITY * sizeof_ptr) by done.
  rewrite H2.
  destruct (Z.eqb_spec (fresh_addr (arrays st)) NULL) as [E|_].
  { by apply fresh_addr_not_null in E. }
  done.
Qed.

Lemma new_state_is_stack st cf ff cmpf :
  is_stack (new_state st cf ff cmpf) (fresh_addr (structs st))
    (mkStack (fresh_addr (arrays st)) 0 STACK_INITIAL_CAPACITY cf ff cmpf)
    [] (replicate 8 Indet).
Proof.
  unfold is_stack, new_state. simpl. rewrite !lookup_insert_eq.
  repeat split; try done. apply fresh_addr_not_null.
Qed.

(** [new_stack] leaves every existing struct and array as it was. *)
Lemma new_state_keeps st cf ff cmpf :
  (∀ h s, structs st !! h = Some s → structs (new_state st cf ff cmpf) !! h = Some s) ∧
  (∀ a buf, arrays st !! a = Some buf → arrays (new_state st cf ff cmpf) !! a = Some buf).
Proof.
  split; intros x y Hx; unfold new_state; simpl;
    rewrite lookup_insert_ne; try done;
    apply not_eq_sym, (fresh_addr_ne _ _ y Hx).
Qed.

(** ** Sequences of pushes and pops *)

Lemma capacity_after_ge n : ∀ c sz, 0 <= c → c <= capacity_after c sz n.
Proof.
  induction n as [|n IH]; intros c sz Hc; simpl; [lia|].
  pose proof (grown_ge c Hc).
  destruct (sz =? c); (etrans; [|apply IH]); lia.
Qed.

Lemma push_all_spec stack es : ∀ st s live junk ps w',
  is_stack st stack s live junk →
  copy_all (Stack_copy s) es (world st) = (ps, w') →
  (∀ n, 0 <= n <= 64 + 16 * Z.of_nat (length live + length es) →
        granted n = true) →
  ∃ st' s' junk',
    push_all stack es st = Ret tt st' ∧
    is_stack st' stack s' (live ++ ps) junk' ∧
    world st' = w' ∧
    same_funcs s s' ∧
    Stack_capacity s'
    = capacity_after (Stack_capacity s) (Stack_size s) (length es) ∧
    frame stack (Stack_data s) (Stack_data s') st st'.
Proof.
  induction es as [|e es IH]; intros st s live junk ps w' Hst Hc Hg.
  - simpl in *. injection Hc as <- <-. exists st, s, junk.
    rewrite app_nil_r. split_and!; try done; try apply same_funcs_refl; try apply frame_refl.
  - simpl in Hc.
    destruct (Stack_copy s e (world st)) as [p w1] eqn:Hcp.
    destruct (copy_all (Stack_copy s) es w1) as [ps' w2] eqn:Hrest.
    injection Hc as <- <-.
    destruct (push_spec st stack s live junk e p w1 Hst Hcp)
      as (st1 & s1 & junk1 & Hp & Hst1 & Hw1 & Hf1 & Hc1 & _ & _ & Hfr1).
    { intros ->. apply Hg.
      pose proof (is_stack_bounds _ _ _ _ _ Hst) as [Hb1 Hb2].
      destruct Hst as (_ & _ & _ & Hsz & Hcap & _). simpl in Hcap.
      unfold grown, STACK_INITIAL_CAPACITY, sizeof_ptr.
      rewrite length_cons.
      destruct (Z.eqb_spec (Stack_capacity s) 0); lia. }
    destruct (IH st1 s1 (live ++ [p]) junk1 ps' w2 Hst1)
      as (st2 & s2 & junk2 & Hp2 & Hst2 & Hw2 & Hf2 & Hc2 & Hfr2).
    { destruct Hf1 as (-> & _). by rewrite Hw1. }
    { intros n Hn. apply Hg. rewrite length_app, length_cons in *.
      simpl in *. lia. }
    exists st2, s2, junk2. simpl.
    rewrite (bind_Ret _ _ _ _ _ Hp).
    rewrite <- app_assoc in Hst2. simpl in Hst2.
    split_and!; try done.
    + by apply (same_funcs_trans _ s1).
    + rewrite Hc2, Hc1.
      destruct Hst as (_ & _ & _ & Hsz & _), Hst1 as (_ & _ & _ & Hsz1 & _).
      rewrite Hsz1, length_app, Hsz. simpl. do 2 f_equal. lia.
    + by apply (frame_trans _ _ (Stack_data s1) _ _ st1).
Qed.

Lemma pop_n_spec stack ps : ∀ st s base junk,
  is_stack st stack s (base ++ rev ps) junk →
  ∃ st' s',
    pop_n stack (length ps) st = Ret ps st' ∧
    is_stack st' stack s' base (replicate (length ps) (Ptr NULL) ++ junk) ∧
    world st' = world st ∧
    same_funcs s s' ∧
    Stack_capacity s' = Stack_capacity s ∧
    Stack_data s' = Stack_data s ∧
    frame stack (Stack_data s) (Stack_data s') st st'.
Proof.
  induction ps as [|p ps IH]; intros st s base junk Hst.
  - simpl in *. rewrite app_nil_r in Hst. exists st, s.
    split_and!; try done; try apply same_funcs_refl; try apply frame_refl.
  - simpl in Hst. rewrite app_assoc in Hst.
    pose proof (pop_spec _ _ _ _ _ _ Hst) as Hp.
    pose proof (popped_is_stack _ _ _ _ _ _ Hst) as Hst1.
    pose proof (popped_frame st stack s (base ++ rev ps) junk) as Hfr1.
    destruct (IH _ _ _ _ Hst1) as (st2 & s2 & Hp2 & Hst2 & Hw2 & Hf2 & Hc2 & Hd2 & Hfr2).
    exists st2, s2. simpl.
    rewrite (bind_Ret _ _ _ _ _ Hp), (bind_Ret _ _ _ _ _ Hp2).
    replace (Ptr NULL :: replicate (length ps) (Ptr NULL) ++ junk)
      with (replicate (length ps) (Ptr NULL) ++ Ptr NULL :: junk).
    2:{ change (Ptr NULL :: junk) with ([Ptr NULL] ++ junk).
        rewrite app_assoc. f_equal.
        change [Ptr NULL] with (replicate 1 (Ptr NULL)).
        rewrite <- replicate_add. by rewrite Nat.add_1_r. }
    split_and!; try done.
    by apply (frame_trans _ _ (Stack_data s) _ _ (popped st stack s (base ++ rev ps) junk)).
Qed.


(** ** [clear] *)

Lemma lookup_mid_head {A} (pre : list A) (x : A) (post : list A) :
  (pre ++ x :: post) !! length pre = Some x.
Proof. rewrite lookup_app_r by lia. by rewrite Nat.sub_diag. Qed.

Lemma clear_loop d f rest : ∀ pre junk st,
  arrays st !! d = Some (pre ++ (Ptr <$> rest) ++ junk) →
  for_loop (length rest) (Z.of_nat (length pre))
    (fun i => e <- load_slot d i ;; call_free f e) st
  = Ret tt (set_world st (free_all f rest (world st))).
Proof.
  induction rest as [|p rest IH]; intros pre junk st Ha.
  - simpl. unfold ret, set_world. by destruct st.
  - simpl for_loop. simpl in Ha.
    unfold bind at 1. unfold bind at 1.
    rewrite (load_slot_eq st d _ (length pre) p Ha (lookup_mid_head _ _ _)).
    unfold call_free at 1.
    replace (Z.of_nat (length pre) + 1) with (Z.of_nat (length (pre ++ [Ptr p])))
      by (rewrite length_app; simpl; lia).
    rewrite (IH (pre ++ [Ptr p]) junk).
    + done.
    + simpl. by rewrite <- app_assoc.
Qed.

Lemma clear_spec st stack s live junk :
  is_stack st stack s live junk →
  clear stack st = Ret tt (cleared st stack s live).
Proof.
  intros (Hn & Hs & Ha & Hsz & Hc & Hm). unfold clear.
  destruct (Z.eqb_spec stack NULL); [done|].
  rewrite (bind_Ret _ _ _ _ _ (load_Stack_eq _ _ _ Hn Hs)).
  rewrite Hsz, Nat2Z.id.
  erewrite bind_Ret; [|apply (clear_loop _ _ live [] junk); exact Ha].
  erewrite bind_Ret; [|apply load_Stack_eq; [done|exact Hs]].
  by erewrite store_Stack_eq.
Qed.

Lemma cleared_is_stack st stack s live junk :
  is_stack st stack s live junk →
  is_stack (cleared st stack s live) stack (set_size s 0) []
           ((Ptr <$> live) ++ junk).
Proof.
  intros (Hn & Hs & Ha & Hsz & Hc & Hm).
  unfold is_stack, cleared. simpl. rewrite lookup_insert_eq.
  rewrite length_app, length_fmap. split_and!; try done. lia.
Qed.

Lemma cleared_frame st stack s live :
  frame stack (Stack_data s) (Stack_data s) st (cleared st stack s live).
Proof.
  split; intros x y Hne Hx; unfold cleared; simpl; [|done].
  by rewrite lookup_insert_ne.
Qed.

(** ** [contains] *)

Lemma contains_loop_spec s f x rest : ∀ pre junk st,
  Stack_cmp s = Some f →
  arrays st !! Stack_data s = Some (pre ++ (Ptr <$> rest) ++ junk) →
  contains_loop (length rest) s (Z.of_nat (length pre)) x st
  = Ret (existsb (fun p => f p x (world st) =? 0) rest) st.
Proof.
  induction rest as [|p rest IH]; intros pre junk st Hf Ha; [done|].
  simpl contains_loop. simpl in Ha.
  unfold bind at 1.
  rewrite (load_slot_eq st _ _ (length pre) p Ha (lookup_mid_head _ _ _)).
  unfold bind at 1. unfold call_cmp. rewrite Hf. simpl.
  destruct (f p x (world st) =? 0); [done|]. simpl.
  replace (Z.of_nat (length pre) + 1) with (Z.of_nat (length (pre ++ [Ptr p])))
    by (rewrite length_app; simpl; lia).
  apply (IH (pre ++ [Ptr p]) junk); [done|].
  by rewrite <- app_assoc.
Qed.

Lemma contains_spec st stack s live junk f x :
  is_stack st stack s live junk →
  Stack_cmp s = Some f →
  contains stack x st = Ret (existsb (fun p => f p x (world st) =? 0) live) st.
Proof.
  intros (Hn & Hs & Ha & Hsz & Hc & Hm) Hf. unfold contains.
  destruct (Z.eqb_spec stack NULL); [done|].
  rewrite (bind_Ret _ _ _ _ _ (load_Stack_eq _ _ _ Hn Hs)).
  rewrite Hsz, Nat2Z.id.
  by apply (contains_loop_spec s f x live [] junk).
Qed.

(** On an empty stack the comparison function is never called. *)
Lemma contains_empty st stack s junk x :
  is_stack st stack s [] junk → contains stack x st = Ret false st.
Proof.
  intros (Hn & Hs & Ha & Hsz & Hc & Hm). unfold contains.
  destruct (Z.eqb_spec stack NULL); [done|].
  rewrite (bind_Ret _ _ _ _ _ (load_Stack_eq _ _ _ Hn Hs)).
  by rewrite Hsz.
Qed.

(** ** [to_array] *)

Lemma copy_all_length f es : ∀ w ps w',
  copy_all f es w = (ps, w') → length ps = length es.
Proof.
  induction es as [|e es IH]; intros w ps w' H; simpl in H.
  - by injection H as <- <-.
  - destruct (f e w) as [p w1]. destruct (copy_all f es w1) as [ps' w2] eqn:E.
    injection H as <- <-. simpl. f_equal. eauto.
Qed.

Lemma to_array_loop d a f rest : ∀ pre junk done todo st ps w',
  a ≠ d →
  arrays st !! d = Some (pre ++ (Ptr <$> rest) ++ junk) →
  arrays st !! a = Some ((Ptr <$> done) ++ todo) →
  length done = length pre →
  length todo = length rest →
  copy_all f rest (world st) = (ps, w') →
  for_loop (length rest) (Z.of_nat (length pre))
    (fun i => e <- load_slot d i ;; p <- call_copy f e ;; store_slot a i p) st
  = Ret tt (mkState (structs st) (<[a := Ptr <$> (done ++ ps)]> (arrays st)) w').
Proof.
  induction rest as [|e rest IH]; intros pre junk dn todo st ps w' Hne Hd Ha Hl1 Hl2 Hc.
  - simpl in *. injection Hc as <- <-. destruct todo; [|done].
    rewrite !app_nil_r in *. unfold ret. destruct st as [ss aa ww]. simpl in *.
    by rewrite insert_id.
  - simpl in Hc. destruct (f e (world st)) as [p w1] eqn:Hp.
    destruct (copy_all f rest w1) as [ps' w2] eqn:Hrest.
    injection Hc as <- <-.
    destruct todo as [|t todo]; [done|].
    simpl for_loop. simpl in Hd.
    unfold bind at 1. unfold bind at 1.
    rewrite (load_slot_eq st d _ (length pre) e Hd (lookup_mid_head _ _ _)).
    unfold bind at 1. unfold call_copy. rewrite Hp.
    erewrite store_slot_eq; [| simpl; exact Ha |].
    2:{ rewrite length_app, length_fmap. simpl. lia. }
    replace (Z.of_nat (length pre) + 1) with (Z.of_nat (length (pre ++ [Ptr e])))
      by (rewrite length_app; simpl; lia).
    erewrite (IH (pre ++ [Ptr e]) junk (dn ++ [p]) todo); simpl.
    + rewrite insert_insert_eq, <- app_assoc. done.
    + done.
    + rewrite lookup_insert_ne by done. by rewrite <- app_assoc.
    + rewrite lookup_insert_eq. f_equal.
      rewrite fmap_app, <- app_assoc. simpl.
      rewrite <- Hl1, <- (length_fmap Ptr dn). apply list_insert_middle.
    + rewrite !length_app. simpl. lia.
    + simpl in Hl2. lia.
    + exact Hrest.
Qed.

Lemma to_array_empty st stack s junk out_size :
  is_stack st stack s [] junk →
  to_array stack out_size st = Ret (NULL, if out_size then Some 0 else None) st.
Proof.
  intros (Hn & Hs & Ha & Hsz & Hc & Hm). unfold to_array.
  rewrite (bind_Ret _ _ _ _ _ (load_Stack_eq _ _ _ Hn Hs)).
  by rewrite Hsz.
Qed.

Lemma to_array_spec st stack s live junk out_size ps w' :
  is_stack st stack s live junk →
  live ≠ [] →
  granted (Z.of_nat (length live) * sizeof_ptr) = true →
  copy_all (Stack_copy s) live (world st) = (ps, w') →
  to_array stack out_size st
  = Ret (fresh_addr (arrays st),
         if out_size then Some (Z.of_nat (length live)) else None)
        (mkState (structs st)
                 (<[fresh_addr (arrays st) := Ptr <$> ps]> (arrays st)) w').
Proof.
  intros (Hn & Hs & Ha & Hsz & Hc & Hm) Hne Hg Hcp. unfold to_array.
  rewrite MAX_SLOTS_val in Hm.
  rewrite (bind_Ret _ _ _ _ _ (load_Stack_eq _ _ _ Hn Hs)).
  destruct (Z.eqb_spec (Stack_size s) 0) as [E|_].
  { destruct live; [done|]. simpl in *. lia. }
  rewrite Hsz. unfold sizeof_ptr in *.
  rewrite wrap_small by lia.
  unfold bind at 1. unfold malloc_array. rewrite Hg.
  destruct (Z.eqb_spec (fresh_addr (arrays st)) NULL) as [E|_].
  { by apply fresh_addr_not_null in E. }
  rewrite Nat2Z.id. unfold sizeof_ptr. rewrite Z.div_mul by done. rewrite Nat2Z.id.
  set (st1 := set_arrays st _).
  pose proof (copy_all_length _ _ _ _ _ Hcp) as Hlen.
  erewrite bind_Ret.
  2:{ apply (to_array_loop (Stack_data s) (fresh_addr (arrays st)) (Stack_copy s)
               live [] junk [] (replicate (length live) Indet) st1 ps w').
      - apply not_eq_sym, (fresh_addr_ne _ _ _ Ha).
      - subst st1. simpl. rewrite lookup_insert_ne; [exact Ha|].
        apply not_eq_sym, (fresh_addr_ne _ _ _ Ha).
      - subst st1. simpl. by rewrite lookup_insert_eq.
      - done.
      - by rewrite length_replicate.
      - exact Hcp. }
  unfold ret. subst st1. simpl. by rewrite insert_insert_eq.
Qed.

Lemma to_array_exit st stack s live junk out_size :
  is_stack st stack s live junk →
  live ≠ [] →
  granted (Z.of_nat (length live) * sizeof_ptr) = false →
  to_array stack out_size st = Exit.
Proof.
  intros (Hn & Hs & Ha & Hsz & Hc & Hm) Hne Hg. unfold to_array.
  rewrite MAX_SLOTS_val in Hm.
  rewrite (bind_Ret _ _ _ _ _ (load_Stack_eq _ _ _ Hn Hs)).
  destruct (Z.eqb_spec (Stack_size s) 0) as [E|_].
  { destruct live; [done|]. simpl in *. lia. }
  rewrite Hsz. unfold sizeof_ptr in *.
  rewrite wrap_small by lia.
  unfold bind at 1. unfold malloc_array. by rewrite Hg.
Qed.

(** ** [reverse] *)

Lemma set_arrays_id st d buf :
  arrays st !! d = Some buf → set_arrays st (<[d := buf]> (arrays st)) = st.
Proof. intros H. destruct st. unfold set_arrays. simpl in *. by rewrite insert_id. Qed.

(** The loop of [reverse] on the segment [mid] between [left] and [right]:
    the segment ends up reversed, its surroundings are untouched. *)
Lemma reverse_loop_spec stack s fuel : ∀ pre mid post st,
  stack ≠ NULL →
  structs st !! stack = Some s →
  arrays st !! Stack_data s = Some (pre ++ (Ptr <$> mid) ++ post) →
  (0 < length pre + length mid)%nat →
  Z.of_nat (length pre + length mid) < 2 ^ 64 →
  (length mid < 2 * fuel)%nat →
  reverse_loop fuel stack (Z.of_nat (length pre))
               (Z.of_nat (length pre + length mid) - 1) st
  = Ret tt (set_arrays st (<[Stack_data s := pre ++ (Ptr <$> rev mid) ++ post]>
                             (arrays st))).
Proof.
  induction fuel as [|fuel IH]; intros pre mid post st Hn Hs Ha Hpos Hlt Hfuel; [lia|].
  simpl reverse_loop.
  destruct mid as [|x mid].
  { (* empty segment: left = right + 1 *)
    destruct (Z.ltb_spec (Z.of_nat (length pre))
                (Z.of_nat (length pre + length (@nil Z)) - 1)) as [H|_].
    { simpl in H. lia. }
    unfold ret. by rewrite set_arrays_id. }
  destruct (decide (mid = [])) as [->|Hmid].
  { (* one element: left = right *)
    destruct (Z.ltb_spec (Z.of_nat (length pre))
                (Z.of_nat (length pre + length [x]) - 1)) as [H|_].
    { simpl in H. lia. }
    unfold ret. by rewrite set_arrays_id. }
  destruct (exists_last Hmid) as (mid' & y & ->).
  rewrite length_cons, length_app in *. simpl in Hpos, Hlt, Hfuel.
  destruct (Z.ltb_spec (Z.of_nat (length pre))
              (Z.of_nat (length pre + S (length mid' + length [y])) - 1)) as [_|H].
  2:{ simpl in H. lia. }
  simpl length.
  rewrite (bind_Ret _ _ _ _ _ (load_Stack_eq _ _ _ Hn Hs)).
  assert (Hbuf : pre ++ (Ptr <$> x :: mid' ++ [y]) ++ post
                 = pre ++ Ptr x :: ((Ptr <$> mid') ++ Ptr y :: post)).
  { rewrite fmap_cons, fmap_app. simpl. by rewrite <- app_assoc. }
  rewrite Hbuf in Ha.
  erewrite bind_Ret; [|eapply load_slot_eq; [exact Ha|apply lookup_mid_head]].
  assert (Hr : Z.of_nat (length pre + S (length mid' + 1)) - 1
               = Z.of_nat (length (pre ++ Ptr x :: (Ptr <$> mid')))).
  { rewrite length_app, length_cons, length_fmap. lia. }
  rewrite Hr.
  erewrite bind_Ret.
  2:{ eapply load_slot_eq; [exact Ha|].
      replace (pre ++ Ptr x :: (Ptr <$> mid') ++ Ptr y :: post)
        with ((pre ++ Ptr x :: (Ptr <$> mid')) ++ Ptr y :: post)
        by (by rewrite <- app_assoc).
      apply lookup_mid_head. }
  erewrite bind_Ret; [|eapply store_slot_eq; [exact Ha|]].
  2:{ rewrite length_app. simpl. lia. }
  rewrite list_insert_middle.
  set (st1 := set_arrays st _).
  assert (Ha1 : arrays st1 !! Stack_data s
                = Some ((pre ++ Ptr y :: (Ptr <$> mid')) ++ Ptr y :: post)).
  { subst st1. simpl. rewrite lookup_insert_eq. by rewrite <- app_assoc. }
  erewrite bind_Ret; [|eapply store_slot_eq; [|]].
  2:{ replace (length (pre ++ Ptr x :: (Ptr <$> mid')))
        with (length (pre ++ Ptr y :: (Ptr <$> mid')))
        by (rewrite !length_app; done).
      exact Ha1. }
  2:{ rewrite !length_app. simpl. lia. }
  replace (length (pre ++ Ptr x :: (Ptr <$> mid')))
    with (length (pre ++ Ptr y :: (Ptr <$> mid')))
    by (rewrite !length_app; done).
  rewrite list_insert_middle.
  set (st2 := set_arrays st1 _).
  rewrite (wrap_small (Z.of_nat (length pre) + 1)) by lia.
  rewrite (wrap_small (Z.of_nat (length (pre ++ Ptr y :: (Ptr <$> mid'))) - 1)).
  2:{ rewrite length_app, length_cons, length_fmap. lia. }
  replace (Z.of_nat (length pre) + 1) with (Z.of_nat (length (pre ++ [Ptr y])))
    by (rewrite length_app; simpl; lia).
  replace (Z.of_nat (length (pre ++ Ptr y :: (Ptr <$> mid'))) - 1)
    with (Z.of_nat (length (pre ++ [Ptr y]) + length mid') - 1).
  2:{ rewrite !length_app. simpl. rewrite length_fmap. lia. }
  rewrite (IH (pre ++ [Ptr y]) mid' (Ptr x :: post) st2).
  - subst st2 st1. unfold set_arrays. cbn [arrays structs world].
    rewrite !insert_insert_eq. do 3 f_equal.
    assert (Hrev : rev (x :: mid' ++ [y]) = y :: rev mid' ++ [x]).
    { simpl. by rewrite rev_app_distr. }
    rewrite Hrev, fmap_cons, fmap_app. simpl. by rewrite <- !app_assoc.
  - done.
  - done.
  - subst st2. simpl. rewrite lookup_insert_eq. f_equal.
    by rewrite <- !app_assoc.
  - rewrite length_app. simpl. lia.
  - rewrite length_app. simpl. lia.
  - lia.
Qed.

Lemma reverse_empty st stack s junk :
  is_stack st stack s [] junk → reverse stack st = Ret tt st.
Proof.
  intros (Hn & Hs & Ha & Hsz & Hc & Hm). unfold reverse.
  rewrite (bind_Ret _ _ _ _ _ (load_Stack_eq _ _ _ Hn Hs)).
  by rewrite Hsz.
Qed.

Lemma reverse_spec st stack s live junk :
  is_stack st stack s live junk →
  reverse stack st
  = Ret tt (set_arrays st (<[Stack_data s := (Ptr <$> rev live) ++ junk]> (arrays st))).
Proof.
  intros Hst. destruct (decide (live = [])) as [->|Hne].
  { rewrite (reverse_empty _ _ _ _ Hst).
    destruct Hst as (Hn & Hs & Ha & _). by rewrite set_arrays_id. }
  destruct Hst as (Hn & Hs & Ha & Hsz & Hc & Hm). unfold reverse.
  rewrite MAX_SLOTS_val in Hm.
  rewrite (bind_Ret _ _ _ _ _ (load_Stack_eq _ _ _ Hn Hs)).
  assert (0 < length live)%nat by (destruct live; [done|simpl; lia]).
  destruct (Z.eqb_spec (Stack_size s) 0); [lia|].
  rewrite wrap_small by lia. rewrite Hsz, Nat2Z.id.
  apply (reverse_loop_spec stack s (length live) [] live junk st); simpl;
    try done; lia.
Qed.

Lemma reversed_is_stack st stack s live junk :
  is_stack st stack s live junk →
  is_stack (set_arrays st (<[Stack_data s := (Ptr <$> rev live) ++ junk]> (arrays st)))
           stack s (rev live) junk.
Proof.
  intros (Hn & Hs & Ha & Hsz & Hc & Hm).
  unfold is_stack. simpl. rewrite lookup_insert_eq, length_rev. by split_and!.
Qed.

Lemma reversed_frame st stack s buf :
  frame stack (Stack_data s) (Stack_data s) st
        (set_arrays st (<[Stack_data s := buf]> (arrays st))).
Proof.
  split; intros x y Hne Hx; simpl; [done|]. by rewrite lookup_insert_ne.
Qed.

(** ** [clone] *)

Lemma is_stack_frame st st' h s live junk c d d' :
  is_stack st h s live junk →
  frame c d d' st st' →
  h ≠ c → Stack_data s ≠ d →
  is_stack st' h s live junk ∧ Stack_data s ≠ d'.
Proof.
  intros (Hn & Hs & Ha & Hsz & Hc & Hm) [Fs Fa] Hne Hd.
  destruct (Fa _ _ Hd Ha) as [Hd' Ha'].
  split; [|done]. unfold is_stack. split_and!; try done. by apply Fs.
Qed.

Lemma is_stack_keeps st st' h s live junk d' :
  is_stack st h s live junk → keeps st st' d' →
  is_stack st' h s live junk ∧ Stack_data s ≠ d'.
Proof.
  intros (Hn & Hs & Ha & Hsz & Hc & Hm) [Ks Ka].
  destruct (Ka _ _ Ha) as [Hd' Ha'].
  split; [|done]. unfold is_stack. split_and!; try done. by apply Ks.
Qed.

Lemma clone_loop stack c s rest : ∀ pre junk st sc livec junkc ps w',
  is_stack st stack s (pre ++ rest) junk →
  is_stack st c sc livec junkc →
  c ≠ stack → Stack_data s ≠ Stack_data sc →
  copy_all (Stack_copy sc) rest (world st) = (ps, w') →
  (∀ n, 0 <= n <= 64 + 16 * Z.of_nat (length livec + length rest) →
        granted n = true) →
  ∃ st' sc' junkc',
    for_loop (length rest) (Z.of_nat (length pre))
      (fun i => s <- load_Stack stack ;;
                e <- load_slot (Stack_data s) i ;;
                push c e) st
    = Ret tt st' ∧
    is_stack st' stack s (pre ++ rest) junk ∧
    is_stack st' c sc' (livec ++ ps) junkc' ∧
    world st' = w' ∧
    same_funcs sc sc' ∧
    Stack_capacity sc'
    = capacity_after (Stack_capacity sc) (Stack_size sc) (length rest) ∧
    frame c (Stack_data sc) (Stack_data sc') st st'.
Proof.
  induction rest as [|e rest IH];
    intros pre junk st sc livec junkc ps w' Hst Hsc Hne Hd Hcp Hg.
  - simpl in *. injection Hcp as <- <-. exists st, sc, junkc.
    rewrite !app_nil_r in *.
    split_and!; try done; try apply same_funcs_refl; try apply frame_refl.
  - simpl in Hcp.
    destruct (Stack_copy sc e (world st)) as [p w1] eqn:Hp.
    destruct (copy_all (Stack_copy sc) rest w1) as [ps' w2] eqn:Hrest.
    injection Hcp as <- <-.
    destruct (push_spec st c sc livec junkc e p w1 Hsc Hp)
      as (st1 & sc1 & junk1 & Hpush & Hsc1 & Hw1 & Hf1 & Hc1 & _ & _ & Hfr1).
    { intros ->. apply Hg.
      pose proof (is_stack_bounds _ _ _ _ _ Hsc) as [Hb1 Hb2].
      destruct Hsc as (_ & _ & _ & Hsz & Hcap & _). simpl in Hcap.
      unfold grown, STACK_INITIAL_CAPACITY, sizeof_ptr.
      rewrite length_cons.
      destruct (Z.eqb_spec (Stack_capacity sc) 0); lia. }
    destruct (is_stack_frame _ _ _ _ _ _ _ _ _ Hst Hfr1 (not_eq_sym Hne) Hd)
      as [Hst1 Hd1].
    assert (Hst1' : is_stack st1 stack s ((pre ++ [e]) ++ rest) junk)
      by (by rewrite <- app_assoc).
    destruct (IH (pre ++ [e]) junk st1 sc1 (livec ++ [p]) junk1 ps' w2
                 Hst1' Hsc1 Hne Hd1)
      as (st2 & sc2 & junk2 & Hloop & Hst2 & Hsc2 & Hw2 & Hf2 & Hc2 & Hfr2).
    { destruct Hf1 as (-> & _). by rewrite Hw1. }
    { intros n Hn. apply Hg. rewrite length_app, length_cons in *.
      simpl in *. lia. }
    exists st2, sc2, junk2.
    rewrite <- app_assoc in Hst2, Hsc2. simpl in Hst2, Hsc2.
    split_and!; try done.
    + simpl for_loop.
      destruct Hst as (Hn & Hs & Ha & _).
      unfold bind at 1.
      rewrite (bind_Ret _ _ _ _ _ (load_Stack_eq _ _ _ Hn Hs)).
      erewrite bind_Ret.
      2:{ eapply load_slot_eq; [exact Ha|].
          rewrite fmap_app, <- app_assoc. simpl.
          rewrite <- (length_fmap Ptr pre). apply lookup_mid_head. }
      rewrite Hpush.
      replace (Z.of_nat (length pre) + 1) with (Z.of_nat (length (pre ++ [e])))
        by (rewrite length_app; simpl; lia).
      exact Hloop.
    + by apply (same_funcs_trans _ sc1).
    + rewrite Hc2, Hc1.
      destruct Hsc as (_ & _ & _ & Hsz & _), Hsc1 as (_ & _ & _ & Hsz1 & _).
      rewrite Hsz1, length_app, Hsz. simpl. do 2 f_equal. lia.
    + by apply (frame_trans _ _ (Stack_data sc1) _ _ st1).
Qed.

Lemma clone_spec st stack s live junk ps w' :
  is_stack st stack s live junk →
  copy_all (Stack_copy s) live (world st) = (ps, w') →
  (∀ n, 0 <= n <= 64 + 16 * Z.of_nat (length live) → granted n = true) →
  ∃ st' sc junkc,
    clone stack st = Ret (fresh_addr (structs st)) st' ∧
    is_stack st' (fresh_addr (structs st)) sc ps junkc ∧
    world st' = w' ∧
    same_funcs s sc ∧
    Stack_capacity sc
    = capacity_after STACK_INITIAL_CAPACITY 0 (length live) ∧
    keeps st st' (Stack_data sc).
Proof.
  intros Hst Hcp Hg.
  assert (G1 : granted sizeof_Stack = true) by (apply Hg; unfold sizeof_Stack; lia).
  assert (G2 : granted (STACK_INITIAL_CAPACITY * sizeof_ptr) = true).
  { apply Hg. unfold STACK_INITIAL_CAPACITY, sizeof_ptr. lia. }
  pose proof (new_stack_spec st (Stack_copy s) (Stack_free_func s) (Stack_cmp s) G1 G2)
    as Hnew.
  pose proof (new_state_is_stack st (Stack_copy s) (Stack_free_func s) (Stack_cmp s))
    as Hc0.
  pose proof (new_state_keeps st (Stack_copy s) (Stack_free_func s) (Stack_cmp s))
    as [Ks Ka].
  set (st0 := new_state st _ _ _) in *.
  set (c := fresh_addr (structs st)) in *.
  set (s0 := mkStack _ _ _ _ _ _) in *.
  pose proof Hst as (Hn & Hs & Ha & _).
  assert (Hcne : c ≠ stack) by (apply not_eq_sym, (fresh_addr_ne _ _ _ Hs)).
  assert (Hdne : Stack_data s ≠ Stack_data s0) by (apply (fresh_addr_ne _ _ _ Ha)).
  assert (Hst0 : is_stack st0 stack s ([] ++ live) junk).
  { destruct Hst as (? & ? & ? & ? & ? & ?). unfold is_stack.
    split_and!; try done; [by apply Ks|by apply Ka]. }
  destruct (clone_loop stack c s live [] junk st0 s0 [] (replicate 8 Indet) ps w'
              Hst0 Hc0 Hcne Hdne)
    as (st1 & sc & junkc & Hloop & Hst1 & Hsc & Hw & Hf & Hcap & Hfr); [done|done|].
  exists st1, sc, junkc. split_and!; try done.
  - unfold clone. destruct (Z.eqb_spec stack NULL); [done|].
    rewrite (bind_Ret _ _ _ _ _ (load_Stack_eq _ _ _ Hn Hs)).
    rewrite (bind_Ret _ _ _ _ _ Hnew).
    destruct Hst as (_ & _ & _ & Hsz & _). rewrite Hsz, Nat2Z.id.
    simpl in Hloop. by rewrite (bind_Ret _ _ _ _ _ Hloop).
  - destruct Hfr as [Fs Fa]. split.
    + intros h x Hh. apply Fs; [|by apply Ks].
      apply (fresh_addr_ne _ _ _ Hh).
    + intros a buf Hh. apply Fa; [|by apply Ka].
      apply (fresh_addr_ne _ _ _ Hh).
Qed.

(** ** Calls on a null handle *)

Lemma push_NULL e st : push NULL e st = Ret tt st.
Proof. done. Qed.

Lemma pop_NULL st : pop NULL st = Ret NULL st.
Proof. done. Qed.

Lemma peek_NULL st : peek NULL st = Ret NULL st.
Proof. done. Qed.

Lemma clear_NULL st : clear NULL st = Ret tt st.
Proof. done. Qed.

Lemma is_empty_NULL st : is_empty NULL st = Ret true st.
Proof. done. Qed.

Lemma size_NULL st : size NULL st = Ret 0 st.
Proof. done. Qed.

Lemma capacity_NULL st : capacity NULL st = Ret 0 st.
Proof. done. Qed.

Lemma contains_NULL e st : contains NULL e st = Ret false st.
Proof. done. Qed.

Lemma clone_NULL st : clone NULL st = Ret NULL st.
Proof. done. Qed.

Lemma free_stack_NULL st : free_stack NULL st = Ret tt st.
Proof. done. Qed.

(** ** Postconditions that allow for a refused allocation *)

Lemma post_bind {A B} (c : M A) (k : A → M B) st (Q : A → state → Prop)
    (R : B → state → Prop) :
  post (c st) Q →
  (∀ a st', Q a st' → post (k a st') R) →
  post (bind c k st) R.
Proof.
  unfold bind, post at 1. destruct (c st); try done. intros HQ Hk. by apply Hk.
Qed.

Lemma post_mono {A} (o : outcome state A) (Q R : A → state → Prop) :
  post o Q → (∀ a st, Q a st → R a st) → post o R.
Proof. destruct o; simpl; auto. Qed.

Lemma push_post st stack s live junk e :
  is_stack st stack s live junk →
  post (push stack e st) (fun _ st' =>
    ∃ s' junk',
      is_stack st' stack s' (live ++ [(Stack_copy s e (world st)).1]) junk' ∧
      world st' = (Stack_copy s e (world st)).2 ∧
      same_funcs s s' ∧
      Stack_capacity s <= Stack_capacity s' ∧
      (∀ x, x ∈ junk' → x = Indet ∨ x ∈ junk) ∧
      frame stack (Stack_data s) (Stack_data s') st st').
Proof.
  intros Hst.
  destruct (Stack_copy s e (world st)) as [p w'] eqn:Hcp. simpl.
  assert (Hor : junk ≠ [] ∨ junk = []) by (destruct junk; auto).
  destruct Hor as [Hj | ->].
  - destruct (push_spec st stack s live junk e p w' Hst Hcp)
      as (st' & s' & junk' & -> & Hst' & Hw & Hf & Hc & Hj' & _ & Hfr); [done|].
    simpl. exists s', junk'. split_and!; try done.
    + rewrite Hc. destruct (Stack_size s =? Stack_capacity s); [|lia].
      apply grown_ge. destruct (is_stack_bounds _ _ _ _ _ Hst). lia.
    + intros x Hx. right. destruct junk as [|y junk]; [done|].
      subst junk'. by apply list_elem_of_further.
  - destruct (granted (grown (Stack_capacity s) * sizeof_ptr)) eqn:Hg.
    + destruct (push_spec st stack s live [] e p w' Hst Hcp)
        as (st' & s' & junk' & -> & Hst' & Hw & Hf & Hc & Hj' & _ & Hfr); [done|].
      simpl. exists s', junk'. split_and!; try done.
      * rewrite Hc. destruct (Stack_size s =? Stack_capacity s); [|lia].
        apply grown_ge. destruct (is_stack_bounds _ _ _ _ _ Hst). lia.
      * intros x Hx. left. subst junk'. by apply elem_of_replicate in Hx as [-> _].
    + by rewrite (push_exit _ _ _ _ _ Hst Hg).
Qed.

Lemma new_stack_post st cf ff cmpf :
  post (new_stack cf ff cmpf st) (fun h st' =>
    h = fresh_addr (structs st) ∧ st' = new_state st cf ff cmpf).
Proof.
  destruct (granted sizeof_Stack) eqn:G1.
  - destruct (granted (STACK_INITIAL_CAPACITY * sizeof_ptr)) eqn:G2.
    + by rewrite new_stack_spec.
    + unfold new_stack. rewrite G1. simpl. unfold bind, malloc_array.
      replace (wrap (STACK_INITIAL_CAPACITY * sizeof_ptr))
        with (STACK_INITIAL_CAPACITY * sizeof_ptr) by done.
      by rewrite G2.
  - unfold new_stack. by rewrite G1.
Qed.

Lemma clone_loop_post stack c s rest : ∀ pre junk st sc livec junkc,
  is_stack st stack s (pre ++ rest) junk →
  is_stack st c sc livec junkc →
  c ≠ stack → Stack_data s ≠ Stack_data sc →
  post (for_loop (length rest) (Z.of_nat (length pre))
          (fun i => s <- load_Stack stack ;;
                    e <- load_slot (Stack_data s) i ;;
                    push c e) st)
       (fun _ st' => is_stack st' stack s (pre ++ rest) junk).
Proof.
  induction rest as [|e rest IH]; intros pre junk st sc livec junkc Hst Hsc Hne Hd.
  - done.
  - simpl for_loop. eapply post_bind.
    + pose proof Hst as (Hn & Hs & Ha & _).
      rewrite (bind_Ret _ _ _ _ _ (load_Stack_eq _ _ _ Hn Hs)).
      erewrite bind_Ret.
      2:{ eapply load_slot_eq; [exact Ha|].
          rewrite fmap_app, <- app_assoc. simpl.
          rewrite <- (length_fmap Ptr pre). apply lookup_mid_head. }
      apply (push_post _ _ _ _ _ e Hsc).
    + intros _ st1 (sc1 & junk1 & Hsc1 & _ & _ & _ & _ & Hfr1).
      destruct (is_stack_frame _ _ _ _ _ _ _ _ _ Hst Hfr1 (not_eq_sym Hne) Hd)
        as [Hst1 Hd1].
      replace (Z.of_nat (length pre) + 1) with (Z.of_nat (length (pre ++ [e])))
        by (rewrite length_app; simpl; lia).
      replace (pre ++ e :: rest) with ((pre ++ [e]) ++ rest) in *
        by (by rewrite <- app_assoc).
      eapply (IH (pre ++ [e]) junk st1 sc1); eauto.
Qed.

Lemma clone_post st stack s live junk :
  is_stack st stack s live junk →
  post (clone stack st) (fun _ st' => is_stack st' stack s live junk).
Proof.
  intros Hst. pose proof Hst as (Hn & Hs & Ha & Hsz & _).
  unfold clone. destruct (Z.eqb_spec stack NULL); [done|].
  rewrite (bind_Ret _ _ _ _ _ (load_Stack_eq _ _ _ Hn Hs)).
  eapply post_bind; [apply new_stack_post|].
  intros c st0 [-> ->].
  pose proof (new_state_is_stack st (Stack_copy s) (Stack_free_func s) (Stack_cmp s))
    as Hc0.
  pose proof (new_state_keeps st (Stack_copy s) (Stack_free_func s) (Stack_cmp s))
    as Hk.
  destruct (is_stack_keeps st
              (new_state st (Stack_copy s) (Stack_free_func s) (Stack_cmp s))
              _ _ _ _ (fresh_addr (arrays st)) Hst) as [Hst0 Hd].
  { destruct Hk as [Ks Ka]. split; [done|]. intros a buf Hh. split; [|by apply Ka].
    apply (fresh_addr_ne _ _ _ Hh). }
  eapply post_bind.
  - rewrite Hsz, Nat2Z.id.
    eapply (clone_loop_post stack _ s live [] junk); eauto.
    apply not_eq_sym, (fresh_addr_ne _ _ _ Hs).
  - intros a st1 H. exact H.
Qed.

Lemma to_array_post st stack s live junk out_size :
  is_stack st stack s live junk →
  post (to_array stack out_size st) (fun _ st' => is_stack st' stack s live junk).
Proof.
  intros Hst. destruct (decide (live = [])) as [->|Hne].
  { by rewrite (to_array_empty _ _ _ _ _ Hst). }
  destruct (granted (Z.of_nat (length live) * sizeof_ptr)) eqn:Hg.
  - destruct (copy_all (Stack_copy s) live (world st)) as [ps w'] eqn:Hcp.
    rewrite (to_array_spec _ _ _ _ _ _ _ _ Hst Hne Hg Hcp). simpl.
    destruct Hst as (Hn & Hs & Ha & Hsz & Hc & Hm).
    unfold is_stack. simpl. split_and!; try done.
    rewrite lookup_insert_ne; [done|]. apply not_eq_sym, (fresh_addr_ne _ _ _ Ha).
  - by rewrite (to_array_exit _ _ _ _ _ _ Hst Hne Hg).
Qed.

(** ** Every call keeps the representation *)

Lemma Forall_rev_1 {A} (P : A → Prop) (l : list A) : Forall P l → Forall P (rev l).
Proof.
  rewrite !Forall_forall. intros H x Hx. apply H.
  apply list_elem_of_In. apply in_rev. by apply list_elem_of_In.
Qed.

Lemma run_call_post (P : Z → Prop) (Q : slot → Prop) st stack s live junk c :
  is_stack st stack s live junk →
  call_ok s live c →
  (∀ e w, P (Stack_copy s e w).1) →
  Q Indet → Q (Ptr NULL) →
  Forall P live →
  Forall Q junk →
  post (run_call stack c st) (fun _ st' =>
    ∃ s' live' junk',
      is_stack st' stack s' live' junk' ∧
      same_funcs s s' ∧
      Stack_capacity s <= Stack_capacity s' ∧
      Forall P live' ∧
      (c ≠ Clear → Forall Q junk')).
Proof.
  intros Hst Hok HP HQ1 HQ2 Hlive Hjunk.
  assert (Hsame : ∀ st', is_stack st' stack s live junk →
            ∃ s' live' junk', is_stack st' stack s' live' junk' ∧
              same_funcs s s' ∧ Stack_capacity s <= Stack_capacity s' ∧
              Forall P live' ∧ (c ≠ Clear → Forall Q junk')).
  { intros st' H. exists s, live, junk. split_and!; done. }
  destruct c as [e| | | | | | |e| | |o]; simpl.
  - (* push *)
    eapply post_mono; [apply (push_post _ _ _ _ _ e Hst)|].
    intros _ st' (s' & junk' & Hst' & _ & Hf & Hc & Hj & _).
    eexists s', _, junk'. split_and!; try done.
    + apply Forall_app. split; [done|]. apply Forall_singleton. apply HP.
    + intros _. rewrite Forall_forall in Hjunk. apply Forall_forall.
      intros x Hx. destruct (Hj x Hx) as [->|Hin]; [done|by apply Hjunk].
  - (* pop *)
    destruct (decide (live = [])) as [->|Hne].
    + rewrite (bind_Ret _ _ _ _ _ (pop_empty _ _ _ _ Hst)). by apply Hsame.
    + destruct (exists_last Hne) as (live' & p & ->).
      rewrite (bind_Ret _ _ _ _ _ (pop_spec _ _ _ _ _ _ Hst)). simpl.
      exists (set_size s (Z.of_nat (length live'))), live', (Ptr NULL :: junk).
      split_and!; try done.
      * by apply (popped_is_stack _ _ _ _ p).
      * apply Forall_app in Hlive. tauto.
      * intros _. by apply Forall_cons.
  - (* peek *)
    destruct (decide (live = [])) as [->|Hne].
    + rewrite (bind_Ret _ _ _ _ _ (peek_empty _ _ _ _ Hst)). by apply Hsame.
    + destruct (exists_last Hne) as (live' & p & ->).
      rewrite (bind_Ret _ _ _ _ _ (peek_spec _ _ _ _ _ _ Hst)). by apply Hsame.
  - (* clear *)
    rewrite (clear_spec _ _ _ _ _ Hst). simpl.
    exists (set_size s 0), [], ((Ptr <$> live) ++ junk).
    split_and!; try done. by apply cleared_is_stack.
  - (* is_empty *)
    rewrite (bind_Ret _ _ _ _ _ (is_empty_spec _ _ _ _ _ Hst)). by apply Hsame.
  - (* size *)
    rewrite (bind_Ret _ _ _ _ _ (size_spec _ _ _ _ _ Hst)). by apply Hsame.
  - (* capacity *)
    rewrite (bind_Ret _ _ _ _ _ (capacity_spec _ _ _ _ _ Hst)). by apply Hsame.
  - (* contains *)
    simpl in Hok. destruct (decide (live = [])) as [->|Hne].
    + rewrite (bind_Ret _ _ _ _ _ (contains_empty _ _ _ _ _ Hst)). by apply Hsame.
    + destruct Hok as [?|Hcmp]; [done|].
      destruct (Stack_cmp s) as [f|] eqn:Hf; [|done].
      rewrite (bind_Ret _ _ _ _ _ (contains_spec _ _ _ _ _ _ e Hst Hf)).
      by apply Hsame.
  - (* clone *)
    eapply post_bind; [apply (clone_post _ _ _ _ _ Hst)|].
    intros a st' H. by apply Hsame.
  - (* reverse *)
    rewrite (reverse_spec _ _ _ _ _ Hst). simpl.
    exists s, (rev live), junk.
    split_and!; [by apply reversed_is_stack|done|lia|by apply Forall_rev_1|done].
  - (* to_array *)
    eapply post_bind; [apply (to_array_post _ _ _ _ _ _ Hst)|].
    intros a st' H. by apply Hsame.
Qed.

Lemma NoDup_rev_1 {A} (l : list A) : NoDup l → NoDup (rev l).
Proof. intros H. by rewrite <- Permutation_rev. Qed.

(** ** Copies under the contract of the copy function *)

Section Contract.

Context {V : Type} (allocated : W → Z → Prop) (val : W → Z → V).

Lemma copy_all_contract f es : ∀ w ps w',
  copy_contract allocated val f →
  Forall (allocated w) es →
  copy_all f es w = (ps, w') →
  val w' <$> ps = val w <$> es ∧
  Forall (fun p => ¬ allocated w p) ps ∧
  Forall (allocated w') ps ∧
  (∀ q, allocated w q → allocated w' q ∧ val w' q = val w q).
Proof.
  induction es as [|e es IH]; intros w ps w' Hf Hes Hc; simpl in Hc.
  - injection Hc as <- <-. by split_and!.
  - destruct (f e w) as [p w1] eqn:Hp.
    destruct (copy_all f es w1) as [ps' w2] eqn:Hrest.
    injection Hc as <- <-.
    destruct (Hf _ _ _ _ Hp) as (Hfresh & Halloc & Hval & Hkeep).
    apply Forall_cons in Hes as [He Hes].
    destruct (IH w1 ps' w2 Hf) as (Hvals & Hfr & Hal & Hk); [|done|].
    { eapply Forall_impl; [exact Hes|]. intros q Hq. by apply Hkeep. }
    split_and!.
    + rewrite !fmap_cons. f_equal.
      * destruct (Hk p Halloc) as [_ ->]. done.
      * rewrite Hvals. apply Forall_fmap_ext_1.
        eapply Forall_impl; [exact Hes|]. intros q Hq. by apply Hkeep.
    + apply Forall_cons. split; [done|].
      eapply Forall_impl; [exact Hfr|]. intros q Hq Hw. by apply Hq, Hkeep.
    + apply Forall_cons. split; [by apply Hk|done].
    + intros q Hq. destruct (Hkeep q Hq) as [H1 H2].
      destruct (Hk q H1) as [H3 H4]. split; [done|congruence].
Qed.

Lemma slot_val_fmap w (ps : list Z) :
  slot_val val w <$> (Ptr <$> ps) = Some <$> (val w <$> ps).
Proof. induction ps; simpl; [done|]. by f_equal. Qed.

End Contract.

(** ** Mutations of one stack leave another one alone *)

Lemma run_mutations_post ms : ∀ st h sh liveh junkh other so liveo junko,
  is_stack st h sh liveh junkh →
  is_stack st other so liveo junko →
  other ≠ h → Stack_data so ≠ Stack_data sh →
  post (run_mutations h ms st)
       (fun _ st' => is_stack st' other so liveo junko).
Proof.
  induction ms as [|[e|] ms IH];
    intros st h sh liveh junkh other so liveo junko Hh Ho Hne Hd.
  - done.
  - simpl. eapply post_bind; [apply (push_post _ _ _ _ _ e Hh)|].
    intros a st1 (s1 & junk1 & Hh1 & _ & _ & _ & _ & Hfr).
    destruct (is_stack_frame _ _ _ _ _ _ _ _ _ Ho Hfr Hne Hd) as [Ho1 Hd1].
    by eapply IH.
  - simpl. destruct (decide (liveh = [])) as [->|Hnil].
    + rewrite (bind_Ret _ _ _ _ _ (pop_empty _ _ _ _ Hh)). by eapply IH.
    + destruct (exists_last Hnil) as (live' & p & ->).
      rewrite (bind_Ret _ _ _ _ _ (pop_spec _ _ _ _ _ _ Hh)).
      pose proof (popped_is_stack _ _ _ _ _ _ Hh) as Hh1.
      pose proof (popped_frame st h sh live' junkh) as Hfr.
      destruct (is_stack_frame _ _ _ _ _ _ _ _ _ Ho Hfr Hne Hd) as [Ho1 Hd1].
      by eapply IH.
Qed.

(** * The properties of the specification *)

(** C1.  Push [e1 .. en], in that order, onto a freshly constructed
    stack, then pop [n] times: the pops return the copies made by the
    pushes in reverse order, after which the stack is empty ([size] is 0,
    [is_empty] is true) and one more [pop] returns [NULL].  The allocator
    is assumed to grant the few requests the pushes make. *)
Theorem push_all_pop_n_reverses copy_func free_func cmp_func es st :
  (∀ n, 0 <= n <= 64 + 16 * Z.of_nat (length es) → granted n = true) →
  ∃ stack st0 st1 st2,
    new_stack copy_func free_func cmp_func st = Ret stack st0 ∧
    push_all stack es st0 = Ret tt st1 ∧
    pop_n stack (length es) st1
    = Ret (rev (copy_all copy_func es (world st)).1) st2 ∧
    size stack st2 = Ret 0 st2 ∧
    is_empty stack st2 = Ret true st2 ∧
    pop stack st2 = Ret NULL st2.
Proof.
  intros Hg.
  assert (G1 : granted sizeof_Stack = true) by (apply Hg; unfold sizeof_Stack; lia).
  assert (G2 : granted (STACK_INITIAL_CAPACITY * sizeof_ptr) = true).
  { apply Hg. unfold STACK_INITIAL_CAPACITY, sizeof_ptr. lia. }
  pose proof (new_stack_spec st copy_func free_func cmp_func G1 G2) as Hnew.
  pose proof (new_state_is_stack st copy_func free_func cmp_func) as H0.
  set (st0 := new_state st copy_func free_func cmp_func) in *.
  set (stack := fresh_addr (structs st)) in *.
  destruct (copy_all copy_func es (world st)) as [ps w'] eqn:Hcp.
  destruct (push_all_spec stack es st0 _ [] _ ps w' H0)
    as (st1 & s1 & junk1 & Hpush & H1 & _); [done|done|].
  simpl in H1. rewrite <- (rev_involutive ps) in H1.
  destruct (pop_n_spec stack (rev ps) st1 s1 [] junk1 H1)
    as (st2 & s2 & Hpop & H2 & _).
  rewrite length_rev, (copy_all_length _ _ _ _ _ Hcp) in Hpop.
  exists stack, st0, st1, st2. simpl. split_and!; try done.
  - apply (size_spec _ _ _ _ _ H2).
  - apply (is_empty_spec _ _ _ _ _ H2).
  - apply (pop_empty _ _ _ _ H2).
Qed.

(** C2.  [push] grows the buffer exactly when [size == capacity]; the new
    capacity is the old one doubled, and 8 when the old one is 0; the
    slots [0 .. size) keep their contents across the growth; no call
    decreases the capacity; and pushing 9 elements onto a new stack keeps
    all of them and takes the capacity from 8 to 16. *)
Theorem push_grows_by_doubling :
  (∀ st stack s live junk e,
     is_stack st stack s live junk →
     (Stack_size s = Stack_capacity s →
      granted (grown (Stack_capacity s) * sizeof_ptr) = true) →
     ∃ st' s' junk',
       push stack e st = Ret tt st' ∧
       is_stack st' stack s' (live ++ [(Stack_copy s e (world st)).1]) junk' ∧
       Stack_capacity s'
       = (if Stack_size s =? Stack_capacity s
          then (if Stack_capacity s =? 0 then 8 else Stack_capacity s * 2)
          else Stack_capacity s) ∧
       (Stack_capacity s' ≠ Stack_capacity s ↔ Stack_size s = Stack_capacity s) ∧
       (Stack_size s ≠ Stack_capacity s → Stack_data s' = Stack_data s) ∧
       (∀ i, (i < length live)%nat → slot_at st' s' i = slot_at st s i)) ∧
  (∀ st stack s live junk c,
     is_stack st stack s live junk →
     call_ok s live c →
     post (run_call stack c st) (fun _ st' =>
       ∃ s' live' junk',
         is_stack st' stack s' live' junk' ∧
         Stack_capacity s <= Stack_capacity s')) ∧
  (∀ copy_func free_func cmp_func es st,
     length es = 9%nat →
     (∀ n, 0 <= n <= 208 → granted n = true) →
     ∃ stack st0 st9 s9 junk9,
       new_stack copy_func free_func cmp_func st = Ret stack st0 ∧
       capacity stack st0 = Ret 8 st0 ∧
       push_all stack es st0 = Ret tt st9 ∧
       is_stack st9 stack s9 (copy_all copy_func es (world st)).1 junk9 ∧
       capacity stack st9 = Ret 16 st9).
Proof.
  split_and!.
  - intros st stack s live junk e Hst Hg.
    destruct (Stack_copy s e (world st)) as [p w'] eqn:Hcp.
    pose proof (is_stack_bounds _ _ _ _ _ Hst) as [Hb1 Hb2].
    pose proof Hst as (_ & _ & Ha & Hsz & Hc & _).
    destruct (push_spec st stack s live junk e p w' Hst Hcp)
      as (st' & s' & junk' & Hp & Hst' & _ & _ & Hcap & _ & Hd & _).
    { intros ->. apply Hg. simpl in Hc. lia. }
    exists st', s', junk'. simpl. split_and!; try done.
    + rewrite Hcap. unfold grown, STACK_INITIAL_CAPACITY.
      destruct (Z.eqb_spec (Stack_size s) (Stack_capacity s)); [|done].
      destruct (Z.eqb_spec (Stack_capacity s) 0); split; intros; try done; lia.
    + intros Hne. apply Hd. intros ->. simpl in Hc. lia.
    + intros i Hi. unfold slot_at.
      destruct Hst' as (_ & _ & Ha' & _). rewrite Ha, Ha'.
      rewrite fmap_app, <- !app_assoc.
      by rewrite !lookup_app_l by (by rewrite length_fmap).
  - intros st stack s live junk c Hst Hok.
    eapply post_mono.
    + by apply (run_call_post (fun _ => True) (fun _ => True)
                  st stack s live junk c Hst Hok);
        [| | |apply Forall_true|apply Forall_true].
    + intros _ st' (s' & live' & junk' & H1 & _ & H2 & _). by exists s', live', junk'.
  - intros copy_func free_func cmp_func es st Hlen Hg.
    assert (G1 : granted sizeof_Stack = true) by (apply Hg; unfold sizeof_Stack; lia).
    assert (G2 : granted (STACK_INITIAL_CAPACITY * sizeof_ptr) = true).
    { apply Hg. unfold STACK_INITIAL_CAPACITY, sizeof_ptr. lia. }
    pose proof (new_stack_spec st copy_func free_func cmp_func G1 G2) as Hnew.
    pose proof (new_state_is_stack st copy_func free_func cmp_func) as H0.
    set (st0 := new_state st copy_func free_func cmp_func) in *.
    set (stack := fresh_addr (structs st)) in *.
    destruct (copy_all copy_func es (world st)) as [ps w'] eqn:Hcp.
    destruct (push_all_spec stack es st0 _ [] _ ps w' H0)
      as (st9 & s9 & junk9 & Hpush & H9 & _ & _ & Hcap & _); [done| |].
    { intros n Hn. apply Hg. rewrite Hlen in Hn. simpl in Hn. lia. }
    exists stack, st0, st9, s9, junk9. simpl. split_and!; try done.
    + apply (capacity_spec _ _ _ _ _ H0).
    + rewrite (capacity_spec _ _ _ _ _ H9), Hcap, Hlen. done.
Qed.

(** C8.  On an empty stack, [pop] and [peek] return [NULL] as an ordinary
    result and leave the state, hence the size and the capacity, as they
    were. *)
Theorem pop_peek_on_empty st stack s junk :
  is_stack st stack s [] junk →
  pop stack st = Ret NULL st ∧
  peek stack st = Ret NULL st ∧
  size stack st = Ret 0 st ∧
  capacity stack st = Ret (Stack_capacity s) st.
Proof.
  intros Hst. split_and!.
  - by eapply pop_empty.
  - by eapply peek_empty.
  - apply (size_spec _ _ _ _ _ Hst).
  - by eapply capacity_spec.
Qed.

(** C10.  With a null handle, [push] and [clear] do nothing, [pop], [peek]
    and [clone] return [NULL], [is_empty] returns true, [size] and
    [capacity] return 0 and [contains] returns false; none of them
    changes the state or calls a function pointer. *)
Theorem null_handle_is_safe st element :
  push NULL element st = Ret tt st ∧
  pop NULL st = Ret NULL st ∧
  peek NULL st = Ret NULL st ∧
  clear NULL st = Ret tt st ∧
  is_empty NULL st = Ret true st ∧
  size NULL st = Ret 0 st ∧
  capacity NULL st = Ret 0 st ∧
  contains NULL element st = Ret false st ∧
  clone NULL st = Ret NULL st.
Proof. by split_and!. Qed.

(** C5.  With a comparison function, [contains] returns true exactly when
    some live element compares equal (result 0) to the given one; it
    changes nothing; on an empty stack it returns false. *)
Theorem contains_iff_some_equal st stack s live junk f x :
  is_stack st stack s live junk →
  Stack_cmp s = Some f →
  ∃ b,
    contains stack x st = Ret b st ∧
    (b = true ↔ ∃ (i : nat) (p : Z), live !! i = Some p ∧ f p x (world st) = 0) ∧
    (live = [] → b = false).
Proof.
  intros Hst Hf.
  exists (existsb (fun p => f p x (world st) =? 0) live). split_and!.
  - by apply (contains_spec st stack s live junk).
  - rewrite existsb_exists. split.
    + intros (p & Hin & Hp). apply list_elem_of_In, list_elem_of_lookup in Hin.
      destruct Hin as [i Hi]. exists i, p. split; [done|]. by apply Z.eqb_eq.
    + intros (i & p & Hi & Hp). exists p. split.
      * apply list_elem_of_In, list_elem_of_lookup. by exists i.
      * by apply Z.eqb_eq.
  - by intros ->.
Qed.

(** C7.  [clear] passes every live element to the free function, once
    each, in index order; then the size is 0 and the capacity is what it
    was.  The buffer is not touched.  On an empty stack [clear] changes
    nothing, so a second [clear] is a no-op. *)
Theorem clear_frees_each_once st stack s live junk :
  is_stack st stack s live junk →
  ∃ st',
    clear stack st = Ret tt st' ∧
    world st' = free_all (Stack_free_func s) live (world st) ∧
    size stack st' = Ret 0 st' ∧
    is_empty stack st' = Ret true st' ∧
    capacity stack st' = Ret (Stack_capacity s) st' ∧
    arrays st' = arrays st ∧
    (live = [] → st' = st) ∧
    clear stack st' = Ret tt st'.
Proof.
  intros Hst. exists (cleared st stack s live).
  pose proof (cleared_is_stack _ _ _ _ _ Hst) as Hst'.
  assert (Hid : ∀ st0 s0 junk0, is_stack st0 stack s0 [] junk0 →
                  cleared st0 stack s0 [] = st0).
  { intros st0 s0 junk0 (_ & Hs0 & _ & Hsz0 & _).
    unfold cleared. destruct st0 as [ss aa ww]. simpl in *.
    f_equal. apply insert_id. rewrite Hs0. f_equal.
    destruct s0. unfold set_size. simpl in *. by rewrite Hsz0. }
  split_and!; try done.
  - by apply (clear_spec st stack s live junk).
  - apply (size_spec _ _ _ _ _ Hst').
  - apply (is_empty_spec _ _ _ _ _ Hst').
  - apply (capacity_spec _ _ _ _ _ Hst').
  - intros ->. by apply (Hid _ _ junk).
  - rewrite (clear_spec _ _ _ _ _ Hst'). f_equal. by eapply Hid.
Qed.

(** C4.  [reverse] only exchanges the positions of the live elements: the
    slots [0 .. size) end up in reverse order, the struct (size, capacity,
    buffer address), the slots beyond [size], every other array and the
    caller's memory stay as they were, so nothing is copied, released or
    allocated.  On an empty stack nothing changes, and reversing twice
    restores the original state. *)
Theorem reverse_in_place_involutive st stack s live junk :
  is_stack st stack s live junk →
  ∃ st',
    reverse stack st = Ret tt st' ∧
    is_stack st' stack s (rev live) junk ∧
    rev live ≡ₚ live ∧
    structs st' = structs st ∧
    world st' = world st ∧
    (∀ a, a ≠ Stack_data s → arrays st' !! a = arrays st !! a) ∧
    (live = [] → st' = st) ∧
    reverse stack st' = Ret tt st.
Proof.
  intros Hst.
  exists (set_arrays st (<[Stack_data s := (Ptr <$> rev live) ++ junk]> (arrays st))).
  pose proof (reversed_is_stack _ _ _ _ _ Hst) as Hst'.
  pose proof Hst as (_ & _ & Ha & _).
  split_and!; try done.
  - by apply reverse_spec.
  - symmetry. apply Permutation_rev.
  - intros a Hne. simpl. by rewrite lookup_insert_ne.
  - intros ->. by apply set_arrays_id.
  - rewrite (reverse_spec _ _ _ _ _ Hst'). f_equal.
    rewrite rev_involutive. destruct st as [ss aa ww]. unfold set_arrays.
    simpl in *. f_equal. rewrite insert_insert_eq. by apply insert_id.
Qed.

(** C6.  [to_array] on a non-empty stack returns a newly allocated array
    of [size] entries whose [i]-th entry is the copy, made by the copy
    function, of the element at index [i]; the structs, the buffer of the
    stack and every other array are unchanged.  On an empty stack it
    returns [NULL] and changes nothing.  When [out_size] is supplied the
    size is written to it, 0 for an empty stack.  The allocator is
    assumed to grant the request for the array. *)
Theorem to_array_copies_bottom_to_top st stack s live junk out_size :
  is_stack st stack s live junk →
  (live ≠ [] → granted (Z.of_nat (length live) * sizeof_ptr) = true) →
  ∃ a st',
    to_array stack out_size st
    = Ret (a, if out_size then Some (Z.of_nat (length live)) else None) st' ∧
    is_stack st' stack s live junk ∧
    structs st' = structs st ∧
    world st' = (copy_all (Stack_copy s) live (world st)).2 ∧
    (live = [] → a = NULL ∧ st' = st) ∧
    (live ≠ [] →
       a ≠ NULL ∧ arrays st !! a = None ∧
       arrays st' !! a = Some (Ptr <$> (copy_all (Stack_copy s) live (world st)).1) ∧
       length (copy_all (Stack_copy s) live (world st)).1 = length live ∧
       ∀ a', a' ≠ a → arrays st' !! a' = arrays st !! a').
Proof.
  intros Hst Hg. destruct (decide (live = [])) as [->|Hne].
  - exists NULL, st. split_and!; try done.
    by apply (to_array_empty st stack s junk).
  - specialize (Hg Hne).
    destruct (copy_all (Stack_copy s) live (world st)) as [ps w'] eqn:Hcp.
    eexists _, _. split; [by apply (to_array_spec st stack s live junk)|].
    pose proof Hst as (Hn & Hs & Ha & Hsz & Hc & Hm). simpl.
    split_and!; try done.
    + unfold is_stack. simpl. split_and!; try done.
      rewrite lookup_insert_ne; [done|]. apply not_eq_sym, (fresh_addr_ne _ _ _ Ha).
    + intros _. split_and!.
      * apply fresh_addr_not_null.
      * apply fresh_addr_None.
      * by rewrite lookup_insert_eq.
      * by apply (copy_all_length _ _ _ _ _ Hcp).
      * intros a' Hne'. by rewrite lookup_insert_ne.
Qed.

(** C3.  [clone] returns a new stack with the same three operations whose
    elements are the copies of the elements of the source, made from
    index 0 upward; the source is unchanged.  When the copy function keeps
    its contract, the copies hold the same values in the same order and
    none of them is an element of the source, and the arrays [to_array]
    returns for the source and for the clone hold the same values, entry
    by entry.  The two stacks share no buffer: no sequence of [push] and
    [pop] on one changes the other. *)
Theorem clone_is_independent_copy {V : Type}
    (allocated : W → Z → Prop) (val : W → Z → V) st stack s live junk :
  is_stack st stack s live junk →
  copy_contract allocated val (Stack_copy s) →
  Forall (allocated (world st)) live →
  (∀ n, 0 <= n <= 64 + 16 * Z.of_nat (length live) → granted n = true) →
  ∃ c st1 sc livec junkc,
    clone stack st = Ret c st1 ∧
    c ≠ NULL ∧ c ≠ stack ∧ structs st !! c = None ∧
    arrays st !! Stack_data sc = None ∧
    is_stack st1 c sc livec junkc ∧
    same_funcs s sc ∧
    (livec, world st1) = copy_all (Stack_copy s) live (world st) ∧
    val (world st1) <$> livec = val (world st) <$> live ∧
    is_stack st1 stack s live junk ∧
    Stack_data sc ≠ Stack_data s ∧
    (∀ p, p ∈ livec → p ∉ live) ∧
    (∃ a1 st2 a2 st3,
       to_array stack true st1 = Ret (a1, Some (Z.of_nat (length live))) st2 ∧
       to_array c true st2 = Ret (a2, Some (Z.of_nat (length live))) st3 ∧
       slot_val val (world st3) <$> array_contents st3 a1
       = Some <$> (val (world st) <$> live) ∧
       slot_val val (world st3) <$> array_contents st3 a2
       = Some <$> (val (world st) <$> live)) ∧
    (∀ ms, post (run_mutations c ms st1)
                (fun _ st' => is_stack st' stack s live junk)) ∧
    (∀ ms, post (run_mutations stack ms st1)
                (fun _ st' => is_stack st' c sc livec junkc)).
Proof.
  intros Hst Hct Hal Hg.
  destruct (copy_all (Stack_copy s) live (world st)) as [ps w1] eqn:Hcp.
  destruct (clone_spec st stack s live junk ps w1 Hst Hcp Hg)
    as (st1 & sc & junkc & Hclone & Hsc & Hw1 & Hf & _ & Hk).
  destruct (is_stack_keeps _ _ _ _ _ _ _ Hst Hk) as [Hst1 Hd].
  destruct (copy_all_contract allocated val _ _ _ _ _ Hct Hal Hcp)
    as (Hv1 & Hfresh1 & Hal1 & Hk1).
  pose proof (copy_all_length _ _ _ _ _ Hcp) as Hlen.
  pose proof Hst as (Hn & Hs & Ha & _).
  assert (Hkeep : ∀ (w w' : W) (l : list Z),
            Forall (allocated w) l →
            (∀ q, allocated w q → allocated w' q ∧ val w' q = val w q) →
            val w' <$> l = val w <$> l ∧ Forall (allocated w') l).
  { intros w w' l Hl Hq. split.
    - apply Forall_fmap_ext_1. eapply Forall_impl; [exact Hl|].
      intros q H. by apply Hq.
    - eapply Forall_impl; [exact Hl|]. intros q H. by apply Hq. }
  exists (fresh_addr (structs st)), st1, sc, ps, junkc.
  split_and!; try done.
  - apply fresh_addr_not_null.
  - apply not_eq_sym, (fresh_addr_ne _ _ _ Hs).
  - apply fresh_addr_None.
  - destruct (arrays st !! Stack_data sc) as [buf|] eqn:E; [|done].
    by destruct (proj2 Hk _ _ E).
  - by rewrite Hw1.
  - by rewrite Hw1.
  - intros p Hp Hp'.
    rewrite Forall_forall in Hfresh1, Hal. by apply (Hfresh1 p Hp), Hal.
  - (* the two arrays *)
    destruct (decide (live = [])) as [->|Hne].
    + destruct ps; [|done].
      exists NULL, st1, NULL, st1. split_and!; try done.
      * by apply (to_array_empty st1 stack s junk).
      * by apply (to_array_empty st1 _ sc junkc).
    + assert (Hne' : ps ≠ []) by (intros ->; by destruct live).
      assert (G : granted (Z.of_nat (length live) * sizeof_ptr) = true).
      { apply Hg. unfold sizeof_ptr. lia. }
      destruct (copy_all (Stack_copy s) live (world st1)) as [ps1 w2] eqn:Hcp1.
      pose proof (to_array_spec st1 stack s live junk true ps1 w2 Hst1 Hne G Hcp1)
        as Hta1.
      set (a1 := fresh_addr (arrays st1)) in *.
      set (st2 := mkState (structs st1) (<[a1 := Ptr <$> ps1]> (arrays st1)) w2) in *.
      assert (Hsc2 : is_stack st2 (fresh_addr (structs st)) sc ps junkc).
      { destruct Hsc as (? & ? & Hasc & ? & ? & ?). unfold is_stack. simpl.
        split_and!; try done. rewrite lookup_insert_ne; [done|].
        apply not_eq_sym, (fresh_addr_ne _ _ _ Hasc). }
      destruct (copy_all (Stack_copy sc) ps (world st2)) as [ps2 w3] eqn:Hcp2.
      assert (G' : granted (Z.of_nat (length ps) * sizeof_ptr) = true)
        by (by rewrite Hlen).
      pose proof (to_array_spec st2 _ sc ps junkc true ps2 w3 Hsc2 Hne' G' Hcp2)
        as Hta2.
      rewrite Hlen in Hta2.
      set (a2 := fresh_addr (arrays st2)) in *.
      eexists a1, st2, a2, _. split; [exact Hta1|]. split; [exact Hta2|].
      (* values *)
      subst w1.
      destruct (Hkeep _ _ _ Hal Hk1) as [Hv_live1 Hal_live1].
      destruct (copy_all_contract allocated val _ _ _ _ _ Hct Hal_live1 Hcp1)
        as (Hv2 & _ & Hal2 & Hk2).
      destruct (Hkeep _ _ _ Hal1 Hk2) as [Hv_ps2 Hal_ps2].
      assert (Hct' : copy_contract allocated val (Stack_copy sc)).
      { destruct Hf as (-> & _). done. }
      destruct (copy_all_contract allocated val _ _ _ _ _ Hct' Hal_ps2 Hcp2)
        as (Hv3 & _ & Hal3 & Hk3).
      destruct (Hkeep _ _ _ Hal2 Hk3) as [Hv_ps1_3 _].
      assert (Ha1 : a1 ≠ NULL) by apply fresh_addr_not_null.
      assert (Ha2 : a2 ≠ NULL) by apply fresh_addr_not_null.
      assert (Ha12 : a1 ≠ a2).
      { apply (fresh_addr_ne _ _ (Ptr <$> ps1)). subst st2. simpl.
        by rewrite lookup_insert_eq. }
      unfold array_contents. simpl.
      destruct (Z.eqb_spec a1 NULL); [done|].
      destruct (Z.eqb_spec a2 NULL); [done|].
      rewrite lookup_insert_eq, lookup_insert_ne, lookup_insert_eq by done.
      simpl. rewrite !slot_val_fmap. split; f_equal.
      * rewrite Hv_ps1_3, Hv2. done.
      * rewrite Hv3. simpl. rewrite Hv_ps2. done.
  - intros ms.
    apply (run_mutations_post ms st1 _ sc ps junkc stack s live junk);
      try done.
    apply (fresh_addr_ne _ _ _ Hs).
  - intros ms.
    apply (run_mutations_post ms st1 stack s live junk _ sc ps junkc);
      try done.
    apply not_eq_sym, (fresh_addr_ne _ _ _ Hs).
Qed.

Lemma is_stack_unique st stack s live junk s' live' junk' :
  is_stack st stack s live junk →
  is_stack st stack s' live' junk' →
  s' = s ∧ live' = live ∧ junk' = junk.
Proof.
  intros (_ & Hs & Ha & Hsz & _) (_ & Hs' & Ha' & Hsz' & _).
  rewrite Hs in Hs'. injection Hs' as <-.
  rewrite Ha in Ha'. injection Ha' as Hbuf.
  assert (Hlen : length (Ptr <$> live) = length (Ptr <$> live')).
  { rewrite !length_fmap. lia. }
  destruct (app_inj_1 _ _ _ _ Hlen Hbuf) as [Hl Hj].
  split_and!; [done| |done].
  assert (Hinj : Inj (=) (=) Ptr) by (intros x y H; by injection H).
  symmetry. by apply (list_fmap_eq_inj Ptr).
Qed.

(** ** The buffer invariant of the specification *)

Lemma post_and {A} (o : outcome state A) (P Q : A → state → Prop) :
  post o P → post o Q → post o (fun a st => P a st ∧ Q a st).
Proof. destruct o; simpl; auto. Qed.

(** The slots that follow the live ones are unused backing capacity. *)
Lemma is_stack_junk_unused st stack s live junk :
  is_stack st stack s live junk →
  ∀ i x, junk !! i = Some x → unused_or_null s (length live + i) x.
Proof.
  intros (_ & _ & _ & Hsz & Hc & _) i x Hi. left.
  apply lookup_lt_Some in Hi. unfold unused. lia.
Qed.

Section Owned.

Context {V : Type} (allocated : W → Z → Prop) (val : W → Z → V).

Lemma invariant_intro st stack s live junk :
  is_stack st stack s live junk →
  live_owned allocated (world st) live →
  spec_buffer_invariant allocated st stack.
Proof.
  intros Hst Hl. exists s, live, junk.
  split_and!; [done|done|by apply (is_stack_junk_unused st stack)].
Qed.

Lemma invariant_elim st stack s live junk :
  is_stack st stack s live junk →
  spec_buffer_invariant allocated st stack →
  live_owned allocated (world st) live.
Proof.
  intros Hst (s1 & live1 & junk1 & H1 & Hl & _).
  by destruct (is_stack_unique _ _ _ _ _ _ _ _ Hst H1) as (_ & -> & _).
Qed.

Lemma live_owned_mono w w' live :
  live_owned allocated w live →
  (∀ q, allocated w q → allocated w' q) →
  live_owned allocated w' live.
Proof.
  intros [Hl Hd] Hk. split; [|done].
  eapply Forall_impl; [exact Hl|]. intros q [? ?]. split; [done|by apply Hk].
Qed.

(** A copy is a new element: it joins the live ones without being one of
    them, and no element is released by the copy function. *)
Lemma copy_owned f e w p w' live :
  copy_contract allocated val f →
  (∀ e w, (f e w).1 ≠ NULL) →
  f e w = (p, w') →
  live_owned allocated w live →
  live_owned allocated w' (live ++ [p]) ∧
  (∀ q, allocated w q → allocated w' q).
Proof.
  intros Hf Hnn Hp [Hl Hd].
  destruct (Hf _ _ _ _ Hp) as (Hfresh & Halloc & _ & Hkeep).
  assert (Hk : ∀ q, allocated w q → allocated w' q) by (intros q Hq; by apply Hkeep).
  split; [|done]. split.
  - apply Forall_app. split.
    + eapply Forall_impl; [exact Hl|]. intros q [? ?]. split; [done|by apply Hk].
    + apply Forall_singleton. split; [|done].
      specialize (Hnn e w). by rewrite Hp in Hnn.
  - apply NoDup_app. split_and!; [done| |apply NoDup_singleton].
    intros q Hq Hq'. apply list_elem_of_singleton in Hq' as ->.
    rewrite Forall_forall in Hl. by destruct (Hl p Hq) as [_ Hal].
Qed.

Lemma copy_all_owned f es : ∀ w ps w',
  copy_contract allocated val f →
  (∀ e w, (f e w).1 ≠ NULL) →
  copy_all f es w = (ps, w') →
  live_owned allocated w' ps ∧
  Forall (fun p => ¬ allocated w p) ps ∧
  (∀ q, allocated w q → allocated w' q).
Proof.
  induction es as [|e es IH]; intros w ps w' Hf Hnn Hc; simpl in Hc.
  - injection Hc as <- <-. split_and!; [split; [done|apply NoDup_nil_2]|done|done].
  - destruct (f e w) as [p w1] eqn:Hp.
    destruct (copy_all f es w1) as [ps' w2] eqn:Hrest.
    injection Hc as <- <-.
    destruct (Hf _ _ _ _ Hp) as (Hfresh & Halloc & _ & Hkeep).
    destruct (IH w1 ps' w2 Hf Hnn Hrest) as ([Hl Hd] & Hfr & Hk).
    split_and!.
    + split.
      * apply Forall_cons. split; [|done].
        split; [|by apply Hk]. specialize (Hnn e w). by rewrite Hp in Hnn.
      * apply NoDup_cons. split; [|done].
        intros Hin. rewrite Forall_forall in Hfr. by apply (Hfr p Hin).
    + apply Forall_cons. split; [done|].
      eapply Forall_impl; [exact Hfr|]. intros q Hq Hw. by apply Hq, Hkeep.
    + intros q Hq. by apply Hk, Hkeep.
Qed.

Lemma clone_loop_world_post stack c s rest : ∀ pre junk st sc livec junkc,
  is_stack st stack s (pre ++ rest) junk →
  is_stack st c sc livec junkc →
  c ≠ stack → Stack_data s ≠ Stack_data sc →
  copy_contract allocated val (Stack_copy sc) →
  post (for_loop (length rest) (Z.of_nat (length pre))
          (fun i => s <- load_Stack stack ;;
                    e <- load_slot (Stack_data s) i ;;
                    push c e) st)
       (fun _ st' => ∀ q, allocated (world st) q → allocated (world st') q).
Proof.
  induction rest as [|e rest IH];
    intros pre junk st sc livec junkc Hst Hsc Hne Hd Hct.
  - by intros q Hq.
  - simpl for_loop. eapply post_bind.
    + pose proof Hst as (Hn & Hs & Ha & _).
      rewrite (bind_Ret _ _ _ _ _ (load_Stack_eq _ _ _ Hn Hs)).
      erewrite bind_Ret.
      2:{ eapply load_slot_eq; [exact Ha|].
          rewrite fmap_app, <- app_assoc. simpl.
          rewrite <- (length_fmap Ptr pre). apply lookup_mid_head. }
      apply (push_post _ _ _ _ _ e Hsc).
    + intros _ st1 (sc1 & junk1 & Hsc1 & Hw & Hf & _ & _ & Hfr1).
      destruct (is_stack_frame _ _ _ _ _ _ _ _ _ Hst Hfr1 (not_eq_sym Hne) Hd)
        as [Hst1 Hd1].
      replace (Z.of_nat (length pre) + 1) with (Z.of_nat (length (pre ++ [e])))
        by (rewrite length_app; simpl; lia).
      replace (pre ++ e :: rest) with ((pre ++ [e]) ++ rest) in *
        by (by rewrite <- app_assoc).
      eapply post_mono.
      * apply (IH (pre ++ [e]) junk st1 sc1 _ _ Hst1 Hsc1 Hne Hd1).
        destruct Hf as (-> & _). exact Hct.
      * intros a st2 H q Hq. apply H. rewrite Hw.
        destruct (Stack_copy sc e (world st)) as [p w1] eqn:Hp.
        destruct (Hct _ _ _ _ Hp) as (_ & _ & _ & Hkeep). by apply Hkeep.
Qed.

(** [clone] releases no element. *)
Lemma clone_world_post st stack s live junk :
  is_stack st stack s live junk →
  copy_contract allocated val (Stack_copy s) →
  post (clone stack st)
       (fun _ st' => ∀ q, allocated (world st) q → allocated (world st') q).
Proof.
  intros Hst Hct. pose proof Hst as (Hn & Hs & Ha & Hsz & _).
  unfold clone. destruct (Z.eqb_spec stack NULL); [done|].
  rewrite (bind_Ret _ _ _ _ _ (load_Stack_eq _ _ _ Hn Hs)).
  eapply post_bind; [apply new_stack_post|].
  intros c st0 [-> ->].
  pose proof (new_state_is_stack st (Stack_copy s) (Stack_free_func s) (Stack_cmp s))
    as Hc0.
  pose proof (new_state_keeps st (Stack_copy s) (Stack_free_func s) (Stack_cmp s))
    as [Ks Ka].
  destruct (is_stack_keeps st
              (new_state st (Stack_copy s) (Stack_free_func s) (Stack_cmp s))
              _ _ _ _ (fresh_addr (arrays st)) Hst) as [Hst0 Hd].
  { split; [done|]. intros a buf Hh. split; [|by apply Ka].
    apply (fresh_addr_ne _ _ _ Hh). }
  eapply post_bind.
  - rewrite Hsz, Nat2Z.id.
    eapply (clone_loop_world_post stack _ s live [] junk); eauto.
    apply not_eq_sym, (fresh_addr_ne _ _ _ Hs).
  - intros a st1 H. exact H.
Qed.

(** Every call keeps the live elements live, non-null and owned. *)
Lemma run_call_owned st stack s live junk c :
  is_stack st stack s live junk →
  call_ok s live c →
  copy_contract allocated val (Stack_copy s) →
  (∀ e w, (Stack_copy s e w).1 ≠ NULL) →
  live_owned allocated (world st) live →
  post (run_call stack c st) (fun _ st' =>
    ∃ s' live' junk',
      is_stack st' stack s' live' junk' ∧
      same_funcs s s' ∧
      live_owned allocated (world st') live').
Proof.
  intros Hst Hok Hct Hnn Hl.
  assert (Hsame : ∀ st', is_stack st' stack s live junk →
            (∀ q, allocated (world st) q → allocated (world st') q) →
            ∃ s' live' junk', is_stack st' stack s' live' junk' ∧
              same_funcs s s' ∧ live_owned allocated (world st') live').
  { intros st' H Hk. exists s, live, junk.
    split_and!; [done|done|by apply (live_owned_mono (world st))]. }
  destruct c as [e| | | | | | |e| | |o]; simpl.
  - (* push *)
    eapply post_mono; [apply (push_post _ _ _ _ _ e Hst)|].
    intros _ st' (s' & junk' & Hst' & Hw & Hf & _).
    eexists s', _, junk'. split_and!; [done|done|].
    destruct (Stack_copy s e (world st)) as [p w'] eqn:Hp. simpl in *.
    rewrite Hw. by apply (copy_owned (Stack_copy s) e (world st)).
  - (* pop *)
    destruct (decide (live = [])) as [->|Hne].
    + rewrite (bind_Ret _ _ _ _ _ (pop_empty _ _ _ _ Hst)). by apply Hsame.
    + destruct (exists_last Hne) as (live' & p & ->).
      rewrite (bind_Ret _ _ _ _ _ (pop_spec _ _ _ _ _ _ Hst)). simpl.
      exists (set_size s (Z.of_nat (length live'))), live', (Ptr NULL :: junk).
      split_and!; [by apply (popped_is_stack _ _ _ _ p)|done|].
      destruct Hl as [Hl Hd]. apply Forall_app in Hl as [Hl _].
      apply NoDup_app in Hd as (Hd & _ & _). by split.
  - (* peek *)
    destruct (decide (live = [])) as [->|Hne].
    + rewrite (bind_Ret _ _ _ _ _ (peek_empty _ _ _ _ Hst)). by apply Hsame.
    + destruct (exists_last Hne) as (live' & p & ->).
      rewrite (bind_Ret _ _ _ _ _ (peek_spec _ _ _ _ _ _ Hst)). by apply Hsame.
  - (* clear *)
    rewrite (clear_spec _ _ _ _ _ Hst). simpl.
    exists (set_size s 0), [], ((Ptr <$> live) ++ junk).
    split_and!; [by apply cleared_is_stack|done|].
    split; [done|apply NoDup_nil_2].
  - (* is_empty *)
    rewrite (bind_Ret _ _ _ _ _ (is_empty_spec _ _ _ _ _ Hst)). by apply Hsame.
  - (* size *)
    rewrite (bind_Ret _ _ _ _ _ (size_spec _ _ _ _ _ Hst)). by apply Hsame.
  - (* capacity *)
    rewrite (bind_Ret _ _ _ _ _ (capacity_spec _ _ _ _ _ Hst)). by apply Hsame.
  - (* contains *)
    simpl in Hok. destruct (decide (live = [])) as [->|Hne].
    + rewrite (bind_Ret _ _ _ _ _ (contains_empty _ _ _ _ _ Hst)). by apply Hsame.
    + destruct Hok as [?|Hcmp]; [done|].
      destruct (Stack_cmp s) as [f|] eqn:Hf; [|done].
      rewrite (bind_Ret _ _ _ _ _ (contains_spec _ _ _ _ _ _ e Hst Hf)).
      by apply Hsame.
  - (* clone *)
    eapply post_bind.
    + apply (post_and _ _ _ (clone_post _ _ _ _ _ Hst)
                            (clone_world_post _ _ _ _ _ Hst Hct)).
    + intros a st' [H1 H2]. by apply Hsame.
  - (* reverse *)
    rewrite (reverse_spec _ _ _ _ _ Hst). simpl.
    exists s, (rev live), junk.
    split_and!; [by apply reversed_is_stack|done|].
    destruct Hl as [Hl Hd]. split; [by apply Forall_rev_1|by apply NoDup_rev_1].
  - (* to_array *)
    destruct (decide (live = [])) as [->|Hne].
    { rewrite (bind_Ret _ _ _ _ _ (to_array_empty _ _ _ _ o Hst)). by apply Hsame. }
    destruct (granted (Z.of_nat (length live) * sizeof_ptr)) eqn:Hg.
    + destruct (copy_all (Stack_copy s) live (world st)) as [ps w'] eqn:Hcp.
      rewrite (bind_Ret _ _ _ _ _ (to_array_spec _ _ _ _ _ o _ _ Hst Hne Hg Hcp)).
      apply Hsame.
      * destruct Hst as (Hn & Hs & Ha & Hsz & Hc & Hm).
        unfold is_stack. simpl. split_and!; try done.
        rewrite lookup_insert_ne; [done|]. apply not_eq_sym, (fresh_addr_ne _ _ _ Ha).
      * by destruct (copy_all_owned _ _ _ _ _ Hct Hnn Hcp) as (_ & _ & Hk).
    + unfold bind. by rewrite (to_array_exit _ _ _ _ _ _ Hst Hne Hg).
Qed.

End Owned.

(** C9.  Every call keeps the buffer invariant of the specification: the
    slots [0 .. size) hold live, non-null owned elements, each an
    element of the caller's memory that has not been released and that no
    other slot holds, and the slots [size .. capacity) are unused backing
    capacity or null.  [new_stack] establishes it with eight slots never
    written; any call on the stack keeps it; [pop] leaves [NULL] in the
    slot it vacates and the element it returns, still unreleased, is no
    longer one of the stack's; a [push] that grows the buffer adds slots
    never written; [clear] releases the elements and leaves their
    addresses in slots that are unused from then on; and the stack [clone]
    builds satisfies the invariant too, with elements that are none of the
    source's.  The copy function is assumed to keep its contract and never
    to return [NULL], [contains] to be called only on a stack that is
    empty or has a comparison function; [free_stack] ends the life of the
    stack and is no call in this sense. *)
Theorem every_call_keeps_buffer_invariant {V : Type}
    (allocated : W → Z → Prop) (val : W → Z → V) :
  (∀ copy_func free_func cmp_func st,
     granted sizeof_Stack = true →
     granted (STACK_INITIAL_CAPACITY * sizeof_ptr) = true →
     ∃ stack st' s',
       new_stack copy_func free_func cmp_func st = Ret stack st' ∧
       is_stack st' stack s' [] (replicate 8 Indet) ∧
       spec_buffer_invariant allocated st' stack) ∧
  (∀ st stack s live junk c,
     is_stack st stack s live junk →
     spec_buffer_invariant allocated st stack →
     copy_contract allocated val (Stack_copy s) →
     (∀ e w, (Stack_copy s e w).1 ≠ NULL) →
     call_ok s live c →
     post (run_call stack c st) (fun _ st' =>
       spec_buffer_invariant allocated st' stack ∧
       ∃ s', structs st' !! stack = Some s' ∧ same_funcs s s')) ∧
  (∀ st stack s live p junk,
     is_stack st stack s (live ++ [p]) junk →
     spec_buffer_invariant allocated st stack →
     ∃ st' s',
       pop stack st = Ret p st' ∧
       is_stack st' stack s' live (Ptr NULL :: junk) ∧
       spec_buffer_invariant allocated st' stack ∧
       allocated (world st') p ∧ p ∉ live) ∧
  (∀ st stack s live e,
     is_stack st stack s live [] →
     spec_buffer_invariant allocated st stack →
     copy_contract allocated val (Stack_copy s) →
     (∀ e w, (Stack_copy s e w).1 ≠ NULL) →
     granted (grown (Stack_capacity s) * sizeof_ptr) = true →
     ∃ st' s',
       push stack e st = Ret tt st' ∧
       is_stack st' stack s' (live ++ [(Stack_copy s e (world st)).1])
         (replicate (Z.to_nat (grown (Stack_capacity s) - Stack_capacity s - 1)) Indet) ∧
       spec_buffer_invariant allocated st' stack) ∧
  (∀ st stack s live junk,
     is_stack st stack s live junk →
     ∃ st' s',
       clear stack st = Ret tt st' ∧
       is_stack st' stack s' [] ((Ptr <$> live) ++ junk) ∧
       spec_buffer_invariant allocated st' stack) ∧
  (∀ st stack s live junk,
     is_stack st stack s live junk →
     spec_buffer_invariant allocated st stack →
     copy_contract allocated val (Stack_copy s) →
     (∀ e w, (Stack_copy s e w).1 ≠ NULL) →
     (∀ n, 0 <= n <= 64 + 16 * Z.of_nat (length live) → granted n = true) →
     ∃ c st' sc livec junkc,
       clone stack st = Ret c st' ∧
       c ≠ stack ∧
       is_stack st' c sc livec junkc ∧
       spec_buffer_invariant allocated st' c ∧
       spec_buffer_invariant allocated st' stack ∧
       (∀ p, p ∈ livec → p ∉ live)).
Proof.
  assert (Hnil : ∀ w, live_owned allocated w []).
  { intros w. split; [done|apply NoDup_nil_2]. }
  split_and!.
  - intros cf ff cmpf st G1 G2. eexists _, _, _.
    split; [by apply new_stack_spec|].
    pose proof (new_state_is_stack st cf ff cmpf) as H0.
    split; [exact H0|]. by apply (invariant_intro allocated _ _ _ _ _ H0).
  - intros st stack s live junk c Hst Hinv Hct Hnn Hok.
    pose proof (invariant_elim allocated _ _ _ _ _ Hst Hinv) as Hl.
    eapply post_mono.
    + by apply (run_call_owned allocated val st stack s live junk c).
    + intros _ st' (s' & live' & junk' & H1 & H2 & H3). split.
      * by apply (invariant_intro allocated _ _ _ _ _ H1).
      * exists s'. by destruct H1 as (_ & ? & _).
  - intros st stack s live p junk Hst Hinv.
    destruct (invariant_elim allocated _ _ _ _ _ Hst Hinv) as [Hl Hd].
    pose proof (popped_is_stack _ _ _ _ p _ Hst) as Hst'.
    apply Forall_app in Hl as [Hl Hp]. apply Forall_singleton in Hp as [_ Hp].
    apply NoDup_app in Hd as (Hd & Hnin & _).
    eexists _, _. split; [by apply pop_spec|]. split; [exact Hst'|].
    split_and!.
    + by apply (invariant_intro allocated _ _ _ _ _ Hst').
    + done.
    + intros Hin. apply (Hnin p Hin). by apply list_elem_of_singleton.
  - intros st stack s live e Hst Hinv Hct Hnn Hg.
    pose proof (invariant_elim allocated _ _ _ _ _ Hst Hinv) as Hl.
    destruct (Stack_copy s e (world st)) as [p w'] eqn:Hcp.
    destruct (push_spec st stack s live [] e p w' Hst Hcp)
      as (st' & s' & junk' & Hp & Hst' & Hw & _ & _ & -> & _); [done|].
    exists st', s'. split_and!; [done|done|].
    apply (invariant_intro allocated _ _ _ _ _ Hst'). rewrite Hw.
    by apply (copy_owned allocated val (Stack_copy s) e (world st)).
  - intros st stack s live junk Hst.
    pose proof (cleared_is_stack _ _ _ _ _ Hst) as Hst'.
    eexists _, _.
    split; [by apply (clear_spec st stack s live junk)|]. split; [exact Hst'|].
    by apply (invariant_intro allocated _ _ _ _ _ Hst').
  - intros st stack s live junk Hst Hinv Hct Hnn Hg.
    destruct (invariant_elim allocated _ _ _ _ _ Hst Hinv) as [Hl Hd].
    destruct (copy_all (Stack_copy s) live (world st)) as [ps w1] eqn:Hcp.
    destruct (clone_spec st stack s live junk ps w1 Hst Hcp Hg)
      as (st1 & sc & junkc & Hclone & Hsc & Hw1 & _ & _ & Hk).
    destruct (is_stack_keeps _ _ _ _ _ _ _ Hst Hk) as [Hst1 _].
    destruct (copy_all_owned allocated val _ _ _ _ _ Hct Hnn Hcp)
      as (Hps & Hfresh & Hmono).
    pose proof Hst as (_ & Hs & _).
    exists (fresh_addr (structs st)), st1, sc, ps, junkc.
    split_and!; [done| |done| | |].
    + apply not_eq_sym, (fresh_addr_ne _ _ _ Hs).
    + apply (invariant_intro allocated _ _ _ _ _ Hsc). by rewrite Hw1.
    + apply (invariant_intro allocated _ _ _ _ _ Hst1). rewrite Hw1.
      by apply (live_owned_mono allocated (world st)).
    + intros p Hp Hin. rewrite Forall_forall in Hfresh, Hl.
      apply (Hfresh p Hp). by destruct (Hl p Hin).
Qed.

End Facts.

(** * Further properties of the code *)

Section Extras.

Context {W : Type} {allocator : Allocator}.

Local Abbreviation state := (@state W).
Local Abbreviation Stack := (@Stack W).
Local Abbreviation M := (@M W).
Local Abbreviation StackCopyFunc := (@StackCopyFunc W).
Local Abbreviation StackFreeFunc := (@StackFreeFunc W).
Local Abbreviation StackCompareFunc := (@StackCompareFunc W).

Implicit Types (st : state) (s sc sh so : Stack) (w : W).

(** ** Teardown *)

Lemma free_stack_spec st stack s live junk :
  is_stack st stack s live junk →
  Stack_data s ≠ NULL →
  free_stack stack st
  = Ret tt (mkState (delete stack (structs st))
                    (delete (Stack_data s) (arrays st))
                    (free_all (Stack_free_func s) live (world st))).
Proof.
  intros Hst Hd. pose proof Hst as (Hn & Hs & Ha & _).
  unfold free_stack. destruct (Z.eqb_spec stack NULL); [done|].
  rewrite (bind_Ret _ _ _ _ _ (clear_spec _ _ _ _ _ Hst)).
  pose proof (cleared_is_stack _ _ _ _ _ Hst) as (_ & Hs' & _).
  rewrite (bind_Ret _ _ _ _ _ (load_Stack_eq _ _ _ Hn Hs')).
  unfold bind at 1. unfold free_array. simpl.
  destruct (Z.eqb_spec (Stack_data s) NULL); [done|].
  rewrite Ha. unfold free_Stack. simpl.
  destruct (Z.eqb_spec stack NULL); [done|].
  rewrite lookup_insert_eq. unfold set_structs, set_arrays. simpl.
  by rewrite delete_insert_eq.
Qed.

Lemma bind_Undefined {A B} (c : M A) (k : A → M B) st :
  c st = Undefined → bind c k st = Undefined.
Proof. unfold bind. by intros ->. Qed.

Lemma load_Stack_dangling st stack :
  structs st !! stack = None → load_Stack stack st = Undefined.
Proof.
  intros H. unfold load_Stack. destruct (stack =? NULL); [done|]. by rewrite H.
Qed.

(** X1.  [free_stack] passes every live element to the free function,
    once each in index order, and releases the buffer and the struct;
    every other struct and array stays as it was.  The handle is dangling
    afterwards: a second [free_stack], or any other use, is undefined. *)
Theorem free_stack_releases_everything st stack s live junk :
  is_stack st stack s live junk →
  Stack_data s ≠ NULL →
  ∃ st',
    free_stack stack st = Ret tt st' ∧
    world st' = free_all (Stack_free_func s) live (world st) ∧
    structs st' = delete stack (structs st) ∧
    arrays st' = delete (Stack_data s) (arrays st) ∧
    free_stack stack st' = Undefined ∧
    size stack st' = Undefined ∧
    (∀ e, push stack e st' = Undefined).
Proof.
  intros Hst Hd. pose proof Hst as (Hn & _).
  eexists. split; [by apply (free_stack_spec st stack s live junk)|].
  set (st' := mkState _ _ _).
  assert (Hload : load_Stack stack st' = Undefined).
  { apply load_Stack_dangling. apply lookup_delete_eq. }
  split_and!; try done.
  - unfold free_stack. destruct (Z.eqb_spec stack NULL); [done|].
    apply bind_Undefined. unfold clear.
    destruct (Z.eqb_spec stack NULL); [done|]. by apply bind_Undefined.
  - unfold size. destruct (Z.eqb_spec stack NULL); [done|].
    by apply bind_Undefined.
  - intros e. unfold push. destruct (Z.eqb_spec stack NULL); [done|].
    by apply bind_Undefined.
Qed.

(** What [push] and [pop] touch: the struct and its buffer, nothing
    else is added to or removed from the two stores. *)
Lemma push_footprint st stack s live junk e :
  is_stack st stack s live junk →
  Stack_data s ≠ NULL →
  post (push stack e st) (fun _ st' =>
    ∃ s' junk',
      is_stack st' stack s' (live ++ [(Stack_copy s e (world st)).1]) junk' ∧
      same_funcs s s' ∧
      Stack_data s' ≠ NULL ∧
      delete stack (structs st') = delete stack (structs st) ∧
      delete (Stack_data s') (arrays st') = delete (Stack_data s) (arrays st)).
Proof.
  intros Hst Hd.
  destruct (Stack_copy s e (world st)) as [p w'] eqn:Hcp. simpl.
  destruct junk as [|x junk].
  - destruct (granted (grown (Stack_capacity s) * sizeof_ptr)) eqn:Hg.
    2:{ by rewrite (push_exit _ _ _ _ _ Hst Hg). }
    pose proof (grow_spec _ _ _ _ _ Hst Hg) as Hgrow.
    pose proof (grown_state_is_stack _ _ _ _ _ Hst Hg) as Hst1.
    pose proof Hst as (Hn & Hs & Ha & Hsz & Hc & Hm).
    simpl in Hc. rewrite MAX_SLOTS_val in Hm.
    set (st1 := grown_state st stack s ((Ptr <$> live) ++ [])) in *.
    set (s1 := set_data_capacity s _ _) in *.
    assert (Hlt : 0 < grown (Stack_capacity s) - Stack_capacity s).
    { unfold grown, STACK_INITIAL_CAPACITY.
      destruct (Z.eqb_spec (Stack_capacity s) 0); lia. }
    destruct (Z.to_nat (grown (Stack_capacity s) - Stack_capacity s)) as [|k] eqn:Ek; [lia|].
    simpl in Hst1.
    pose proof (push_no_grow st1 stack s1 live Indet (replicate k Indet) e p w' Hst1) as Hp.
    assert (Hw : world st1 = world st) by done.
    rewrite Hw in Hp. specialize (Hp Hcp).
    pose proof Hst1 as (_ & Hs1 & _ & Hsz1 & Hc1 & Hm1).
    rewrite (push_do_grow st st1 stack s e Hn Hs) by (done || lia).
    rewrite <- (push_skip_grow st1 stack s1 e Hn Hs1) by (simpl in *; lia).
    rewrite Hp. simpl.
    exists (set_size s1 (Stack_size s1 + 1)), (replicate k Indet).
    split_and!.
    + unfold is_stack. simpl. rewrite !lookup_insert_eq.
      split_and!; try done; rewrite length_app; simpl in *; lia.
    + done.
    + apply fresh_addr_not_null.
    + by rewrite !delete_insert_eq.
    + rewrite !delete_insert_eq. apply delete_id, fresh_addr_None.
  - pose proof (push_no_grow _ _ _ _ _ _ _ _ _ Hst Hcp) as Hp.
    pose proof Hst as (Hn & Hs & Ha & Hsz & Hc & Hm). simpl in Hc.
    rewrite Hp. simpl.
    exists (set_size s (Stack_size s + 1)), junk.
    split_and!.
    + unfold is_stack. simpl. rewrite !lookup_insert_eq.
      split_and!; try done; rewrite length_app; simpl; lia.
    + done.
    + done.
    + by rewrite delete_insert_eq.
    + by rewrite delete_insert_eq.
Qed.

Lemma run_mutations_footprint stack ms : ∀ st s live junk,
  is_stack st stack s live junk →
  Stack_data s ≠ NULL →
  post (run_mutations stack ms st) (fun _ st' =>
    ∃ s' live' junk',
      is_stack st' stack s' live' junk' ∧
      Stack_data s' ≠ NULL ∧
      delete stack (structs st') = delete stack (structs st) ∧
      delete (Stack_data s') (arrays st') = delete (Stack_data s) (arrays st)).
Proof.
  induction ms as [|[e|] ms IH]; intros st s live junk Hst Hd.
  - simpl. by exists s, live, junk.
  - simpl. eapply post_bind; [apply (push_footprint _ _ _ _ _ e Hst Hd)|].
    intros a st1 (s1 & junk1 & Hst1 & _ & Hd1 & Hs1 & Ha1).
    eapply post_mono; [apply (IH _ _ _ _ Hst1 Hd1)|].
    intros _ st2 (s2 & live2 & junk2 & Hst2 & Hd2 & Hs2 & Ha2).
    exists s2, live2, junk2. split_and!; [done|done|congruence|congruence].
  - simpl. destruct (decide (live = [])) as [->|Hnil].
    + rewrite (bind_Ret _ _ _ _ _ (pop_empty _ _ _ _ Hst)). by apply (IH _ _ _ _ Hst).
    + destruct (exists_last Hnil) as (live' & p & ->).
      rewrite (bind_Ret _ _ _ _ _ (pop_spec _ _ _ _ _ _ Hst)).
      pose proof (popped_is_stack _ _ _ _ _ _ Hst) as Hst1.
      eapply post_mono; [apply (IH _ _ _ _ Hst1 Hd)|].
      intros _ st2 (s2 & live2 & junk2 & Hst2 & Hd2 & Hs2 & Ha2).
      exists s2, live2, junk2. split_and!; [done|done| |].
      * rewrite Hs2. unfold popped. simpl. by rewrite delete_insert_eq.
      * rewrite Ha2. unfold popped. simpl. by rewrite delete_insert_eq.
Qed.

(** X2.  A stack's life leaves nothing of the container behind: after
    [new_stack], any sequence of pushes and pops, and [free_stack], the
    store of structs and the store of arrays are what they were before
    [new_stack].  (A refused allocation makes the program exit instead.) *)
Theorem stack_lifetime_leaks_no_container_memory
    (copy_func : StackCopyFunc) (free_func : StackFreeFunc)
    (cmp_func : option StackCompareFunc) (ms : list mutation) st :
  post ((h <- new_stack copy_func free_func cmp_func ;;
         run_mutations h ms ;;
         free_stack h) st)
       (fun _ st' => structs st' = structs st ∧ arrays st' = arrays st).
Proof.
  eapply post_bind; [apply new_stack_post|].
  intros h st0 [-> ->].
  pose proof (new_state_is_stack st copy_func free_func cmp_func) as H0.
  eapply post_bind.
  - apply (run_mutations_footprint _ ms _ _ _ _ H0). apply fresh_addr_not_null.
  - intros _ st1 (s1 & live1 & junk1 & H1 & Hd1 & Hs1 & Ha1).
    rewrite (free_stack_spec _ _ _ _ _ H1 Hd1). simpl. split.
    + rewrite Hs1. unfold new_state. simpl.
      rewrite delete_insert_eq. apply delete_id, fresh_addr_None.
    + rewrite Ha1. unfold new_state. simpl.
      rewrite delete_insert_eq. apply delete_id, fresh_addr_None.
Qed.

(** X3.  [pop] hands the element over: it does not call the free
    function, and the element is not released by a later [free_stack],
    which passes exactly the remaining elements to the free function. *)
Theorem popped_element_is_not_released st stack s live p junk :
  is_stack st stack s (live ++ [p]) junk →
  Stack_data s ≠ NULL →
  ∃ st1 st2,
    pop stack st = Ret p st1 ∧
    world st1 = world st ∧
    free_stack stack st1 = Ret tt st2 ∧
    world st2 = free_all (Stack_free_func s) live (world st).
Proof.
  intros Hst Hd.
  pose proof (popped_is_stack _ _ _ _ _ _ Hst) as Hst1.
  eexists _, _. split; [by apply pop_spec|]. split; [done|].
  split; [by apply (free_stack_spec _ _ _ _ _ Hst1)|]. done.
Qed.

(** ** Compositions of [push], [pop] and [peek] *)

(** X4.  [push] followed by [pop] returns the copy that [push] made and
    leaves the live elements and the size as they were before the
    [push]. *)
Theorem push_then_pop_returns_the_copy st stack s live junk e :
  is_stack st stack s live junk →
  (junk = [] → granted (grown (Stack_capacity s) * sizeof_ptr) = true) →
  ∃ st1 st2 s2 junk2,
    push stack e st = Ret tt st1 ∧
    pop stack st1 = Ret (Stack_copy s e (world st)).1 st2 ∧
    is_stack st2 stack s2 live junk2 ∧
    size stack st2 = Ret (Stack_size s) st2 ∧
    world st2 = (Stack_copy s e (world st)).2.
Proof.
  intros Hst Hg.
  destruct (Stack_copy s e (world st)) as [p w'] eqn:Hcp.
  destruct (push_spec st stack s live junk e p w' Hst Hcp Hg)
    as (st1 & s1 & junk1 & Hp & Hst1 & Hw & _).
  pose proof (popped_is_stack _ _ _ _ _ _ Hst1) as Hst2.
  eexists st1, _, _, _. split; [done|]. split; [by apply pop_spec|].
  split; [exact Hst2|]. split; [|done].
  rewrite (size_spec _ _ _ _ _ Hst2).
  by destruct Hst as (_ & _ & _ & -> & _).
Qed.

(** X5.  On a non-empty stack [peek] returns the element at index
    [size - 1] and changes nothing; the [pop] that follows returns the
    same pointer. *)
Theorem peek_returns_top_and_keeps_state st stack s live p junk :
  is_stack st stack s (live ++ [p]) junk →
  peek stack st = Ret p st ∧
  ∃ st', (_ <- peek stack ;; pop stack) st = Ret p st' ∧
         size stack st' = Ret (Stack_size s - 1) st'.
Proof.
  intros Hst. pose proof (peek_spec _ _ _ _ _ _ Hst) as Hpeek.
  split; [done|]. eexists.
  rewrite (bind_Ret _ _ _ _ _ Hpeek). split; [by apply pop_spec|].
  rewrite (size_spec _ _ _ _ _ (popped_is_stack _ _ _ _ _ _ Hst)).
  destruct Hst as (_ & _ & _ & -> & _). rewrite length_app. simpl.
  f_equal. lia.
Qed.

(** X6.  Pushing into free slots never calls the allocator: when the
    buffer has room for all of [es], [push_all] returns whatever the
    allocator would answer, and the capacity and the address of the
    buffer stay as they were. *)
Theorem pushes_into_free_slots_do_not_allocate stack es : ∀ st s live junk,
  is_stack st stack s live junk →
  (length es <= length junk)%nat →
  ∃ st' s',
    push_all stack es st = Ret tt st' ∧
    is_stack st' stack s' (live ++ (copy_all (Stack_copy s) es (world st)).1)
             (drop (length es) junk) ∧
    Stack_capacity s' = Stack_capacity s ∧
    Stack_data s' = Stack_data s.
Proof.
  induction es as [|e es IH]; intros st s live junk Hst Hlen.
  - exists st, s. simpl. rewrite app_nil_r, drop_0. by split_and!.
  - destruct junk as [|x junk]; [simpl in Hlen; lia|].
    simpl. destruct (Stack_copy s e (world st)) as [p w1] eqn:Hcp.
    pose proof (push_no_grow _ _ _ _ _ _ _ _ _ Hst Hcp) as Hp.
    set (st1 := mkState _ _ w1) in Hp.
    assert (Hst1 : is_stack st1 stack (set_size s (Stack_size s + 1)) (live ++ [p]) junk).
    { destruct Hst as (Hn & Hs & Ha & Hsz & Hc & Hm). unfold is_stack. simpl in *.
      rewrite !lookup_insert_eq.
      split_and!; try done; rewrite length_app; simpl; lia. }
    destruct (IH st1 _ _ _ Hst1) as (st2 & s2 & Hp2 & Hst2 & Hc2 & Hd2).
    { simpl in Hlen. lia. }
    exists st2, s2. rewrite (bind_Ret _ _ _ _ _ Hp).
    simpl in Hst2.
    destruct (copy_all (Stack_copy s) es w1) as [ps w2] eqn:Hps.
    simpl in *. rewrite <- app_assoc in Hst2. by split_and!.
Qed.

(** ** Missing checks *)

(** X7.  Without a comparison function, [contains] answers false on an
    empty stack, where it calls nothing, and is undefined on every
    non-empty stack, where it calls the null function pointer. *)
Theorem contains_without_cmp st stack s live junk x :
  is_stack st stack s live junk →
  Stack_cmp s = None →
  contains stack x st = (if decide (live = []) then Ret false st else Undefined).
Proof.
  intros Hst Hf. destruct (decide (live = [])) as [->|Hne].
  - by apply (contains_empty st stack s junk).
  - destruct live as [|p live]; [done|].
    destruct Hst as (Hn & Hs & Ha & Hsz & _). unfold contains.
    destruct (Z.eqb_spec stack NULL); [done|].
    rewrite (bind_Ret _ _ _ _ _ (load_Stack_eq _ _ _ Hn Hs)).
    rewrite Hsz, Nat2Z.id. simpl contains_loop.
    erewrite bind_Ret.
    2:{ apply (load_slot_eq st _ _ 0%nat p Ha). done. }
    unfold bind, call_cmp. by rewrite Hf.
Qed.

(** X8.  [reverse] and [to_array] lack the null check of the other
    functions: on a null handle they dereference it, which is undefined,
    while [free_stack] on a null handle does nothing. *)
Theorem reverse_and_to_array_on_null st out_size :
  reverse NULL st = Undefined ∧
  to_array NULL out_size st = Undefined ∧
  free_stack NULL st = Ret tt st.
Proof. by split_and!. Qed.

(** ** [reverse] composed with other calls *)

(** X9.  After [reverse], successive pops return the elements in the
    order in which they were pushed, and leave the stack empty. *)
Theorem reverse_then_pops_in_push_order st stack s live junk :
  is_stack st stack s live junk →
  ∃ st1 st2,
    reverse stack st = Ret tt st1 ∧
    pop_n stack (length live) st1 = Ret live st2 ∧
    is_empty stack st2 = Ret true st2.
Proof.
  intros Hst. pose proof (reversed_is_stack _ _ _ _ _ Hst) as Hst1.
  destruct (pop_n_spec stack live _ s [] junk Hst1) as (st2 & s2 & Hp & Hst2 & _).
  eexists _, st2. split; [by apply reverse_spec|]. split; [done|].
  apply (is_empty_spec _ _ _ _ _ Hst2).
Qed.

(** X10.  [reverse] does not change what [contains] answers. *)
Theorem contains_after_reverse st stack s live junk f x :
  is_stack st stack s live junk →
  Stack_cmp s = Some f →
  ∃ st1 b,
    reverse stack st = Ret tt st1 ∧
    contains stack x st = Ret b st ∧
    contains stack x st1 = Ret b st1.
Proof.
  intros Hst Hf. pose proof (reversed_is_stack _ _ _ _ _ Hst) as Hst1.
  eexists _, _. split; [by apply reverse_spec|].
  split; [by apply (contains_spec st stack s live junk)|].
  rewrite (contains_spec _ _ _ _ _ _ x Hst1 Hf). simpl. f_equal.
  apply eq_true_iff_eq. rewrite !existsb_exists.
  split; intros (p & Hin & Hp); exists p; split; try done.
  - by apply in_rev in Hin.
  - by apply (proj1 (in_rev _ _)).
Qed.

(** ** Construction *)

(** X11.  [new_stack] never returns [NULL]: when both requests are
    granted it returns a handle that was not in use, to an empty stack of
    capacity 8, and leaves every existing struct and array alone; when
    one of them is refused it exits. *)
Theorem new_stack_returns_fresh_or_exits
    (copy_func : StackCopyFunc) (free_func : StackFreeFunc)
    (cmp_func : option StackCompareFunc) st :
  (granted sizeof_Stack && granted (STACK_INITIAL_CAPACITY * sizeof_ptr) = false →
   new_stack copy_func free_func cmp_func st = Exit) ∧
  (granted sizeof_Stack && granted (STACK_INITIAL_CAPACITY * sizeof_ptr) = true →
   ∃ stack st',
     new_stack copy_func free_func cmp_func st = Ret stack st' ∧
     stack ≠ NULL ∧
     structs st !! stack = None ∧
     size stack st' = Ret 0 st' ∧
     capacity stack st' = Ret 8 st' ∧
     is_empty stack st' = Ret true st' ∧
     (∀ h s, structs st !! h = Some s → structs st' !! h = Some s) ∧
     (∀ a buf, arrays st !! a = Some buf → arrays st' !! a = Some buf)).
Proof.
  split.
  - intros Hg. pose proof (new_stack_post st copy_func free_func cmp_func) as Hp.
    destruct (granted sizeof_Stack) eqn:G1; simpl in Hg.
    + unfold new_stack. rewrite G1. simpl. unfold bind, malloc_array.
      replace (wrap (STACK_INITIAL_CAPACITY * sizeof_ptr))
        with (STACK_INITIAL_CAPACITY * sizeof_ptr) by done.
      by rewrite Hg.
    + unfold new_stack. by rewrite G1.
  - intros [G1 G2]%andb_true_iff.
    pose proof (new_state_is_stack st copy_func free_func cmp_func) as H0.
    pose proof (new_state_keeps st copy_func free_func cmp_func) as [Ks Ka].
    eexists _, _. split; [by apply new_stack_spec|]. split_and!.
    + apply fresh_addr_not_null.
    + apply fresh_addr_None.
    + apply (size_spec _ _ _ _ _ H0).
    + apply (capacity_spec _ _ _ _ _ H0).
    + apply (is_empty_spec _ _ _ _ _ H0).
    + done.
    + done.
Qed.

(** ** What any sequence of calls keeps *)

Lemma push_shape_post st stack s live junk e :
  is_stack st stack s live junk →
  Stack_data s ≠ NULL →
  post (push stack e st) (fun _ st' =>
    ∃ s' junk',
      is_stack st' stack s' (live ++ [(Stack_copy s e (world st)).1]) junk' ∧
      same_funcs s s' ∧
      (Stack_capacity s' = Stack_capacity s ∨
       Stack_capacity s' = grown (Stack_capacity s)) ∧
      Stack_data s' ≠ NULL ∧
      frame stack (Stack_data s) (Stack_data s') st st').
Proof.
  intros Hst Hd.
  assert (Hcap : post (push stack e st) (fun _ st' =>
            ∃ s' junk',
              is_stack st' stack s' (live ++ [(Stack_copy s e (world st)).1]) junk' ∧
              same_funcs s s' ∧
              (Stack_capacity s' = Stack_capacity s ∨
               Stack_capacity s' = grown (Stack_capacity s)) ∧
              frame stack (Stack_data s) (Stack_data s') st st')).
  { destruct (Stack_copy s e (world st)) as [p w'] eqn:Hcp. simpl.
    assert (Hcases : junk ≠ [] ∨
              granted (grown (Stack_capacity s) * sizeof_ptr) = true ∨
              junk = [] ∧ granted (grown (Stack_capacity s) * sizeof_ptr) = false).
    { destruct junk; [|by left].
      destruct (granted (grown (Stack_capacity s) * sizeof_ptr)); auto. }
    destruct Hcases as [Hj|[Hg|[-> Hg]]].
    - destruct (push_spec st stack s live junk e p w' Hst Hcp)
        as (st' & s' & junk' & -> & Hst' & _ & Hf & Hc & _ & _ & Hfr); [done|].
      simpl. exists s', junk'. split_and!; try done.
      rewrite Hc. destruct (Stack_size s =? Stack_capacity s); auto.
    - destruct (push_spec st stack s live junk e p w' Hst Hcp)
        as (st' & s' & junk' & -> & Hst' & _ & Hf & Hc & _ & _ & Hfr); [done|].
      simpl. exists s', junk'. split_and!; try done.
      rewrite Hc. destruct (Stack_size s =? Stack_capacity s); auto.
    - by rewrite (push_exit _ _ _ _ _ Hst Hg). }
  eapply post_mono;
    [apply (post_and _ _ _ Hcap (push_footprint _ _ _ _ _ e Hst Hd))|].
  intros _ st' [(s' & junk' & H1 & H2 & H3 & H4) (s2 & junk2 & H5 & _ & H6 & _)].
  destruct (is_stack_unique _ _ _ _ _ _ _ _ H1 H5) as (-> & _ & _).
  by exists s', junk'.
Qed.

Lemma clone_loop_frame_post stack c s rest : ∀ pre junk st sc livec junkc,
  is_stack st stack s (pre ++ rest) junk →
  is_stack st c sc livec junkc →
  c ≠ stack → Stack_data s ≠ Stack_data sc →
  post (for_loop (length rest) (Z.of_nat (length pre))
          (fun i => s <- load_Stack stack ;;
                    e <- load_slot (Stack_data s) i ;;
                    push c e) st)
       (fun _ st' => ∃ d', frame c (Stack_data sc) d' st st').
Proof.
  induction rest as [|e rest IH]; intros pre junk st sc livec junkc Hst Hsc Hne Hd.
  - simpl. eexists. apply frame_refl.
  - simpl for_loop. eapply post_bind.
    + pose proof Hst as (Hn & Hs & Ha & _).
      rewrite (bind_Ret _ _ _ _ _ (load_Stack_eq _ _ _ Hn Hs)).
      erewrite bind_Ret.
      2:{ eapply load_slot_eq; [exact Ha|].
          rewrite fmap_app, <- app_assoc. simpl.
          rewrite <- (length_fmap Ptr pre). apply lookup_mid_head. }
      apply (push_post _ _ _ _ _ e Hsc).
    + intros a st1 (sc1 & junk1 & Hsc1 & _ & _ & _ & _ & Hfr1).
      destruct (is_stack_frame _ _ _ _ _ _ _ _ _ Hst Hfr1 (not_eq_sym Hne) Hd)
        as [Hst1 Hd1].
      replace (Z.of_nat (length pre) + 1) with (Z.of_nat (length (pre ++ [e])))
        by (rewrite length_app; simpl; lia).
      replace (pre ++ e :: rest) with ((pre ++ [e]) ++ rest) in *
        by (by rewrite <- app_assoc).
      eapply post_mono.
      * eapply (IH (pre ++ [e]) junk st1 sc1); eauto.
      * intros _ st2 [d' Hfr2]. exists d'.
        by apply (frame_trans _ _ (Stack_data sc1) _ _ st1).
Qed.

(** [clone] leaves every existing struct and array as it was. *)
Lemma clone_keeps_arrays_post st stack s live junk :
  is_stack st stack s live junk →
  post (clone stack st) (fun _ st' =>
    (∀ h x, structs st !! h = Some x → structs st' !! h = Some x) ∧
    (∀ a buf, arrays st !! a = Some buf → arrays st' !! a = Some buf)).
Proof.
  intros Hst. pose proof Hst as (Hn & Hs & Ha & Hsz & _).
  unfold clone. destruct (Z.eqb_spec stack NULL); [done|].
  rewrite (bind_Ret _ _ _ _ _ (load_Stack_eq _ _ _ Hn Hs)).
  eapply post_bind; [apply new_stack_post|].
  intros c st0 [-> ->].
  pose proof (new_state_is_stack st (Stack_copy s) (Stack_free_func s) (Stack_cmp s))
    as Hc0.
  pose proof (new_state_keeps st (Stack_copy s) (Stack_free_func s) (Stack_cmp s))
    as [Ks Ka].
  destruct (is_stack_keeps st
              (new_state st (Stack_copy s) (Stack_free_func s) (Stack_cmp s))
              _ _ _ _ (fresh_addr (arrays st)) Hst) as [Hst0 Hd].
  { split; [done|]. intros a buf Hh. split; [|by apply Ka].
    apply (fresh_addr_ne _ _ _ Hh). }
  eapply post_bind.
  - rewrite Hsz, Nat2Z.id.
    eapply (clone_loop_frame_post stack _ s live [] junk); eauto.
    apply not_eq_sym, (fresh_addr_ne _ _ _ Hs).
  - intros a st1 [d' [Fs Fa]]. simpl. split.
    + intros h x Hh. apply Fs; [|by apply Ks]. apply (fresh_addr_ne _ _ _ Hh).
    + intros a' buf Hh.
      apply Fa; [|by apply Ka]. simpl. apply (fresh_addr_ne _ _ _ Hh).
Qed.

Lemma run_call_shape st stack s live junk c :
  is_stack st stack s live junk →
  Stack_data s ≠ NULL →
  call_ok s live c →
  post (run_call stack c st) (fun _ st' =>
    ∃ s' live' junk',
      is_stack st' stack s' live' junk' ∧
      length live' = size_after (length live) c ∧
      same_funcs s s' ∧
      (Stack_capacity s' = Stack_capacity s ∨
       Stack_capacity s' = grown (Stack_capacity s)) ∧
      Stack_data s' ≠ NULL ∧
      frame stack (Stack_data s) (Stack_data s') st st').
Proof.
  intros Hst Hd Hok.
  assert (Hsame : ∀ st', is_stack st' stack s live junk →
            length live = size_after (length live) c →
            (∀ h x, structs st !! h = Some x → structs st' !! h = Some x) →
            (∀ a buf, arrays st !! a = Some buf → arrays st' !! a = Some buf) →
            ∃ s' live' junk', is_stack st' stack s' live' junk' ∧
              length live' = size_after (length live) c ∧
              same_funcs s s' ∧
              (Stack_capacity s' = Stack_capacity s ∨
               Stack_capacity s' = grown (Stack_capacity s)) ∧
              Stack_data s' ≠ NULL ∧
              frame stack (Stack_data s) (Stack_data s') st st').
  { intros st' H Hlen Hks Hka. exists s, live, junk.
    split_and!; [done|done|done|by left|done|]. split.
    - intros h x _ Hh. by apply Hks.
    - intros a buf Hne Ha. split; [done|by apply Hka]. }
  destruct c as [e| | | | | | |e| | |o]; simpl.
  - eapply post_mono; [apply (push_shape_post _ _ _ _ _ e Hst Hd)|].
    intros _ st' (s' & junk' & H1 & H2 & H3 & H4 & H5).
    eexists s', _, junk'. split_and!; try done.
    rewrite length_app. simpl. lia.
  - destruct (decide (live = [])) as [->|Hne].
    + rewrite (bind_Ret _ _ _ _ _ (pop_empty _ _ _ _ Hst)). by apply Hsame.
    + destruct (exists_last Hne) as (live' & p & ->).
      rewrite (bind_Ret _ _ _ _ _ (pop_spec _ _ _ _ _ _ Hst)). simpl.
      exists (set_size s (Z.of_nat (length live'))), live', (Ptr NULL :: junk).
      split_and!; [by apply (popped_is_stack _ _ _ _ p)| |done|by left|done|].
      { rewrite length_app. simpl. lia. }
      apply (popped_frame st stack s live' junk).
  - destruct (decide (live = [])) as [->|Hne].
    + rewrite (bind_Ret _ _ _ _ _ (peek_empty _ _ _ _ Hst)). by apply Hsame.
    + destruct (exists_last Hne) as (live' & p & ->).
      rewrite (bind_Ret _ _ _ _ _ (peek_spec _ _ _ _ _ _ Hst)). by apply Hsame.
  - rewrite (clear_spec _ _ _ _ _ Hst). simpl.
    exists (set_size s 0), [], ((Ptr <$> live) ++ junk).
    split_and!; [by apply cleared_is_stack|done|done|by left|done|].
    apply (cleared_frame st stack s live).
  - rewrite (bind_Ret _ _ _ _ _ (is_empty_spec _ _ _ _ _ Hst)). by apply Hsame.
  - rewrite (bind_Ret _ _ _ _ _ (size_spec _ _ _ _ _ Hst)). by apply Hsame.
  - rewrite (bind_Ret _ _ _ _ _ (capacity_spec _ _ _ _ _ Hst)). by apply Hsame.
  - simpl in Hok. destruct (decide (live = [])) as [->|Hne].
    + rewrite (bind_Ret _ _ _ _ _ (contains_empty _ _ _ _ _ Hst)). by apply Hsame.
    + destruct Hok as [?|Hcmp]; [done|].
      destruct (Stack_cmp s) as [f|] eqn:Hf; [|done].
      rewrite (bind_Ret _ _ _ _ _ (contains_spec _ _ _ _ _ _ e Hst Hf)).
      by apply Hsame.
  - eapply post_bind.
    + apply (post_and _ _ _ (clone_post _ _ _ _ _ Hst)
                            (clone_keeps_arrays_post _ _ _ _ _ Hst)).
    + intros a st' [H1 [H2 H3]]. by apply Hsame.
  - rewrite (reverse_spec _ _ _ _ _ Hst). simpl.
    exists s, (rev live), junk.
    split_and!; [by apply reversed_is_stack|by rewrite length_rev|done|by left|done|].
    apply (reversed_frame st stack s _).
  - destruct (decide (live = [])) as [->|Hne].
    { rewrite (bind_Ret _ _ _ _ _ (to_array_empty _ _ _ _ o Hst)). by apply Hsame. }
    destruct (granted (Z.of_nat (length live) * sizeof_ptr)) eqn:Hg.
    + destruct (copy_all (Stack_copy s) live (world st)) as [ps w'] eqn:Hcp.
      rewrite (bind_Ret _ _ _ _ _ (to_array_spec _ _ _ _ _ o _ _ Hst Hne Hg Hcp)).
      apply Hsame.
      * destruct Hst as (Hn & Hs & Ha & Hsz & Hc & Hm).
        unfold is_stack. simpl. split_and!; try done.
        rewrite lookup_insert_ne; [done|]. apply not_eq_sym, (fresh_addr_ne _ _ _ Ha).
      * done.
      * done.
      * intros a buf Ha. simpl. rewrite lookup_insert_ne; [done|].
        apply not_eq_sym, (fresh_addr_ne _ _ _ Ha).
    + unfold bind. by rewrite (to_array_exit _ _ _ _ _ _ Hst Hne Hg).
Qed.

Lemma run_calls_post (C : Z → Prop) stack cs : ∀ st s live junk,
  is_stack st stack s live junk →
  Stack_data s ≠ NULL →
  calls_ok (Stack_cmp s) (length live) cs →
  C (Stack_capacity s) →
  (∀ c, 0 <= c → C c → C (grown c)) →
  post (run_calls stack cs st) (fun _ st' =>
    ∃ s' live' junk',
      is_stack st' stack s' live' junk' ∧
      Stack_data s' ≠ NULL ∧
      C (Stack_capacity s') ∧
      frame stack (Stack_data s) (Stack_data s') st st').
Proof.
  induction cs as [|c cs IH]; intros st s live junk Hst Hd Hok HC Hgrown.
  - simpl. exists s, live, junk. by split_and!.
  - simpl. destruct Hok as [Hok1 Hok]. eapply post_bind.
    + apply (run_call_shape _ _ _ _ _ c Hst Hd).
      destruct c; simpl; auto.
      destruct Hok1 as [Hz|?]; [left; by apply nil_length_inv|by right].
    + intros _ st1 (s1 & live1 & junk1 & H1 & Hlen & Hf & Hc & Hd1 & Hfr).
      eapply post_mono.
      * apply (IH st1 s1 live1 junk1 H1 Hd1); [| |done].
        -- destruct Hf as (_ & _ & ->). by rewrite Hlen.
        -- destruct Hc as [->| ->]; [done|]. apply Hgrown; [|done].
           destruct (is_stack_bounds _ _ _ _ _ Hst). lia.
      * intros _ st2 (s2 & live2 & junk2 & H2 & Hd2 & HC2 & Hfr2).
        exists s2, live2, junk2. split_and!; try done.
        by apply (frame_trans _ _ (Stack_data s1) _ _ st1).
Qed.

(** X12.  The array [to_array] returns belongs to the caller: no later
    call on the stack changes it, and it outlives the stack's
    [free_stack].  The stack is not empty, its buffer pointer is not
    null and the allocator grants the array; the stack may or may not
    have a comparison function, and the calls are any sequence that calls
    [contains] only while the stack is empty or when it has one. *)
Theorem to_array_result_is_a_snapshot st stack s live junk out_size :
  is_stack st stack s live junk →
  Stack_data s ≠ NULL →
  live ≠ [] →
  granted (Z.of_nat (length live) * sizeof_ptr) = true →
  ∃ a n st1 copies,
    to_array stack out_size st = Ret (a, n) st1 ∧
    arrays st1 !! a = Some copies ∧
    (∀ cs, calls_ok (Stack_cmp s) (length live) cs →
           post (run_calls stack cs st1)
                (fun _ st' => arrays st' !! a = Some copies)) ∧
    (∀ cs, calls_ok (Stack_cmp s) (length live) cs →
           post ((run_calls stack cs ;; free_stack stack) st1)
                (fun _ st' => arrays st' !! a = Some copies)).
Proof.
  intros Hst Hd Hne Hg.
  destruct (copy_all (Stack_copy s) live (world st)) as [ps w'] eqn:Hcp.
  pose proof (to_array_spec _ _ _ _ _ out_size _ _ Hst Hne Hg Hcp) as Hta.
  set (a := fresh_addr (arrays st)) in *.
  set (st1 := mkState _ _ w') in *.
  pose proof Hst as (Hn & Hs & Ha & Hsz & Hc & Hm).
  assert (Hane : a ≠ Stack_data s) by (apply not_eq_sym, (fresh_addr_ne _ _ _ Ha)).
  assert (Hst1 : is_stack st1 stack s live junk).
  { unfold is_stack. simpl. split_and!; try done. by rewrite lookup_insert_ne. }
  assert (Ha1 : arrays st1 !! a = Some (Ptr <$> ps)) by apply lookup_insert_eq.
  assert (Hcalls : ∀ cs, calls_ok (Stack_cmp s) (length live) cs →
            post (run_calls stack cs st1) (fun _ st' =>
              ∃ s' live' junk', is_stack st' stack s' live' junk' ∧
                Stack_data s' ≠ NULL ∧
                a ≠ Stack_data s' ∧ arrays st' !! a = Some (Ptr <$> ps))).
  { intros cs Hok. eapply post_mono.
    - by apply (run_calls_post (fun _ => True) stack cs st1 s live junk Hst1 Hd Hok).
    - intros _ st' (s' & live' & junk' & H1 & H2 & _ & [_ H3]).
      destruct (H3 a _ Hane Ha1) as [H4 H5].
      by exists s', live', junk'. }
  eexists a, _, st1, (Ptr <$> ps). split_and!; [done|done| |].
  - intros cs Hok. eapply post_mono; [by apply Hcalls|].
    by intros _ st' (_ & _ & _ & _ & _ & _ & H).
  - intros cs Hok. eapply post_bind; [by apply Hcalls|].
    intros _ st' (s' & live' & junk' & H1 & H2 & H3 & H4).
    rewrite (free_stack_spec _ _ _ _ _ H1 H2). simpl.
    by rewrite lookup_delete_ne.
Qed.

(** X13.  The capacity of a stack made by [new_stack], with or without
    a comparison function, is 8 times a power of two, whatever is called
    on it: any sequence of calls that calls [contains] only while the
    stack is empty or when it has a comparison function. *)
Theorem capacity_is_eight_times_a_power_of_two
    (copy_func : StackCopyFunc) (free_func : StackFreeFunc)
    (cmp_func : option StackCompareFunc) (cs : list call) st :
  calls_ok cmp_func 0 cs →
  post ((h <- new_stack copy_func free_func cmp_func ;;
         run_calls h cs ;;
         capacity h) st)
       (fun c _ => ∃ k : nat, c = 8 * 2 ^ Z.of_nat k).
Proof.
  intros Hok.
  eapply post_bind; [apply new_stack_post|].
  intros h st0 [-> ->].
  pose proof (new_state_is_stack st copy_func free_func cmp_func) as H0.
  eapply post_bind.
  - apply (run_calls_post (fun c => ∃ k : nat, c = 8 * 2 ^ Z.of_nat k)
             _ cs _ _ _ _ H0); simpl.
    + apply fresh_addr_not_null.
    + done.
    + by exists 0%nat.
    + intros c Hc [k ->]. exists (S k). unfold grown.
      assert (0 < 2 ^ Z.of_nat k) by (apply Z.pow_pos_nonneg; lia).
      destruct (Z.eqb_spec (8 * 2 ^ Z.of_nat k) 0); [lia|].
      rewrite Nat2Z.inj_succ, Z.pow_succ_r by lia. lia.
  - intros _ st1 (s1 & live1 & junk1 & H1 & _ & HC & _).
    by rewrite (capacity_spec _ _ _ _ _ H1).
Qed.

(** ** How far the buffer grows *)

Lemma capacity_after_bound n : ∀ c sz,
  0 < c → 0 <= sz <= c → (c = 8 ∨ c < 2 * sz) →
  sz + Z.of_nat n <= capacity_after c sz n ∧
  (capacity_after c sz n = 8 ∨ capacity_after c sz n < 2 * (sz + Z.of_nat n)).
Proof.
  induction n as [|n IH]; intros c sz Hc Hsz Hor.
  - simpl. rewrite Z.add_0_r. split; [lia|done].
  - simpl capacity_after. rewrite Nat2Z.inj_succ.
    replace (sz + Z.succ (Z.of_nat n)) with ((sz + 1) + Z.of_nat n) by lia.
    destruct (Z.eqb_spec sz c) as [->|Hne].
    + unfold grown. destruct (Z.eqb_spec c 0); [lia|].
      apply IH; lia.
    + apply IH; lia.
Qed.

(** X14.  Pushing [n] elements onto a new stack leaves a capacity that
    holds them and is either the initial 8 or less than [2 * n]: the
    buffer is never more than twice as large as needed. *)
Theorem pushes_grow_to_less_than_twice_the_size
    (copy_func : StackCopyFunc) (free_func : StackFreeFunc)
    (cmp_func : option StackCompareFunc) (es : list Z) st :
  (∀ n, 0 <= n <= 64 + 16 * Z.of_nat (length es) → granted n = true) →
  ∃ stack st0 st1 c,
    new_stack copy_func free_func cmp_func st = Ret stack st0 ∧
    push_all stack es st0 = Ret tt st1 ∧
    size stack st1 = Ret (Z.of_nat (length es)) st1 ∧
    capacity stack st1 = Ret c st1 ∧
    Z.of_nat (length es) <= c ∧
    (c = 8 ∨ c < 2 * Z.of_nat (length es)).
Proof.
  intros Hg.
  assert (G1 : granted sizeof_Stack = true) by (apply Hg; unfold sizeof_Stack; lia).
  assert (G2 : granted (STACK_INITIAL_CAPACITY * sizeof_ptr) = true).
  { apply Hg. unfold STACK_INITIAL_CAPACITY, sizeof_ptr. lia. }
  pose proof (new_stack_spec st copy_func free_func cmp_func G1 G2) as Hnew.
  pose proof (new_state_is_stack st copy_func free_func cmp_func) as H0.
  destruct (copy_all copy_func es (world st)) as [ps w'] eqn:Hcp.
  destruct (push_all_spec _ es _ _ [] _ ps w' H0)
    as (st1 & s1 & junk1 & Hpush & H1 & _ & _ & Hcap & _); [done|done|].
  simpl in Hcap, H1.
  destruct (capacity_after_bound (length es) 8 0) as [B1 B2]; [lia|lia|by left|].
  eexists _, _, st1, _. split; [done|]. split; [done|].
  split.
  { rewrite (size_spec _ _ _ _ _ H1). by rewrite (copy_all_length _ _ _ _ _ Hcp). }
  split; [by apply (capacity_spec _ _ _ _ _ H1)|].
  rewrite Hcap. unfold STACK_INITIAL_CAPACITY. split; [lia|].
  destruct B2 as [->|B2]; [by left|right; lia].
Qed.

(** X15.  [clone] does not copy the capacity: the capacity of the clone
    depends on the size of the source only.  It holds the elements and is
    either 8 or less than twice the size, however large the buffer of the
    source has grown. *)
Theorem clone_capacity_fits_the_size st stack s live junk :
  is_stack st stack s live junk →
  (∀ n, 0 <= n <= 64 + 16 * Z.of_nat (length live) → granted n = true) →
  ∃ c st' cap,
    clone stack st = Ret c st' ∧
    size c st' = Ret (Z.of_nat (length live)) st' ∧
    capacity c st' = Ret cap st' ∧
    cap = capacity_after 8 0 (length live) ∧
    Z.of_nat (length live) <= cap ∧
    (cap = 8 ∨ cap < 2 * Z.of_nat (length live)).
Proof.
  intros Hst Hg.
  destruct (copy_all (Stack_copy s) live (world st)) as [ps w'] eqn:Hcp.
  destruct (clone_spec st stack s live junk ps w' Hst Hcp Hg)
    as (st' & sc & junkc & Hclone & Hsc & _ & _ & Hcap & _).
  destruct (capacity_after_bound (length live) 8 0) as [B1 B2]; [lia|lia|by left|].
  eexists _, st', _. split; [done|]. split.
  { rewrite (size_spec _ _ _ _ _ Hsc). by rewrite (copy_all_length _ _ _ _ _ Hcp). }
  split; [by apply (capacity_spec _ _ _ _ _ Hsc)|].
  rewrite Hcap. unfold STACK_INITIAL_CAPACITY. split; [done|]. split; [lia|].
  destruct B2 as [->|B2]; [by left|right; lia].
Qed.

(** ** The clone and its source *)

Lemma clone_loop_nonnull_post stack c s rest : ∀ pre junk st sc livec junkc,
  is_stack st stack s (pre ++ rest) junk →
  is_stack st c sc livec junkc →
  c ≠ stack → Stack_data s ≠ Stack_data sc →
  Stack_data sc ≠ NULL →
  post (for_loop (length rest) (Z.of_nat (length pre))
          (fun i => s <- load_Stack stack ;;
                    e <- load_slot (Stack_data s) i ;;
                    push c e) st)
       (fun _ st' => ∃ sc' livec' junkc',
          is_stack st' c sc' livec' junkc' ∧ Stack_data sc' ≠ NULL).
Proof.
  induction rest as [|e rest IH];
    intros pre junk st sc livec junkc Hst Hsc Hne Hd Hnn.
  - simpl. by exists sc, livec, junkc.
  - simpl for_loop. eapply post_bind.
    + pose proof Hst as (Hn & Hs & Ha & _).
      rewrite (bind_Ret _ _ _ _ _ (load_Stack_eq _ _ _ Hn Hs)).
      erewrite bind_Ret.
      2:{ eapply load_slot_eq; [exact Ha|].
          rewrite fmap_app, <- app_assoc. simpl.
          rewrite <- (length_fmap Ptr pre). apply lookup_mid_head. }
      apply (push_shape_post _ _ _ _ _ e Hsc Hnn).
    + intros a st1 (sc1 & junk1 & Hsc1 & _ & _ & Hnn1 & Hfr1).
      destruct (is_stack_frame _ _ _ _ _ _ _ _ _ Hst Hfr1 (not_eq_sym Hne) Hd)
        as [Hst1 Hd1].
      replace (Z.of_nat (length pre) + 1) with (Z.of_nat (length (pre ++ [e])))
        by (rewrite length_app; simpl; lia).
      replace (pre ++ e :: rest) with ((pre ++ [e]) ++ rest) in *
        by (by rewrite <- app_assoc).
      eapply (IH (pre ++ [e]) junk st1 sc1); eauto.
Qed.

Lemma clone_nonnull_post st stack s live junk :
  is_stack st stack s live junk →
  post (clone stack st) (fun c st' => ∃ sc livec junkc,
    is_stack st' c sc livec junkc ∧ Stack_data sc ≠ NULL).
Proof.
  intros Hst. pose proof Hst as (Hn & Hs & Ha & Hsz & _).
  unfold clone. destruct (Z.eqb_spec stack NULL); [done|].
  rewrite (bind_Ret _ _ _ _ _ (load_Stack_eq _ _ _ Hn Hs)).
  eapply post_bind; [apply new_stack_post|].
  intros c st0 [-> ->].
  pose proof (new_state_is_stack st (Stack_copy s) (Stack_free_func s) (Stack_cmp s))
    as Hc0.
  pose proof (new_state_keeps st (Stack_copy s) (Stack_free_func s) (Stack_cmp s))
    as [Ks Ka].
  destruct (is_stack_keeps st
              (new_state st (Stack_copy s) (Stack_free_func s) (Stack_cmp s))
              _ _ _ _ (fresh_addr (arrays st)) Hst) as [Hst0 Hd].
  { split; [done|]. intros a buf Hh. split; [|by apply Ka].
    apply (fresh_addr_ne _ _ _ Hh). }
  eapply post_bind.
  - rewrite Hsz, Nat2Z.id.
    eapply (clone_loop_nonnull_post stack _ s live [] junk); eauto.
    + apply not_eq_sym, (fresh_addr_ne _ _ _ Hs).
    + apply fresh_addr_not_null.
  - intros a st1 H. exact H.
Qed.

(** X16.  The clone can be used and destroyed without a trace on its
    source: after any sequence of calls on the clone, also when followed
    by [free_stack] on it, the struct and the buffer of the source are
    what they were when [clone] was called.  The source may or may not
    have a comparison function; the calls are any sequence that calls
    [contains] only while the clone is empty or when it has one, and the
    allocator grants what [clone] requests. *)
Theorem clone_can_be_freed_without_touching_the_source st stack s live junk :
  is_stack st stack s live junk →
  (∀ n, 0 <= n <= 64 + 16 * Z.of_nat (length live) → granted n = true) →
  ∃ c st1,
    clone stack st = Ret c st1 ∧
    is_stack st1 stack s live junk ∧
    (∀ cs, calls_ok (Stack_cmp s) (length live) cs →
           post (run_calls c cs st1)
                (fun _ st' => is_stack st' stack s live junk)) ∧
    (∀ cs, calls_ok (Stack_cmp s) (length live) cs →
           post ((run_calls c cs ;; free_stack c) st1)
                (fun _ st' => is_stack st' stack s live junk ∧
                              structs st' !! c = None)).
Proof.
  intros Hst Hg.
  destruct (copy_all (Stack_copy s) live (world st)) as [ps w1] eqn:Hcp.
  destruct (clone_spec st stack s live junk ps w1 Hst Hcp Hg)
    as (st1 & sc & junkc & Hclone & Hsc & _ & Hf & _ & Hk).
  destruct (is_stack_keeps _ _ _ _ _ _ _ Hst Hk) as [Hst1 Hd].
  pose proof (clone_nonnull_post _ _ _ _ _ Hst) as Hnn.
  rewrite Hclone in Hnn. simpl in Hnn.
  destruct Hnn as (sc' & livec' & junkc' & Hsc' & Hnn).
  destruct (is_stack_unique _ _ _ _ _ _ _ _ Hsc Hsc') as (-> & _ & _).
  pose proof Hst as (_ & Hs & _).
  assert (Hne : stack ≠ fresh_addr (structs st)) by apply (fresh_addr_ne _ _ _ Hs).
  assert (Hcalls : ∀ cs, calls_ok (Stack_cmp s) (length live) cs →
            post (run_calls (fresh_addr (structs st)) cs st1)
            (fun _ st' => ∃ sc2 live2 junk2,
               is_stack st' (fresh_addr (structs st)) sc2 live2 junk2 ∧
               Stack_data sc2 ≠ NULL ∧
               is_stack st' stack s live junk ∧
               Stack_data s ≠ Stack_data sc2)).
  { intros cs Hok. eapply post_mono.
    - apply (run_calls_post (fun _ => True) _ cs st1 sc ps junkc Hsc Hnn);
        [|done|done].
      destruct Hf as (_ & _ & ->).
      by rewrite (copy_all_length _ _ _ _ _ Hcp).
    - intros _ st' (sc2 & live2 & junk2 & H1 & H2 & _ & Hfr).
      destruct (is_stack_frame _ _ _ _ _ _ _ _ _ Hst1 Hfr Hne Hd) as [H3 H4].
      by exists sc2, live2, junk2. }
  exists (fresh_addr (structs st)), st1. split_and!; [done|done| |].
  - intros cs Hok. eapply post_mono; [by apply Hcalls|].
    by intros _ st' (_ & _ & _ & _ & _ & H & _).
  - intros cs Hok. eapply post_bind; [by apply Hcalls|].
    intros _ st' (sc2 & live2 & junk2 & H1 & H2 & H3 & H4).
    rewrite (free_stack_spec _ _ _ _ _ H1 H2). simpl.
    destruct H3 as (Hn & Hs3 & Ha3 & Hrest).
    split; [|apply lookup_delete_eq].
    unfold is_stack. simpl.
    by rewrite lookup_delete_ne, lookup_delete_ne.
Qed.

End Extras.

(** * The properties on the two clients *)

#[local] Existing Instance IntClient.small_requests.

Import IntClient.

Lemma small_requests_grants n : 0 <= n <= 4096 → granted n = true.
Proof.
  intros Hn. unfold granted, alloc_ok, small_requests, PTRDIFF_MAX.
  apply andb_true_intro. split; apply Z.leb_le; lia.
Qed.

Lemma int_copy_contract : copy_contract allocated val int_copy.
Proof.
  intros e w p w' H. unfold int_copy in H. injection H as <- <-.
  unfold allocated, val. split_and!.
  - rewrite fresh_addr_None. by intros [x Hx].
  - rewrite lookup_insert_eq. by eexists.
  - by rewrite lookup_insert_eq.
  - intros q [x Hq]. rewrite lookup_insert_ne; [by split; [eexists|]|].
    apply not_eq_sym, (fresh_addr_ne _ _ _ Hq).
Qed.

(** The example states have the shape [is_stack] asks for. *)
Ltac stack_shape :=
  unfold is_stack; split_and!; [done | reflexivity.. | by vm_compute].

(** The stack of [st3] is what pushing the caller's three values onto a
    new stack gives. *)
Example st3_reached :
  (h <- new_stack int_copy int_free (Some int_cmp) ;; push_all h [1; 2; 3] ;; ret h)
    st_init
  = Ret 1 st3.
Proof. reflexivity. Qed.

Lemma push_all_pop_n_reverses_witness :
  ∃ stack st0 st1 st2,
    new_stack int_copy int_free (Some int_cmp) st_init = Ret stack st0 ∧
    push_all stack [1; 2; 3] st0 = Ret tt st1 ∧
    pop_n stack 3 st1 = Ret [6; 5; 4] st2 ∧
    size stack st2 = Ret 0 st2 ∧
    is_empty stack st2 = Ret true st2 ∧
    pop stack st2 = Ret NULL st2.
Proof.
  apply (push_all_pop_n_reverses int_copy int_free (Some int_cmp) [1; 2; 3] st_init).
  intros n Hn. apply small_requests_grants. simpl in Hn. lia.
Defined.

Lemma push_grows_by_doubling_witness :
  (is_stack st8 1 s8 [4; 5; 6; 7; 8; 9; 10; 11] [] ∧
   ∃ st' s' junk',
     push 1 1 st8 = Ret tt st' ∧
     is_stack st' 1 s' [4; 5; 6; 7; 8; 9; 10; 11; 12] junk' ∧
     Stack_capacity s' = 16) ∧
  (is_stack st3 1 s3 [4; 5; 6] junk5 ∧
   post (run_call 1 Pop st3) (fun _ st' =>
     ∃ s' live' junk', is_stack st' 1 s' live' junk' ∧ 8 <= Stack_capacity s')) ∧
  (∃ stack st0 st9 s9 junk9,
     new_stack int_copy int_free (Some int_cmp) st_init = Ret stack st0 ∧
     capacity stack st0 = Ret 8 st0 ∧
     push_all stack (replicate 9 1) st0 = Ret tt st9 ∧
     is_stack st9 stack s9 [4; 5; 6; 7; 8; 9; 10; 11; 12] junk9 ∧
     capacity stack st9 = Ret 16 st9).
Proof.
  destruct (push_grows_by_doubling (W := gmap Z Z)) as (H1 & H2 & H3).
  assert (S8 : is_stack st8 1 s8 [4; 5; 6; 7; 8; 9; 10; 11] []) by stack_shape.
  assert (S3 : is_stack st3 1 s3 [4; 5; 6] junk5) by stack_shape.
  split_and!; try done.
  - destruct (H1 st8 1 s8 _ _ 1 S8) as (st' & s' & junk' & Hp & Hs & Hc & _).
    { intros _. by apply small_requests_grants. }
    by exists st', s', junk'.
  - by apply (H2 st3 1 s3 _ _ Pop S3).
  - apply (H3 int_copy int_free (Some int_cmp) (replicate 9 1) st_init); [done|].
    intros n Hn. apply small_requests_grants. lia.
Defined.

Lemma clone_is_independent_copy_witness :
  is_stack st3 1 s3 [4; 5; 6] junk5 ∧
  ∃ c st1 sc livec junkc,
    clone 1 st3 = Ret c st1 ∧
    c ≠ 1 ∧
    is_stack st1 c sc livec junkc ∧
    livec = [7; 8; 9] ∧
    val (world st1) <$> livec = [7; 8; 9] ∧
    is_stack st1 1 s3 [4; 5; 6] junk5 ∧
    post (run_mutations c [MPop; MPush 1; MPush 2] st1)
         (fun _ st' => is_stack st' 1 s3 [4; 5; 6] junk5).
Proof.
  assert (S3 : is_stack st3 1 s3 [4; 5; 6] junk5) by stack_shape.
  split; [done|].
  destruct (clone_is_independent_copy allocated val st3 1 s3 [4; 5; 6] junk5 S3)
    as (c & st1 & sc & livec & junkc & Hc & _ & Hne & _ & _ & Hsc & _ & Hcp & Hv
        & Hst & _ & _ & _ & Hm & _).
  - apply int_copy_contract.
  - repeat first [apply Forall_nil_2 | apply Forall_cons_2; [by eexists|]].
  - intros n Hn. apply small_requests_grants. simpl in Hn. lia.
  - exists c, st1, sc, livec, junkc. split_and!; try done.
    apply (f_equal fst) in Hcp. exact Hcp.
Defined.

Lemma reverse_in_place_involutive_witness :
  is_stack st3 1 s3 [4; 5; 6] junk5 ∧
  ∃ st',
    reverse 1 st3 = Ret tt st' ∧
    is_stack st' 1 s3 [6; 5; 4] junk5 ∧
    world st' = world st3 ∧
    reverse 1 st' = Ret tt st3.
Proof.
  assert (S3 : is_stack st3 1 s3 [4; 5; 6] junk5) by stack_shape.
  split; [done|].
  destruct (reverse_in_place_involutive st3 1 s3 [4; 5; 6] junk5 S3)
    as (st' & H1 & H2 & _ & _ & H3 & _ & _ & H4).
  by exists st'.
Defined.

Lemma contains_iff_some_equal_witness :
  is_stack st3 1 s3 [4; 5; 6] junk5 ∧
  ∃ b,
    contains 1 2 st3 = Ret b st3 ∧
    (b = true ↔ ∃ (i : nat) (p : Z),
                  [4; 5; 6] !! i = Some p ∧ int_cmp p 2 (world st3) = 0).
Proof.
  assert (S3 : is_stack st3 1 s3 [4; 5; 6] junk5) by stack_shape.
  split; [done|].
  destruct (contains_iff_some_equal st3 1 s3 [4; 5; 6] junk5 int_cmp 2 S3 eq_refl)
    as (b & H1 & H2 & _).
  by exists b.
Defined.

Lemma to_array_copies_bottom_to_top_witness :
  is_stack st3 1 s3 [4; 5; 6] junk5 ∧
  ∃ a st',
    to_array 1 true st3 = Ret (a, Some 3) st' ∧
    is_stack st' 1 s3 [4; 5; 6] junk5 ∧
    arrays st' !! a = Some [Ptr 7; Ptr 8; Ptr 9].
Proof.
  assert (S3 : is_stack st3 1 s3 [4; 5; 6] junk5) by stack_shape.
  split; [done|].
  destruct (to_array_copies_bottom_to_top st3 1 s3 [4; 5; 6] junk5 true S3)
    as (a & st' & H1 & H2 & _ & _ & _ & H3).
  - intros _. by apply small_requests_grants.
  - exists a, st'. split_and!; try done.
    by destruct H3 as (_ & _ & H3 & _).
Defined.

(** With the client that records the calls of its free function: [clear]
    releases the three live elements, each once, from index 0 upward. *)
Lemma clear_frees_each_once_witness :
  is_stack LogClient.st3 1 LogClient.s3 [4; 5; 6] (replicate 5 Indet) ∧
  ∃ st',
    clear 1 LogClient.st3 = Ret tt st' ∧
    world st' = [4; 5; 6] ∧
    size 1 st' = Ret 0 st' ∧
    capacity 1 st' = Ret 8 st' ∧
    clear 1 st' = Ret tt st'.
Proof.
  assert (S3 : is_stack LogClient.st3 1 LogClient.s3 [4; 5; 6] (replicate 5 Indet))
    by stack_shape.
  split; [done|].
  destruct (clear_frees_each_once LogClient.st3 1 LogClient.s3 _ _ S3)
    as (st' & H1 & H2 & H3 & _ & H4 & _ & _ & H5).
  by exists st'.
Defined.

Lemma pop_peek_on_empty_witness :
  is_stack st0 1 s0 [] (replicate 8 Indet) ∧
  pop 1 st0 = Ret NULL st0 ∧
  peek 1 st0 = Ret NULL st0 ∧
  size 1 st0 = Ret 0 st0 ∧
  capacity 1 st0 = Ret 8 st0.
Proof.
  assert (S0 : is_stack st0 1 s0 [] (replicate 8 Indet)) by stack_shape.
  split; [done|].
  apply (pop_peek_on_empty st0 1 s0 (replicate 8 Indet) S0).
Defined.

(** The example stacks hold live, non-null owned elements. *)
Ltac owned_elements :=
  split;
  [ repeat first [apply Forall_nil_2 | apply Forall_cons_2; [by split; [|eexists]|]]
  | by apply (bool_decide_unpack _) ].

Lemma every_call_keeps_buffer_invariant_witness :
  (∃ stack st' s',
     new_stack int_copy int_free (Some int_cmp) st_init = Ret stack st' ∧
     is_stack st' stack s' [] (replicate 8 Indet) ∧
     spec_buffer_invariant allocated st' stack) ∧
  (spec_buffer_invariant allocated st3 1 ∧
   post (run_call 1 (Push 1) st3)
        (fun _ st' => spec_buffer_invariant allocated st' 1) ∧
   post (run_call 1 Clear st3)
        (fun _ st' => spec_buffer_invariant allocated st' 1)) ∧
  (∃ st' s',
     pop 1 st3 = Ret 6 st' ∧
     is_stack st' 1 s' [4; 5] (Ptr NULL :: junk5) ∧
     spec_buffer_invariant allocated st' 1 ∧
     allocated (world st') 6) ∧
  (spec_buffer_invariant allocated st8 1 ∧
   ∃ st' s',
     push 1 1 st8 = Ret tt st' ∧
     is_stack st' 1 s' [4; 5; 6; 7; 8; 9; 10; 11; 12] (replicate 7 Indet) ∧
     spec_buffer_invariant allocated st' 1) ∧
  (clear 1 st3 = Ret tt st3_cleared ∧
   is_stack st3_cleared 1 s0 [] ([Ptr 4; Ptr 5; Ptr 6] ++ junk5) ∧
   spec_buffer_invariant allocated st3_cleared 1) ∧
  (∃ c st' sc livec junkc,
     clone 1 st3 = Ret c st' ∧
     c ≠ 1 ∧
     is_stack st' c sc livec junkc ∧
     spec_buffer_invariant allocated st' c ∧
     spec_buffer_invariant allocated st' 1 ∧
     (∀ p, p ∈ livec → p ∉ [4; 5; 6])).
Proof.
  destruct (every_call_keeps_buffer_invariant (W := gmap Z Z) allocated val)
    as (H1 & H2 & H3 & H4 & H5 & H6).
  assert (S8 : is_stack st8 1 s8 [4; 5; 6; 7; 8; 9; 10; 11] []) by stack_shape.
  assert (S3 : is_stack st3 1 s3 [4; 5; 6] junk5) by stack_shape.
  assert (I3 : spec_buffer_invariant allocated st3 1).
  { apply (invariant_intro allocated st3 1 s3 [4; 5; 6] junk5 S3). owned_elements. }
  assert (I8 : spec_buffer_invariant allocated st8 1).
  { apply (invariant_intro allocated st8 1 s8 _ [] S8). owned_elements. }
  assert (Hnn : ∀ e w, (int_copy e w).1 ≠ NULL).
  { intros e w. apply fresh_addr_not_null. }
  split_and!.
  - apply H1; by apply small_requests_grants.
  - exact I3.
  - eapply post_mono.
    + by apply (H2 st3 1 s3 _ _ (Push 1) S3 I3 int_copy_contract Hnn).
    + by intros _ st' [H _].
  - eapply post_mono.
    + by apply (H2 st3 1 s3 _ _ Clear S3 I3 int_copy_contract Hnn).
    + by intros _ st' [H _].
  - destruct (H3 st3 1 s3 [4; 5] 6 junk5 S3 I3) as (st' & s' & Hp & Hs & Hi & Ha & _).
    by exists st', s'.
  - exact I8.
  - apply (H4 st8 1 s8 _ 1 S8 I8 int_copy_contract Hnn).
    by apply small_requests_grants.
  - reflexivity.
  - stack_shape.
  - destruct (H5 st3 1 s3 _ _ S3) as (st' & s' & Hc & Hs & Hi).
    assert (E : clear 1 st3 = Ret tt st3_cleared) by reflexivity.
    rewrite E in Hc. by injection Hc as <-.
  - apply (H6 st3 1 s3 _ _ S3 I3 int_copy_contract Hnn).
    intros n Hn. apply small_requests_grants. simpl in Hn. lia.
Defined.

(** The scenario of the specification, with the values 7, 8 and 9 as the
    elements 1, 2 and 3: push them, then [pop] returns the copy of 9,
    [pop] returns the copy of 8, [size] is 1, [peek] is the copy of 7,
    [pop] returns it and one more [pop] returns [NULL]. *)
Example lifo_scenario :
  returned
    ((h <- new_stack int_copy int_free (Some int_cmp) ;;
      push h 1 ;; push h 2 ;; push h 3 ;;
      a <- pop h ;; b <- pop h ;; n <- size h ;; c <- peek h ;;
      d <- pop h ;; e <- pop h ;;
      ret (a, b, n, c, d, e)) st_init)
  = Some (6, 5, 1, 4, 4, NULL) ∧
  val w3 <$> [6; 5; 4] = [9; 8; 7].
Proof. split; reflexivity. Qed.

(** * The further properties on the two clients *)

Lemma free_stack_releases_everything_witness :
  is_stack LogClient.st3 1 LogClient.s3 [4; 5; 6] (replicate 5 Indet) ∧
  ∃ st',
    free_stack 1 LogClient.st3 = Ret tt st' ∧
    world st' = [4; 5; 6] ∧
    structs st' = ∅ ∧
    arrays st' = ∅ ∧
    free_stack 1 st' = Undefined.
Proof.
  assert (S3 : is_stack LogClient.st3 1 LogClient.s3 [4; 5; 6] (replicate 5 Indet))
    by stack_shape.
  split; [done|].
  destruct (free_stack_releases_everything LogClient.st3 1 LogClient.s3 _ _ S3)
    as (st' & H1 & H2 & H3 & H4 & H5 & _); [done|].
  by exists st'.
Defined.

Lemma popped_element_is_not_released_witness :
  is_stack LogClient.st3 1 LogClient.s3 ([4; 5] ++ [6]) (replicate 5 Indet) ∧
  ∃ st1 st2,
    pop 1 LogClient.st3 = Ret 6 st1 ∧
    world st1 = [] ∧
    free_stack 1 st1 = Ret tt st2 ∧
    world st2 = [4; 5].
Proof.
  assert (S3 : is_stack LogClient.st3 1 LogClient.s3 ([4; 5] ++ [6]) (replicate 5 Indet))
    by stack_shape.
  split; [done|].
  by apply (popped_element_is_not_released LogClient.st3 1 LogClient.s3 [4; 5] 6 _ S3).
Defined.

Lemma push_then_pop_returns_the_copy_witness :
  is_stack st8 1 s8 [4; 5; 6; 7; 8; 9; 10; 11] [] ∧
  ∃ st1 st2 s2 junk2,
    push 1 1 st8 = Ret tt st1 ∧
    pop 1 st1 = Ret 12 st2 ∧
    is_stack st2 1 s2 [4; 5; 6; 7; 8; 9; 10; 11] junk2 ∧
    size 1 st2 = Ret 8 st2.
Proof.
  assert (S8 : is_stack st8 1 s8 [4; 5; 6; 7; 8; 9; 10; 11] []) by stack_shape.
  split; [done|].
  destruct (push_then_pop_returns_the_copy st8 1 s8 _ _ 1 S8)
    as (st1 & st2 & s2 & junk2 & H1 & H2 & H3 & H4 & _).
  - intros _. by apply small_requests_grants.
  - by exists st1, st2, s2, junk2.
Defined.

Lemma peek_returns_top_and_keeps_state_witness :
  is_stack st3 1 s3 ([4; 5] ++ [6]) junk5 ∧
  peek 1 st3 = Ret 6 st3 ∧
  ∃ st', (_ <- peek 1 ;; pop 1) st3 = Ret 6 st' ∧ size 1 st' = Ret 2 st'.
Proof.
  assert (S3 : is_stack st3 1 s3 ([4; 5] ++ [6]) junk5) by stack_shape.
  split; [done|].
  apply (peek_returns_top_and_keeps_state st3 1 s3 [4; 5] 6 junk5 S3).
Defined.

(** With an allocator that refuses everything, two pushes into the five
    free slots of [st3] still return. *)
Lemma pushes_into_free_slots_do_not_allocate_witness :
  is_stack st3 1 s3 [4; 5; 6] junk5 ∧
  ∃ st' s',
    push_all (allocator := no_memory) 1 [1; 2] st3 = Ret tt st' ∧
    is_stack st' 1 s' [4; 5; 6; 7; 8] (replicate 3 Indet) ∧
    Stack_capacity s' = 8 ∧
    Stack_data s' = 1.
Proof.
  assert (S3 : is_stack st3 1 s3 [4; 5; 6] junk5) by stack_shape.
  split; [done|].
  apply (pushes_into_free_slots_do_not_allocate (allocator := no_memory)
           1 [1; 2] st3 s3 [4; 5; 6] junk5 S3).
  simpl. lia.
Defined.

Lemma contains_without_cmp_witness :
  is_stack LogClient.st3 1 LogClient.s3 [4; 5; 6] (replicate 5 Indet) ∧
  contains 1 4 LogClient.st3 = Undefined.
Proof.
  assert (S3 : is_stack LogClient.st3 1 LogClient.s3 [4; 5; 6] (replicate 5 Indet))
    by stack_shape.
  split; [done|].
  apply (contains_without_cmp LogClient.st3 1 LogClient.s3 [4; 5; 6] _ 4 S3 eq_refl).
Defined.

Lemma reverse_then_pops_in_push_order_witness :
  is_stack st3 1 s3 [4; 5; 6] junk5 ∧
  ∃ st1 st2,
    reverse 1 st3 = Ret tt st1 ∧
    pop_n 1 3 st1 = Ret [4; 5; 6] st2 ∧
    is_empty 1 st2 = Ret true st2.
Proof.
  assert (S3 : is_stack st3 1 s3 [4; 5; 6] junk5) by stack_shape.
  split; [done|].
  apply (reverse_then_pops_in_push_order st3 1 s3 [4; 5; 6] junk5 S3).
Defined.

Lemma contains_after_reverse_witness :
  is_stack st3 1 s3 [4; 5; 6] junk5 ∧
  ∃ st1 b,
    reverse 1 st3 = Ret tt st1 ∧
    contains 1 2 st3 = Ret b st3 ∧
    contains 1 2 st1 = Ret b st1.
Proof.
  assert (S3 : is_stack st3 1 s3 [4; 5; 6] junk5) by stack_shape.
  split; [done|].
  apply (contains_after_reverse st3 1 s3 [4; 5; 6] junk5 int_cmp 2 S3 eq_refl).
Defined.

Lemma new_stack_returns_fresh_or_exits_witness :
  new_stack (allocator := no_memory) int_copy int_free (Some int_cmp) st_init = Exit ∧
  ∃ stack st',
    new_stack int_copy int_free (Some int_cmp) st_init = Ret stack st' ∧
    stack ≠ NULL ∧
    capacity stack st' = Ret 8 st'.
Proof.
  split.
  - by apply (new_stack_returns_fresh_or_exits (allocator := no_memory)
                int_copy int_free (Some int_cmp) st_init).
  - destruct (new_stack_returns_fresh_or_exits int_copy int_free (Some int_cmp) st_init)
      as [_ H].
    destruct (H eq_refl) as (stack & st' & H1 & H2 & _ & _ & H3 & _).
    by exists stack, st'.
Defined.

(** On a stack without comparison function: [contains] is called once the
    stack has been cleared. *)
Lemma to_array_result_is_a_snapshot_witness :
  is_stack LogClient.st3 1 LogClient.s3 [4; 5; 6] (replicate 5 Indet) ∧
  Stack_cmp LogClient.s3 = None ∧
  ∃ a n st1 copies,
    to_array 1 true LogClient.st3 = Ret (a, n) st1 ∧
    arrays st1 !! a = Some copies ∧
    post (run_calls 1 [Pop; Push 1; Reverse; Clear; Contains 5; Push 2] st1)
         (fun _ st' => arrays st' !! a = Some copies) ∧
    post ((run_calls 1 [Pop; Clone; ToArray false] ;; free_stack 1) st1)
         (fun _ st' => arrays st' !! a = Some copies).
Proof.
  assert (S3 : is_stack LogClient.st3 1 LogClient.s3 [4; 5; 6] (replicate 5 Indet))
    by stack_shape.
  split; [done|]. split; [done|].
  destruct (to_array_result_is_a_snapshot LogClient.st3 1 LogClient.s3 [4; 5; 6] _
              true S3)
    as (a & n & st1 & copies & H1 & H2 & H3 & H4);
    [done | done | by apply small_requests_grants |].
  exists a, n, st1, copies. split_and!; [done|done| |].
  - apply H3. simpl. split_and!; try done. by left.
  - apply H4. simpl. by split_and!.
Defined.

(** A stack made without comparison function: [contains] is called while
    it is empty, before the first [push] and after [clear]. *)
Lemma capacity_is_eight_times_a_power_of_two_witness :
  calls_ok (W := gmap Z Z) None 0
    ([Contains 1] ++ replicate 9 (Push 1) ++ [Pop; Reverse; Clear; Contains 2]) ∧
  post ((h <- new_stack int_copy int_free None ;;
         run_calls h
           ([Contains 1] ++ replicate 9 (Push 1) ++ [Pop; Reverse; Clear; Contains 2]) ;;
         capacity h) st_init)
       (fun c _ => ∃ k : nat, c = 8 * 2 ^ Z.of_nat k).
Proof.
  assert (Hok : calls_ok (W := gmap Z Z) None 0
            ([Contains 1] ++ replicate 9 (Push 1) ++ [Pop; Reverse; Clear; Contains 2])).
  { simpl. split_and!; try done; by left. }
  split; [exact Hok|].
  apply (capacity_is_eight_times_a_power_of_two int_copy int_free None _ st_init Hok).
Defined.

Lemma pushes_grow_to_less_than_twice_the_size_witness :
  ∃ stack st0 st1 c,
    new_stack int_copy int_free (Some int_cmp) st_init = Ret stack st0 ∧
    push_all stack (replicate 9 1) st0 = Ret tt st1 ∧
    size stack st1 = Ret 9 st1 ∧
    capacity stack st1 = Ret c st1 ∧
    9 <= c ∧
    (c = 8 ∨ c < 18).
Proof.
  apply (pushes_grow_to_less_than_twice_the_size
           int_copy int_free (Some int_cmp) (replicate 9 1) st_init).
  intros n Hn. apply small_requests_grants. simpl in Hn. lia.
Defined.

(** The clone of a stack of 3 elements in a buffer of 16 slots has
    capacity 8. *)
Lemma clone_capacity_fits_the_size_witness :
  is_stack st3_wide 1 s3_wide [4; 5; 6] (replicate 13 Indet) ∧
  ∃ c st',
    clone 1 st3_wide = Ret c st' ∧
    size c st' = Ret 3 st' ∧
    capacity c st' = Ret 8 st'.
Proof.
  assert (S3 : is_stack st3_wide 1 s3_wide [4; 5; 6] (replicate 13 Indet))
    by stack_shape.
  split; [done|].
  destruct (clone_capacity_fits_the_size st3_wide 1 s3_wide _ _ S3)
    as (c & st' & cap & H1 & H2 & H3 & H4 & _).
  - intros n Hn. apply small_requests_grants. simpl in Hn. lia.
  - exists c, st'. split_and!; [done|done|]. rewrite H3. by rewrite H4.
Defined.

Lemma clone_can_be_freed_without_touching_the_source_witness :
  is_stack st3 1 s3 [4; 5; 6] junk5 ∧
  ∃ c st1,
    clone 1 st3 = Ret c st1 ∧
    post ((run_calls c [Push 1; Contains 1; Reverse; Pop; Clear] ;; free_stack c) st1)
         (fun _ st' => is_stack st' 1 s3 [4; 5; 6] junk5 ∧ structs st' !! c = None).
Proof.
  assert (S3 : is_stack st3 1 s3 [4; 5; 6] junk5) by stack_shape.
  split; [done|].
  destruct (clone_can_be_freed_without_touching_the_source st3 1 s3 _ _ S3)
    as (c & st1 & H1 & _ & _ & H2).
  - intros n Hn. apply small_requests_grants. simpl in Hn. lia.
  - exists c, st1. split; [done|]. apply H2. simpl. split_and!; try done. by right.
Defined.
